(** * Traffic-sensing relay (Mundolel/Distribuidos): shallow embedding

    The development follows the layout of the Python sources:

    - [Constants]      : src/common/constants.py
    - [Models]         : src/common/models.py  (congestion level, GPSEvent)
    - [ConfigLoader]   : src/common/config_loader.py  (get_config)
    - [Zmq]            : the part of the pyzmq interface the brokers use
    - [Broker]         : src/pc1/broker.py  (single-threaded relay)
    - [BrokerThreaded] : src/pc1/broker_threaded.py  (workers + collector),
                         [WorkerSetup] : the statements of a worker before
                         its loop
    - [ModelsMore]     : src/common/models.py  (CameraEvent, InductiveEvent,
                         the dictionary to_json serialises)
    - [Sensor]         : src/pc1/sensors/*.py  (the loop of the three sensor
                         processes), [GpsSensor] : generate_gps_event
    - [DbUtils]        : src/common/db_utils.py  (query_congestion_history)
    - [BrokerMore], [BrokerThreadedMore], [Relays] : further measures of the
                         two relays, and the two side by side

    Definitions come first; the theorems about them follow. *)

From Stdlib Require Import ZArith QArith Ascii String.
From Stdlib Require PrimFloat Uint63.
From stdpp Require Import base option list gmap strings.

Open Scope string_scope.

(* ===================================================================== *)
(** * Definitions                                                         *)
(* ===================================================================== *)

(** ** src/common/constants.py *)
Module Constants.

Definition TOPIC_CAMERA : string := "camara".
Definition TOPIC_INDUCTIVE : string := "espira".
Definition TOPIC_GPS : string := "gps".

Definition SENSOR_TYPE_GPS : string := "gps".

(* velocidad_promedio < 10 -> ALTA ; velocidad_promedio > 40 -> BAJA *)
Definition CONGESTION_ALTA_MAX_SPEED : Z := 10.
Definition CONGESTION_BAJA_MIN_SPEED : Z := 40.

Definition CONGESTION_ALTA : string := "ALTA".
Definition CONGESTION_NORMAL : string := "NORMAL".
Definition CONGESTION_BAJA : string := "BAJA".

End Constants.

(** ** Python values that reach the models

    A speed is a Python [int] or [float]. Every finite one is a rational
    number and Python compares ints and floats exactly, so finite numbers
    are modelled as [Q]; the three special floats are kept apart because
    every ordered comparison with [nan] is false. *)
Module Py.

Inductive number :=
| Fin (q : Q)
| PosInf
| NegInf
| NaN.

Definition Qltb (x y : Q) : bool := negb (Qle_bool y x).

(* a < b on numbers *)
Definition num_ltb (a b : number) : bool :=
  match a, b with
  | NaN, _ | _, NaN => false
  | Fin x, Fin y => Qltb x y
  | PosInf, _ => false
  | _, PosInf => true
  | NegInf, NegInf => false
  | NegInf, Fin _ => true
  | Fin _, NegInf => false
  end.

(* The dynamically typed values a dataclass field or a JSON object holds
   in this program. *)
Inductive value :=
| VNone
| VBool (b : bool)
| VNum (x : number)
| VStr (s : string).

(* bool is a subclass of int; None and str do not order against an int *)
Definition as_number (v : value) : option number :=
  match v with
  | VBool b => Some (Fin (inject_Z (if b then 1 else 0)))
  | VNum x => Some x
  | VNone | VStr _ => None
  end.

(* [v < k] and [v > k] for an int constant k; None is TypeError *)
Definition lt_int (v : value) (k : Z) : option bool :=
  x ← as_number v; Some (num_ltb x (Fin (inject_Z k))).

Definition gt_int (v : value) (k : Z) : option bool :=
  x ← as_number v; Some (num_ltb (Fin (inject_Z k)) x).

End Py.

(** ** src/common/models.py *)
Module Models.
Import Constants Py.

(* def get_congestion_level(velocidad_promedio): None models the TypeError
   of comparing a non-number with an int *)
Definition get_congestion_level (velocidad_promedio : value) : option string :=
  below ← lt_int velocidad_promedio CONGESTION_ALTA_MAX_SPEED;
  if (below : bool) then Some CONGESTION_ALTA
  else
    above ← gt_int velocidad_promedio CONGESTION_BAJA_MIN_SPEED;
    if (above : bool) then Some CONGESTION_BAJA
    else Some CONGESTION_NORMAL.

(* @dataclass class GPSEvent *)
Record GPSEvent := mkGPSEvent {
  sensor_id : value;
  tipo_sensor : value;
  interseccion : value;
  nivel_congestion : value;
  velocidad_promedio : value;
  timestamp : value
}.

(* def __post_init__(self):
       self.nivel_congestion = get_congestion_level(self.velocidad_promedio) *)
Definition __post_init__ (self : GPSEvent) : option GPSEvent :=
  level ← get_congestion_level (velocidad_promedio self);
  Some (mkGPSEvent (sensor_id self) (tipo_sensor self) (interseccion self)
                   (VStr level) (velocidad_promedio self) (timestamp self)).

(* The constructor the dataclass decorator generates: sensor_id is
   required, an omitted keyword takes its default ([now] is what the
   default factory now_iso() returns), then __post_init__ runs. *)
Definition GPSEvent_init (now : string) (sensor_id : value)
    (tipo_sensor interseccion nivel_congestion velocidad_promedio
     timestamp : option value) : option GPSEvent :=
  __post_init__
    (mkGPSEvent sensor_id
                (default (VStr SENSOR_TYPE_GPS) tipo_sensor)
                (default (VStr "") interseccion)
                (default (VStr CONGESTION_NORMAL) nivel_congestion)
                (default (VNum (Fin 0)) velocidad_promedio)
                (default (VStr now) timestamp)).

(* @classmethod from_dict(cls, data):
       return cls(<the items of data whose key is in cls.__dataclass_fields__>)
   The items are passed as keyword arguments. Only the six field names survive the filter; a missing sensor_id is a
   TypeError (None). *)
Definition from_dict (now : string) (data : gmap string value) : option GPSEvent :=
  sid ← data !! "sensor_id";
  GPSEvent_init now sid
    (data !! "tipo_sensor") (data !! "interseccion")
    (data !! "nivel_congestion") (data !! "velocidad_promedio")
    (data !! "timestamp").

End Models.

(** ** src/common/config_loader.py *)
Module ConfigLoader.

Section WithFiles.
(* The parsed content of a configuration file. *)
Variable json : Type.
(* open(config_path) followed by json.load: None when either raises. *)
Variable read_json : string -> option json.
Variable DEFAULT_CONFIG_PATH : string.

(* class CityConfig: the only attribute is _config *)
Record CityConfig := mkCityConfig { _config : json }.

(* Objects live in a heap so that "the same instance" can be told from
   "an equal instance": a reference is an index into [heap]. *)
Record module_state := mkModuleState {
  heap : list CityConfig;
  _config_instance : option nat
}.

Definition initial : module_state := mkModuleState [] None.

(* CityConfig(config_path): allocates a fresh object when loading works *)
Definition CityConfig_new (config_path : string) (st : module_state)
    : option nat * module_state :=
  match read_json config_path with
  | None => (None, st)
  | Some j =>
      (Some (length (heap st)),
       mkModuleState (heap st ++ [mkCityConfig j]) (_config_instance st))
  end.

(* def get_config(config_path=DEFAULT_CONFIG_PATH) *)
Definition get_config (config_path : option string) (st : module_state)
    : option nat * module_state :=
  match _config_instance st with
  | None =>
      match CityConfig_new (default DEFAULT_CONFIG_PATH config_path) st with
      | (Some r, st') => (Some r, mkModuleState (heap st') (Some r))
      | (None, st') => (None, st')
      end
  | Some r => (Some r, st)
  end.

(* a sequence of calls, threading the module state *)
Fixpoint get_config_calls (paths : list (option string)) (st : module_state)
    : list (option nat) * module_state :=
  match paths with
  | [] => ([], st)
  | p :: ps =>
      let '(r, st') := get_config p st in
      let '(rs, st'') := get_config_calls ps st' in
      (r :: rs, st'')
  end.

End WithFiles.

Arguments _config {json} _.
Arguments heap {json} _.
Arguments _config_instance {json} _.
Arguments initial {json}.
Arguments get_config {json} _ _ _ _.
Arguments get_config_calls {json} _ _ _ _.

End ConfigLoader.

(** ** The part of pyzmq the brokers use

    pyzmq is not part of the repository; this module fixes the behaviour of
    the handful of calls the brokers make.

    - A frame is the text [recv_string] returns and [send_string] takes. The
      brokers never look inside it (except to log its first token), and
      decoding a valid UTF-8 frame and encoding it again gives the same
      bytes, so the text stands for the bytes on the wire.
    - A SUB socket queues, in arrival order, the frames that start with its
      subscription; PUB/SUB delivery is best effort, a frame may be lost
      before it is queued.
    - A PUB socket is described by the frames handed to it, oldest first.
      [send_string] on it does not wait.
    - [poll] with a timeout returns within that time; without one it waits
      until a frame arrives. [recv_string] waits until a frame is queued.
    - Every call into the transport may raise; which exception, if any, is
      decided by the environment. *)
Module Zmq.

Definition frame := string.

Inductive exn :=
| ZMQError (errno : Z)
| KeyboardInterrupt
| UnicodeDecodeError.

Record sub_socket := mkSub {
  subscription : string;   (* setsockopt_string(zmq.SUBSCRIBE, topic) *)
  rx : list frame;         (* received, not yet read *)
  sub_closed : bool
}.

Record pub_socket := mkPub {
  tx : list frame;         (* every frame sent, oldest first *)
  pub_closed : bool
}.

Definition connect_sub (topic : string) : sub_socket := mkSub topic [] false.
Definition bind_pub : pub_socket := mkPub [] false.

(* a frame published upstream reaches an open socket whose subscription
   is a prefix of it *)
Definition deliver (m : frame) (s : sub_socket) : sub_socket :=
  if sub_closed s then s
  else if String.prefix (subscription s) m
       then mkSub (subscription s) (rx s ++ [m]) (sub_closed s)
       else s.

(* readiness for POLLIN *)
Definition pollin (s : sub_socket) : bool :=
  match rx s with [] => false | _ :: _ => true end.

Definition pop (s : sub_socket) : sub_socket :=
  mkSub (subscription s) (tail (rx s)) (sub_closed s).

Definition close_sub (s : sub_socket) : sub_socket :=
  mkSub (subscription s) [] true.

Definition send (m : frame) (p : pub_socket) : pub_socket :=
  mkPub (tx p ++ [m]) (pub_closed p).

Definition close_pub (p : pub_socket) : pub_socket := mkPub (tx p) true.

(* How long a call can keep its thread waiting. *)
Inductive wait :=
| Bounded (timeout_ms : Z)
| Unbounded.

(* poll(timeout=t): one attempt returns after at most t milliseconds.  When
   a signal interrupts the attempt and its handler returns, pyzmq starts
   the poll again, with the whole seconds that have passed taken off the
   timeout; a call that is interrupted [restarts] times can therefore take
   up to (restarts + 1) * t milliseconds.  poll() without a timeout waits
   for an event. *)
Definition poll_wait (timeout_ms : option Z) (restarts : nat) : wait :=
  match timeout_ms with
  | Some t => Bounded (t * (Z.of_nat restarts + 1))
  | None => Unbounded
  end.

(* send_string on a PUSH socket, with flags=0 and no SNDTIMEO: the call
   returns once a peer can take the frame.  It has to wait while the PULL
   end is closed or the pipe to it holds as many frames as it can ([hwm],
   from the high-water marks of the two sockets, which the program leaves
   at their defaults).  A PUB socket never makes a send wait. *)
Definition push_blocks (hwm : nat) (peer_closed : bool) (queued : nat) : bool :=
  peer_closed || Nat.leb hwm queued.

(* the longest a thread can be kept by a statement that performs the given
   wait, if any; None when there is no bound *)
Definition wait_ms (w : option wait) : option Z :=
  match w with
  | None => Some 0%Z
  | Some (Bounded t) => Some t
  | Some Unbounded => None
  end.

Inductive level := DEBUG | INFO | ERROR.

(* message.split(" ", 1)[0] *)
Fixpoint first_token (m : string) : string :=
  match m with
  | EmptyString => EmptyString
  | String c rest =>
      if Ascii.eqb c " "%char then EmptyString else String c (first_token rest)
  end.

End Zmq.

(** ** src/pc1/broker.py *)
Module Broker.
Import Zmq.

Inductive message :=
| MsgShutdownSignal                     (* "Shutdown signal received, stopping broker..." *)
| MsgForward (n : nat) (topic : string) (size : nat)
                                        (* "[FORWARD #%d] topic=%s | size=%d bytes" *)
| MsgInterrupted                        (* "Broker interrupted." *)
| MsgShuttingDown (total : nat).        (* "Broker shutting down. Total events forwarded: %d" *)

(* Where the thread running run_broker_standard stands. *)
Inductive pc :=
| AtWhile                               (* while _running: *)
| AtPoll                                (* socks = dict(poller.poll(timeout=1000)) *)
| AtFor (k : nat) (socks : list bool)   (* for sub in subscribers: at the k-th one *)
| AtSend (k : nat) (socks : list bool) (message : frame)
                                        (* publisher.send_string(message) *)
| AtFinally (pending : option exn)      (* finally: *)
| Returned
| Raised (e : exn).

Record state := mkState {
  _running : bool;
  subscribers : list sub_socket;
  publisher : pub_socket;
  context_terminated : bool;
  event_count : nat;
  at_pc : pc;
  log : list (level * message)
}.

Definition with_running (b : bool) (s : state) : state :=
  mkState b (subscribers s) (publisher s) (context_terminated s)
          (event_count s) (at_pc s) (log s).
Definition with_subscribers (l : list sub_socket) (s : state) : state :=
  mkState (_running s) l (publisher s) (context_terminated s)
          (event_count s) (at_pc s) (log s).
Definition with_publisher (p : pub_socket) (s : state) : state :=
  mkState (_running s) (subscribers s) p (context_terminated s)
          (event_count s) (at_pc s) (log s).
Definition with_event_count (n : nat) (s : state) : state :=
  mkState (_running s) (subscribers s) (publisher s) (context_terminated s)
          n (at_pc s) (log s).
Definition goto (p : pc) (s : state) : state :=
  mkState (_running s) (subscribers s) (publisher s) (context_terminated s)
          (event_count s) p (log s).
Definition logger (lv : level) (m : message) (s : state) : state :=
  mkState (_running s) (subscribers s) (publisher s) (context_terminated s)
          (event_count s) (at_pc s) (log s ++ [(lv, m)]).

(* def _signal_handler(sig, frame) *)
Definition _signal_handler (s : state) : state :=
  with_running false (logger INFO MsgShutdownSignal s).

(* sensor_ports: (port name, topic) *)
Definition sensor_ports : list (string * string) :=
  [("sensor_camera_pub", "camara");
   ("sensor_inductive_pub", "espira");
   ("sensor_gps_pub", "gps")].

(* The state on entering the try block: publisher bound, one connected
   and subscribed SUB socket per entry of sensor_ports, event_count = 0. *)
Definition initial : state :=
  mkState true ((fun pt => connect_sub pt.2) <$> sensor_ports) bind_pub
          false 0 AtWhile [].

(* An exception raised inside the try block: only KeyboardInterrupt has a
   handler; anything else is pending while the finally block runs. *)
Definition raise (e : exn) (s : state) : state :=
  match e with
  | KeyboardInterrupt => goto (AtFinally None) (logger INFO MsgInterrupted s)
  | _ => goto (AtFinally (Some e)) s
  end.

(* One statement of the thread. [fault] is the exception the transport
   call made by this statement raises, if it makes one and it raises. *)
Definition thread_step (fault : option exn) (s : state) : state :=
  match at_pc s with
  | AtWhile =>
      if _running s then goto AtPoll s else goto (AtFinally None) s
  | AtPoll =>
      match fault with
      | Some e => raise e s
      | None => goto (AtFor 0 (pollin <$> subscribers s)) s
      end
  | AtFor k socks =>
      match subscribers s !! k with
      | None => goto AtWhile s
      | Some sub =>
          if default false (socks !! k) then
            (* message = sub.recv_string() *)
            match fault with
            | Some e => raise e s
            | None =>
                match rx sub with
                | [] => s   (* nothing queued: the call does not return *)
                | m :: _ =>
                    goto (AtSend k socks m)
                      (with_subscribers (<[k := pop sub]> (subscribers s)) s)
                end
            end
          else goto (AtFor (S k) socks) s
      end
  | AtSend k socks m =>
      match fault with
      | Some e => raise e s
      | None =>
          let s1 := with_publisher (send m (publisher s)) s in
          let s2 := with_event_count (event_count s1 + 1) s1 in
          let s3 := logger INFO
                      (MsgForward (event_count s2) (first_token m)
                                  (String.length m)) s2 in
          goto (AtFor (S k) socks) s3
      end
  | AtFinally pending =>
      let s1 := logger INFO (MsgShuttingDown (event_count s)) s in
      let s2 := with_subscribers (close_sub <$> subscribers s1) s1 in
      let s3 := with_publisher (close_pub (publisher s2)) s2 in
      let s4 := mkState (_running s3) (subscribers s3) (publisher s3) true
                        (event_count s3) (at_pc s3) (log s3) in
      goto (match pending with None => Returned | Some e => Raised e end) s4
  | Returned | Raised _ => s
  end.

(* The wait the next statement of the thread performs, if it waits;
   [restarts] is the number of signals that interrupt it.  In the finally
   block the calls of close() do not wait, but context.term() does, without
   a timeout, until the closed sockets have handed the frames they still
   hold to the network (LINGER is left at its default). *)
Definition next_wait (restarts : nat) (s : state) : option wait :=
  match at_pc s with
  | AtPoll => Some (poll_wait (Some 1000%Z) restarts)
  | AtFor k socks =>
      match subscribers s !! k with
      | Some sub =>
          if default false (socks !! k)
          then match rx sub with [] => Some Unbounded | _ :: _ => None end
          else None
      | None => None
      end
  | AtFinally _ => Some Unbounded
  | _ => None
  end.

(* What happens around the thread. *)
Inductive event :=
| EvPublish (i : nat) (m : frame) (delivered : bool)
    (* the i-th sensor publishes m; the transport delivers or drops it *)
| EvSignal
    (* SIGINT or SIGTERM arrives *)
| EvStep (fault : option exn).
    (* the thread executes its next statement *)

Definition step (e : event) (s : state) : state :=
  match e with
  | EvPublish i m delivered =>
      if delivered
      then with_subscribers (alter (deliver m) i (subscribers s)) s
      else s
  | EvSignal => _signal_handler s
  | EvStep fault => thread_step fault s
  end.

Definition run (tr : list event) (s : state) : state :=
  foldl (fun s e => step e s) s tr.

(* the frames the i-th sensor published during tr, oldest first *)
Definition produced (i : nat) (tr : list event) : list frame :=
  omap (fun e => match e with
                 | EvPublish j m _ => if decide (j = i) then Some m else None
                 | _ => None
                 end) tr.

Definition topic_of (i : nat) : string :=
  default "" (snd <$> sensor_ports !! i).

(* m carries the topic of the i-th sensor *)
Definition matches (i : nat) (m : frame) : Prop :=
  String.prefix (topic_of i) m = true.

#[export] Instance matches_dec i m : Decision (matches i m) :=
  decide (String.prefix (topic_of i) m = true).

(* what a downstream subscriber filtered to the i-th topic sees *)
Definition downstream (i : nat) (s : state) : list frame :=
  filter (matches i) (tx (publisher s)).

Definition finished (s : state) : bool :=
  match at_pc s with Returned | Raised _ => true | _ => false end.

(* the polls the thread starts while tr runs from s *)
Fixpoint polls (tr : list event) (s : state) : nat :=
  match tr with
  | [] => 0
  | e :: tr' =>
      (match e, at_pc s with EvStep _, AtPoll => 1 | _, _ => 0 end)
      + polls tr' (step e s)
  end.

(* the statements the thread executes while tr runs *)
Definition is_step (e : event) : bool :=
  match e with EvStep _ => true | _ => false end.

Definition steps_in (tr : list event) : nat :=
  length (filter (fun e => is_step e = true) tr).

(** *** Invariants of the loop *)

(* frames of the i-th subscription waiting to be read *)
Definition queued (i : nat) (s : state) : list frame :=
  default [] (rx <$> subscribers s !! i).

(* the frame held in the variable [message], when it came from the i-th
   subscription *)
Definition inflight (i : nat) (s : state) : list frame :=
  match at_pc s with
  | AtSend k _ m => if decide (k = i) then [m] else []
  | _ => []
  end.

(* the frames of the i-th topic from the downstream end back to the
   subscription queue *)
Definition chain (i : nat) (s : state) : list frame :=
  (downstream i s ++ inflight i s ++ queued i s)%list.

Record wf (s : state) : Prop := mkWf {
  wf_topics : subscription <$> subscribers s = snd <$> sensor_ports;
  wf_rx : forall k sub, subscribers s !! k = Some sub ->
            Forall (matches k) (rx sub);
  wf_send : forall k socks m, at_pc s = AtSend k socks m ->
              matches k m /\ k < length sensor_ports;
  wf_for : forall k socks j sub, at_pc s = AtFor k socks -> k <= j ->
             socks !! j = Some true -> subscribers s !! j = Some sub ->
             rx sub <> [];
  wf_for_send : forall k socks m j sub, at_pc s = AtSend k socks m -> k < j ->
             socks !! j = Some true -> subscribers s !! j = Some sub ->
             rx sub <> [];
  wf_tx : Forall (fun m => exists i, i < length sensor_ports /\ matches i m)
                 (tx (publisher s))
}.

(** *** Measures used to state the properties of the loop *)

(* the subscriptions that a poll reports ready *)
Definition ready_count (s : state) : nat :=
  sum_list ((fun sub => if pollin sub then 1 else 0) <$> subscribers s).

(* one pass of the loop body, from the poll to the next test of _running,
   with nothing else happening in between *)
Definition iteration (s : state) : list event :=
  replicate (2 + length (subscribers s) + ready_count s) (EvStep None).

(* an upper bound on the statements left once _running is False *)
Definition rank (s : state) : nat :=
  match at_pc s with
  | Returned | Raised _ => 0
  | AtFinally _ => 1
  | AtWhile => 2
  | AtFor k _ => 3 + 2 * (length (subscribers s) - k)
  | AtSend k _ _ => 2 + 2 * (length (subscribers s) - k)
  | AtPoll => 4 + 2 * length (subscribers s)
  end.

(* the next statement is a call into the transport that can raise *)
Definition calls_transport (s : state) : bool :=
  match at_pc s with
  | AtPoll | AtSend _ _ _ => true
  | AtFor k socks =>
      match subscribers s !! k with
      | Some _ => default false (socks !! k)
      | None => false
      end
  | _ => false
  end.

(* every socket closed and the context terminated *)
Definition all_closed (s : state) : Prop :=
  Forall (fun sub => sub_closed sub = true) (subscribers s) /\
  pub_closed (publisher s) = true /\
  context_terminated s = true.

Definition is_signal (e : event) : bool :=
  match e with EvSignal => true | _ => false end.

Definition signals_in (tr : list event) : nat :=
  length (filter (fun e => is_signal e = true) tr).

(* the next statement is the finally block *)
Definition terminating (s : state) : bool :=
  match at_pc s with AtFinally _ => true | _ => false end.

(* the thread executes its finally block while tr runs from s *)
Fixpoint terminates_in (tr : list event) (s : state) : bool :=
  match tr with
  | [] => false
  | e :: tr' => (is_step e && terminating s) || terminates_in tr' (step e s)
  end.

(* An upper bound, in milliseconds, on the time the thread spends waiting
   while tr runs from s; None when some wait has no bound.  A statement is
   under way from the end of the statement before it, so the signals that
   arrive in between may interrupt its poll: [k] counts the signals since
   the thread's last statement, or since s. *)
Fixpoint waited_from (k : nat) (tr : list event) (s : state) : option Z :=
  match tr with
  | [] => Some 0%Z
  | e :: tr' =>
      if is_step e
      then a ← wait_ms (next_wait k s);
           b ← waited_from 0 tr' (step e s);
           Some (a + b)%Z
      else waited_from (if is_signal e then S k else k) tr' (step e s)
  end.

Definition waited_ms (tr : list event) (s : state) : option Z :=
  waited_from 0 tr s.

End Broker.

(** ** src/pc1/broker_threaded.py

    The threads are [_subscriber_worker], one per entry of sensor_ports, and
    [_collector_worker]. Every worker owns a SUB socket and a PUSH socket
    connected to inproc://broker_pipe; the collector owns the PULL socket
    bound there and the PUB socket. A PUSH socket is described by its pipe:
    the frames pushed into it that the PULL side has not taken yet. The PULL
    socket reads from the pipes of all connected PUSH sockets and takes the
    frames of one pipe in the order they were pushed; pushing into a pipe
    does not wait.

    run_broker_threaded, which starts the threads and joins them, is not
    modelled: the properties below concern the two thread functions and the
    signal handler. (As written it reads _running before its
    [global _running] statement, which Python rejects when it compiles the
    module.) *)
Module BrokerThreaded.
Import Zmq.

Inductive message :=
| MsgShutdownSignal
    (* "Shutdown signal received, stopping threaded broker..." *)
| MsgForwarded (thread_name : string) (count : nat)
    (* "[%s] Forwarded message #%d" *)
| MsgWorkerError (thread_name : string) (e : exn)
    (* "[%s] ZMQ error: %s" *)
| MsgWorkerShuttingDown (thread_name : string) (count : nat)
    (* "[%s] Shutting down. Messages forwarded: %d" *)
| MsgForward (n : nat) (topic : string) (size : nat)
    (* "[FORWARD #%d] topic=%s | size=%d bytes" *)
| MsgCollectorError (e : exn)
    (* "[Collector] ZMQ error: %s" *)
| MsgCollectorShuttingDown (total : nat).
    (* "[Collector] Shutting down. Total events: %d" *)

Record push_socket := mkPush {
  pipe : list frame;
  push_closed : bool
}.

(* Where a thread stands; both thread functions have the same shape. *)
Inductive pc :=
| AtWhile                           (* while _running: *)
| AtPoll                            (* if sub.poll(timeout=1000): / if pull.poll(timeout=1000): *)
| AtRecv                            (* message = sub.recv_string() / pull.recv_string() *)
| AtSend (message : frame)          (* push.send_string(message) / pub.send_string(message) *)
| AtExcept (e : exn)                (* except zmq.ZMQError as e: if _running: ... *)
| AtFinally (pending : option exn)  (* finally: *)
| Returned
| Raised (e : exn).

Record worker := mkWorker {
  thread_name : string;
  sub : sub_socket;
  push : push_socket;
  count : nat;
  w_pc : pc
}.

Record collector_thread := mkCollector {
  pull_closed : bool;
  pub : pub_socket;
  event_count : nat;
  c_pc : pc
}.

Record state := mkState {
  _running : bool;
  workers : list worker;
  collector : collector_thread;
  log : list (level * message)
}.

(* def _signal_handler(sig, frame) *)
Definition _signal_handler (s : state) : state :=
  mkState false (workers s) (collector s)
          (log s ++ [(INFO, MsgShutdownSignal)]).

(* sensor_ports: (configured port, topic, thread name) *)
Definition sensor_ports : list (string * string * string) :=
  [("sensor_camera_pub", "camara", "Thread-Camera");
   ("sensor_inductive_pub", "espira", "Thread-Inductive");
   ("sensor_gps_pub", "gps", "Thread-GPS")].

(* Every thread has created its sockets and is about to enter its loop. *)
Definition initial : state :=
  mkState true
    ((fun ptn => mkWorker ptn.2 (connect_sub ptn.1.2) (mkPush [] false) 0 AtWhile)
       <$> sensor_ports)
    (mkCollector false bind_pub 0 AtWhile)
    [].

Definition w_goto (p : pc) (w : worker) : worker :=
  mkWorker (thread_name w) (sub w) (push w) (count w) p.

Definition c_goto (p : pc) (c : collector_thread) : collector_thread :=
  mkCollector (pull_closed c) (pub c) (event_count c) p.

(* An exception raised inside a try block: ZMQError goes to the handler,
   anything else is pending while the finally block runs. *)
Definition raise (e : exn) : pc :=
  match e with
  | ZMQError _ => AtExcept e
  | _ => AtFinally (Some e)
  end.

Definition leave (pending : option exn) : pc :=
  match pending with None => Returned | Some e => Raised e end.

(* One statement of _subscriber_worker. [running] is the value of the
   global _running when the statement reads it; the second component is
   what the statement logs. *)
Definition worker_step (running : bool) (fault : option exn) (w : worker)
    : worker * list (level * message) :=
  match w_pc w with
  | AtWhile =>
      (w_goto (if running then AtPoll else AtFinally None) w, [])
  | AtPoll =>
      match fault with
      | Some e => (w_goto (raise e) w, [])
      | None => (w_goto (if pollin (sub w) then AtRecv else AtWhile) w, [])
      end
  | AtRecv =>
      match fault with
      | Some e => (w_goto (raise e) w, [])
      | None =>
          match rx (sub w) with
          | [] => (w, [])   (* nothing queued: the call does not return *)
          | m :: _ =>
              (mkWorker (thread_name w) (pop (sub w)) (push w) (count w)
                        (AtSend m), [])
          end
      end
  | AtSend m =>
      match fault with
      | Some e => (w_goto (raise e) w, [])
      | None =>
          (mkWorker (thread_name w) (sub w)
                    (mkPush (pipe (push w) ++ [m]) (push_closed (push w)))
                    (count w + 1) AtWhile,
           [(DEBUG, MsgForwarded (thread_name w) (count w + 1))])
      end
  | AtExcept e =>
      (w_goto (AtFinally None) w,
       if running then [(ERROR, MsgWorkerError (thread_name w) e)] else [])
  | AtFinally pending =>
      (mkWorker (thread_name w) (close_sub (sub w))
                (mkPush (pipe (push w)) true) (count w) (leave pending),
       [(INFO, MsgWorkerShuttingDown (thread_name w) (count w))])
  | Returned | Raised _ => (w, [])
  end.

Definition has_frames (w : worker) : bool :=
  match pipe (push w) with [] => false | _ :: _ => true end.

(* readiness of the PULL socket *)
Definition pull_ready (ws : list worker) : bool := existsb has_frames ws.

(* The pipe the PULL socket reads next: the one the transport prefers when
   it holds a frame, otherwise the first pipe that holds one. *)
Definition pick (choice : nat) (ws : list worker) : option nat :=
  if default false (has_frames <$> ws !! choice) then Some choice
  else fst <$> list_find (fun w => has_frames w = true) ws.

Definition take (w : worker) : worker :=
  mkWorker (thread_name w) (sub w)
           (mkPush (tail (pipe (push w))) (push_closed (push w)))
           (count w) (w_pc w).

(* One statement of _collector_worker; it may take a frame out of a pipe,
   so it returns the workers too. *)
Definition collector_step (running : bool) (choice : nat) (fault : option exn)
    (ws : list worker) (c : collector_thread)
    : list worker * collector_thread * list (level * message) :=
  match c_pc c with
  | AtWhile =>
      (ws, c_goto (if running then AtPoll else AtFinally None) c, [])
  | AtPoll =>
      match fault with
      | Some e => (ws, c_goto (raise e) c, [])
      | None => (ws, c_goto (if pull_ready ws then AtRecv else AtWhile) c, [])
      end
  | AtRecv =>
      match fault with
      | Some e => (ws, c_goto (raise e) c, [])
      | None =>
          match pick choice ws with
          | None => (ws, c, [])   (* nothing queued: the call does not return *)
          | Some j =>
              match head (default [] ((fun w => pipe (push w)) <$> ws !! j)) with
              | None => (ws, c, [])
              | Some m => (alter take j ws, c_goto (AtSend m) c, [])
              end
          end
      end
  | AtSend m =>
      match fault with
      | Some e => (ws, c_goto (raise e) c, [])
      | None =>
          (ws,
           mkCollector (pull_closed c) (send m (pub c)) (event_count c + 1)
                       AtWhile,
           [(INFO, MsgForward (event_count c + 1) (first_token m)
                              (String.length m))])
      end
  | AtExcept e =>
      (ws, c_goto (AtFinally None) c,
       if running then [(ERROR, MsgCollectorError e)] else [])
  | AtFinally pending =>
      (ws,
       mkCollector true (close_pub (pub c)) (event_count c) (leave pending),
       [(INFO, MsgCollectorShuttingDown (event_count c))])
  | Returned | Raised _ => (ws, c, [])
  end.

(* The wait the next statement of a thread performs, if it waits;
   [restarts] is the number of signals that interrupt it, [hwm] the number
   of frames the pipe from a PUSH socket to the PULL socket can hold.
   worker_step describes push.send_string as it returns; here is how long
   that can take. *)
Definition worker_wait (restarts hwm : nat) (c : collector_thread) (w : worker)
    : option wait :=
  match w_pc w with
  | AtPoll => Some (poll_wait (Some 1000%Z) restarts)
  | AtRecv => match rx (sub w) with [] => Some Unbounded | _ :: _ => None end
  | AtSend _ =>
      if push_blocks hwm (pull_closed c) (length (pipe (push w)))
      then Some Unbounded else None
  | _ => None
  end.

Definition collector_wait (restarts : nat) (ws : list worker)
    (c : collector_thread) : option wait :=
  match c_pc c with
  | AtPoll => Some (poll_wait (Some 1000%Z) restarts)
  | AtRecv => if pull_ready ws then None else Some Unbounded
  | _ => None
  end.

Inductive event :=
| EvPublish (i : nat) (m : frame) (delivered : bool)
    (* the i-th sensor publishes m; the transport delivers or drops it *)
| EvSignal
    (* SIGINT or SIGTERM arrives *)
| EvWorker (i : nat) (fault : option exn)
    (* the i-th worker executes its next statement *)
| EvCollector (choice : nat) (fault : option exn).
    (* the collector executes its next statement *)

Definition deliver_to (m : frame) (w : worker) : worker :=
  mkWorker (thread_name w) (deliver m (sub w)) (push w) (count w) (w_pc w).

Definition step (e : event) (s : state) : state :=
  match e with
  | EvPublish i m delivered =>
      if delivered
      then mkState (_running s) (alter (deliver_to m) i (workers s))
                   (collector s) (log s)
      else s
  | EvSignal => _signal_handler s
  | EvWorker i fault =>
      match workers s !! i with
      | None => s
      | Some w =>
          let '(w', out) := worker_step (_running s) fault w in
          mkState (_running s) (<[i := w']> (workers s)) (collector s)
                  (log s ++ out)
      end
  | EvCollector choice fault =>
      let '(ws, c, out) :=
        collector_step (_running s) choice fault (workers s) (collector s) in
      mkState (_running s) ws c (log s ++ out)
  end.

Definition run (tr : list event) (s : state) : state :=
  foldl (fun s e => step e s) s tr.

Definition produced (i : nat) (tr : list event) : list frame :=
  omap (fun e => match e with
                 | EvPublish j m _ => if decide (j = i) then Some m else None
                 | _ => None
                 end) tr.

Definition topic_of (i : nat) : string :=
  default "" ((fun ptn => ptn.1.2) <$> sensor_ports !! i).

Definition matches (i : nat) (m : frame) : Prop :=
  String.prefix (topic_of i) m = true.

#[export] Instance matches_dec i m : Decision (matches i m) :=
  decide (String.prefix (topic_of i) m = true).

(* what a downstream subscriber filtered to the i-th topic sees *)
Definition downstream (i : nat) (s : state) : list frame :=
  filter (matches i) (tx (pub (collector s))).

Definition finished (p : pc) : bool :=
  match p with Returned | Raised _ => true | _ => false end.

Definition in_loop (p : pc) : bool :=
  match p with AtWhile | AtPoll | AtRecv | AtSend _ => true | _ => false end.

(** *** Invariants of the threads *)

(* the frame held in the variable [message] *)
Definition held (p : pc) : list frame :=
  match p with AtSend m => [m] | _ => [] end.

(* the frames a worker has between its subscription and the collector *)
Definition w_chain (w : worker) : list frame :=
  (pipe (push w) ++ held (w_pc w) ++ rx (sub w))%list.

(* the frames of the i-th topic from the downstream end back to the
   subscription queue of the i-th worker *)
Definition chain (i : nat) (s : state) : list frame :=
  (downstream i s ++ filter (matches i) (held (c_pc (collector s)))
     ++ default [] (w_chain <$> workers s !! i))%list.

Definition known (m : frame) : Prop :=
  exists i, i < length sensor_ports /\ matches i m.

Record wf_worker (i : nat) (w : worker) : Prop := mkWfWorker {
  wfw_topic : subscription (sub w) = topic_of i;
  wfw_chain : Forall (matches i) (w_chain w);
  wfw_recv : w_pc w = AtRecv -> rx (sub w) <> [];
  wfw_open : finished (w_pc w) = false -> sub_closed (sub w) = false
}.

Record wf (s : state) : Prop := mkWf {
  wf_len : length (workers s) = length sensor_ports;
  wf_workers : forall i w, workers s !! i = Some w -> wf_worker i w;
  wf_held : Forall known (held (c_pc (collector s)));
  wf_tx : Forall known (tx (pub (collector s)));
  wf_recv : c_pc (collector s) = AtRecv -> pull_ready (workers s) = true
}.

(** *** Measures used to state the properties of the threads *)

(* an upper bound on the statements a thread has left once _running is
   False *)
Definition rank (p : pc) : nat :=
  match p with
  | Returned | Raised _ => 0
  | AtFinally _ => 1
  | AtExcept _ | AtWhile => 2
  | AtSend _ => 3
  | AtRecv => 4
  | AtPoll => 5
  end.

(* the statement at p is a call into the transport that can raise *)
Definition calls_transport (p : pc) : bool :=
  match p with AtPoll | AtRecv | AtSend _ => true | _ => false end.

Definition worker_pc (i : nat) (s : state) : option pc :=
  w_pc <$> workers s !! i.

Definition is_worker_step (i : nat) (e : event) : bool :=
  match e with EvWorker j _ => bool_decide (j = i) | _ => false end.

Definition is_collector_step (e : event) : bool :=
  match e with EvCollector _ _ => true | _ => false end.

Definition at_poll (p : option pc) : bool :=
  match p with Some AtPoll => true | _ => false end.

(* the polls the i-th worker starts while tr runs from s *)
Fixpoint worker_polls (i : nat) (tr : list event) (s : state) : nat :=
  match tr with
  | [] => 0
  | e :: tr' =>
      (if is_worker_step i e && at_poll (worker_pc i s) then 1 else 0)
      + worker_polls i tr' (step e s)
  end.

(* the polls the collector starts while tr runs from s *)
Fixpoint collector_polls (tr : list event) (s : state) : nat :=
  match tr with
  | [] => 0
  | e :: tr' =>
      (if is_collector_step e && at_poll (Some (c_pc (collector s)))
       then 1 else 0)
      + collector_polls tr' (step e s)
  end.

Definition worker_steps_in (i : nat) (tr : list event) : nat :=
  length (filter (fun e => is_worker_step i e = true) tr).

Definition collector_steps_in (tr : list event) : nat :=
  length (filter (fun e => is_collector_step e = true) tr).

(* n statements of a worker, or of the collector reading pipe [choice]
   first, while _running stays True and no call raises *)
Fixpoint w_run (n : nat) (w : worker) : worker :=
  match n with
  | 0 => w
  | S n' => w_run n' (worker_step true None w).1
  end.

Fixpoint c_run (choice n : nat) (wc : list worker * collector_thread)
    : list worker * collector_thread :=
  match n with
  | 0 => wc
  | S n' => c_run choice n' (collector_step true choice None wc.1 wc.2).1
  end.

(* tr consists of statements of the j-th worker and of the collector
   reading pipe j first, none of which raises *)
Definition only_threads (j : nat) (tr : list event) : Prop :=
  Forall (fun e => e = EvWorker j None \/ e = EvCollector j None) tr.

Definition is_signal (e : event) : bool :=
  match e with EvSignal => true | _ => false end.

Definition signals_in (tr : list event) : nat :=
  length (filter (fun e => is_signal e = true) tr).

(* push.send_string is the next statement of the i-th worker and has to
   wait *)
Definition send_waits (hwm i : nat) (s : state) : bool :=
  match workers s !! i with
  | Some w =>
      match w_pc w with
      | AtSend _ =>
          push_blocks hwm (pull_closed (collector s)) (length (pipe (push w)))
      | _ => false
      end
  | None => false
  end.

(* while tr runs from s the i-th worker calls push.send_string at a moment
   when the call has to wait *)
Fixpoint worker_send_waits (hwm i : nat) (tr : list event) (s : state) : bool :=
  match tr with
  | [] => false
  | e :: tr' =>
      (is_worker_step i e && send_waits hwm i s)
      || worker_send_waits hwm i tr' (step e s)
  end.

(* Upper bounds, in milliseconds, on the time the i-th worker and the
   collector spend waiting while tr runs from s; None when some wait has no
   bound.  [k] counts the signals since the thread's last statement, or
   since s: they may interrupt the poll of its next statement. *)
Fixpoint worker_waited_from (hwm i k : nat) (tr : list event) (s : state)
    : option Z :=
  match tr with
  | [] => Some 0%Z
  | e :: tr' =>
      if is_worker_step i e
      then a ← wait_ms (workers s !! i ≫= worker_wait k hwm (collector s));
           b ← worker_waited_from hwm i 0 tr' (step e s);
           Some (a + b)%Z
      else worker_waited_from hwm i (if is_signal e then S k else k) tr'
                              (step e s)
  end.

Definition worker_waited_ms (hwm i : nat) (tr : list event) (s : state)
    : option Z :=
  worker_waited_from hwm i 0 tr s.

Fixpoint collector_waited_from (k : nat) (tr : list event) (s : state)
    : option Z :=
  match tr with
  | [] => Some 0%Z
  | e :: tr' =>
      if is_collector_step e
      then a ← wait_ms (collector_wait k (workers s) (collector s));
           b ← collector_waited_from 0 tr' (step e s);
           Some (a + b)%Z
      else collector_waited_from (if is_signal e then S k else k) tr' (step e s)
  end.

Definition collector_waited_ms (tr : list event) (s : state) : option Z :=
  collector_waited_from 0 tr s.

End BrokerThreaded.

(** ** src/pc1/broker_threaded.py: the set-up of a worker thread

    _subscriber_worker creates, connects and subscribes its sockets before
    it enters its try block (lines 76-88): no handler and no finally block
    encloses these statements.  [BrokerThreaded.initial] is the relay once
    every worker has executed them; here they are executed one by one, next
    to the relay. *)
Module WorkerSetup.
Import Zmq BrokerThreaded.

Inductive setup_pc :=
| AtSubSocket       (* sub = context.socket(zmq.SUB) *)
| AtSubConnect      (* addr = f"tcp://127.0.0.1:{port}"; sub.connect(addr) *)
| AtSubscribe       (* sub.setsockopt_string(zmq.SUBSCRIBE, topic) *)
| AtPushSocket      (* push = context.socket(zmq.PUSH) *)
| AtPushConnect     (* push.connect(INPROC_ADDR) *)
| AtLogConnected.   (* logger.info("[%s] SUB connected to %s (topic: %s)", ...);
                       count = 0 *)

(* Where a worker thread stands from the call of _subscriber_worker on. *)
Inductive thread :=
| SettingUp (p : setup_pc)        (* about to execute statement p *)
| InLoop                          (* has reached try: and runs as the worker
                                     of the relay *)
| Left (p : setup_pc) (e : exn).  (* statement p raised e; nothing encloses
                                     it, so e has left _subscriber_worker *)

Inductive socket := SUB | PUSH.

(* the sockets the statements before p have created; none of them closes
   one *)
Definition created (p : setup_pc) : list socket :=
  match p with
  | AtSubSocket => []
  | AtSubConnect | AtSubscribe | AtPushSocket => [SUB]
  | AtPushConnect | AtLogConnected => [SUB; PUSH]
  end.

(* the SUB socket is connected and subscribed before p *)
Definition subscribed (p : setup_pc) : bool :=
  match p with
  | AtPushSocket | AtPushConnect | AtLogConnected => true
  | _ => false
  end.

(* the statement at p is a call into the transport that can raise *)
Definition calls_transport (p : setup_pc) : bool :=
  match p with AtLogConnected => false | _ => true end.

Inductive setup_message :=
| MsgSubConnected (thread_name port topic : string).
    (* "[%s] SUB connected to %s (topic: %s)", the address being that of
       the configured port *)

(* One statement of the set-up of the worker started with the entry ptn of
   sensor_ports; the second component is what the statement logs. [fault]
   is the exception the statement raises if it is a call into the transport
   and raises. *)
Definition setup_step (ptn : string * string * string) (fault : option exn)
    (p : setup_pc) : thread * list (level * setup_message) :=
  match p with
  | AtLogConnected =>
      (InLoop, [(INFO, MsgSubConnected ptn.2 ptn.1.1 ptn.1.2)])
  | _ =>
      match fault with
      | Some e => (Left p e, [])
      | None =>
          (SettingUp (match p with
                      | AtSubSocket => AtSubConnect
                      | AtSubConnect => AtSubscribe
                      | AtSubscribe => AtPushSocket
                      | AtPushSocket => AtPushConnect
                      | _ => AtLogConnected
                      end), [])
      end
  end.

(* The worker threads next to the relay.  The i-th worker of [relay] is the
   record of the i-th thread from try: on; until then it holds the sockets
   as the set-up leaves them, and no statement of worker_step is executed
   on it. *)
Record system := mkSystem {
  threads : list thread;
  setup_log : list (level * setup_message);
  relay : state
}.

Inductive sys_event :=
| EvSetup (i : nat) (fault : option exn)
    (* the i-th worker executes the next statement of its set-up *)
| EvRelay (e : event).
    (* an event of the relay *)

Definition with_relay (s : state) (sy : system) : system :=
  mkSystem (threads sy) (setup_log sy) s.

(* An event of the relay takes place: a worker executes a statement of its
   loop only when it has entered it, and a frame reaches a subscription
   only when that is in place. *)
Definition takes_place (ths : list thread) (e : event) : bool :=
  match e with
  | EvWorker i _ =>
      match ths !! i with Some InLoop => true | _ => false end
  | EvPublish i _ _ =>
      match ths !! i with
      | Some InLoop => true
      | Some (SettingUp p) | Some (Left p _) => subscribed p
      | None => false
      end
  | _ => true
  end.

Definition sys_step (e : sys_event) (sy : system) : system :=
  match e with
  | EvSetup i fault =>
      match threads sy !! i, sensor_ports !! i with
      | Some (SettingUp p), Some ptn =>
          let '(t, out) := setup_step ptn fault p in
          mkSystem (<[i := t]> (threads sy)) (setup_log sy ++ out) (relay sy)
      | _, _ => sy
      end
  | EvRelay ev =>
      if takes_place (threads sy) ev
      then with_relay (step ev (relay sy)) sy
      else sy
  end.

Definition sys_run (tr : list sys_event) (sy : system) : system :=
  foldl (fun sy e => sys_step e sy) sy tr.

(* run_broker_threaded has started the collector, which is about to enter
   its loop, and the three workers, which are about to execute their first
   statement *)
Definition sys_initial : system :=
  mkSystem ((fun _ => SettingUp AtSubSocket) <$> sensor_ports) [] initial.

(* the sockets the i-th worker thread has created and has not closed
   (a socket nobody closes is left to the garbage collector) *)
Definition open_sockets (i : nat) (sy : system) : list socket :=
  match threads sy !! i with
  | Some (SettingUp p) | Some (Left p _) => created p
  | Some InLoop =>
      match workers (relay sy) !! i with
      | Some w =>
          ((if sub_closed (sub w) then [] else [SUB])
             ++ (if push_closed (push w) then [] else [PUSH]))%list
      | None => []
      end
  | None => []
  end.

(* every worker executes its set-up, one after the other, and no statement
   raises *)
Definition set_up_all : list sys_event :=
  mjoin ((fun i => replicate 6 (EvSetup i None)) <$> seq 0 (length sensor_ports)).

End WorkerSetup.

(** ** Concrete runs used as examples *)
Module Scenarios.

(* two gps frames and a camera frame in between, relayed by two passes of
   the single-threaded loop *)
Definition order_trace : list Broker.event :=
  [Broker.EvPublish 2 "gps 1" true; Broker.EvPublish 0 "camara 1" true;
   Broker.EvPublish 2 "gps 2" true]
  ++ replicate 16 (Broker.EvStep None).

(* the same frames through worker 2, worker 0 and the collector *)
Definition mt_order_trace : list BrokerThreaded.event :=
  [BrokerThreaded.EvPublish 2 "gps 1" true;
   BrokerThreaded.EvPublish 0 "camara 1" true;
   BrokerThreaded.EvPublish 2 "gps 2" true]
  ++ replicate 8 (BrokerThreaded.EvWorker 2 None)
  ++ replicate 4 (BrokerThreaded.EvWorker 0 None)
  ++ replicate 4 (BrokerThreaded.EvCollector 0 None)
  ++ replicate 8 (BrokerThreaded.EvCollector 2 None).

(* two camera frames are queued when the loop polls *)
Definition busy_source : Broker.state :=
  Broker.run [Broker.EvPublish 0 "camara a" true; Broker.EvPublish 0 "camara b" true;
              Broker.EvStep None] Broker.initial.

(* the signal arrives between the test of _running and the poll *)
Definition stopping : Broker.state :=
  Broker.run [Broker.EvStep None; Broker.EvSignal] Broker.initial.

Definition mt_stopping : BrokerThreaded.state :=
  BrokerThreaded.run [BrokerThreaded.EvWorker 1 None; BrokerThreaded.EvCollector 0 None;
                      BrokerThreaded.EvSignal] BrokerThreaded.initial.

End Scenarios.

(** ** src/common/models.py: the other sensor events and the dictionary view *)
Module ModelsMore.
Import Constants Py Models.

(* src/common/constants.py *)
Definition SENSOR_TYPE_CAMERA : string := "camara".
Definition SENSOR_TYPE_INDUCTIVE : string := "espira_inductiva".

(* dataclasses.asdict(obj), the dictionary to_json serialises: one entry per
   field, in the fields' order (the values here hold no nested object) *)
Definition GPSEvent_asdict (e : GPSEvent) : gmap string value :=
  {[ "sensor_id" := sensor_id e;
     "tipo_sensor" := tipo_sensor e;
     "interseccion" := interseccion e;
     "nivel_congestion" := nivel_congestion e;
     "velocidad_promedio" := velocidad_promedio e;
     "timestamp" := timestamp e ]}.

(* @dataclass class CameraEvent *)
Record CameraEvent := mkCameraEvent {
  cam_sensor_id : value;
  cam_tipo_sensor : value;
  cam_interseccion : value;
  volumen : value;
  cam_velocidad_promedio : value;
  cam_timestamp : value
}.

(* the generated constructor; there is no __post_init__ *)
Definition CameraEvent_init (now : string) (sensor_id : value)
    (tipo_sensor interseccion volumen velocidad_promedio
     timestamp : option value) : CameraEvent :=
  mkCameraEvent sensor_id
                (default (VStr SENSOR_TYPE_CAMERA) tipo_sensor)
                (default (VStr "") interseccion)
                (default (VNum (Fin 0)) volumen)
                (default (VNum (Fin 0)) velocidad_promedio)
                (default (VStr now) timestamp).

(* CameraEvent.from_dict: a missing sensor_id is a TypeError (None) *)
Definition CameraEvent_from_dict (now : string) (data : gmap string value)
    : option CameraEvent :=
  sid ← data !! "sensor_id";
  Some (CameraEvent_init now sid
          (data !! "tipo_sensor") (data !! "interseccion")
          (data !! "volumen") (data !! "velocidad_promedio")
          (data !! "timestamp")).

Definition CameraEvent_asdict (e : CameraEvent) : gmap string value :=
  {[ "sensor_id" := cam_sensor_id e;
     "tipo_sensor" := cam_tipo_sensor e;
     "interseccion" := cam_interseccion e;
     "volumen" := volumen e;
     "velocidad_promedio" := cam_velocidad_promedio e;
     "timestamp" := cam_timestamp e ]}.

(* @dataclass class InductiveEvent *)
Record InductiveEvent := mkInductiveEvent {
  ind_sensor_id : value;
  ind_tipo_sensor : value;
  ind_interseccion : value;
  vehiculos_contados : value;
  intervalo_segundos : value;
  timestamp_inicio : value;
  timestamp_fin : value
}.

Definition InductiveEvent_init (now : string) (sensor_id : value)
    (tipo_sensor interseccion vehiculos_contados intervalo_segundos
     timestamp_inicio timestamp_fin : option value) : InductiveEvent :=
  mkInductiveEvent sensor_id
                   (default (VStr SENSOR_TYPE_INDUCTIVE) tipo_sensor)
                   (default (VStr "") interseccion)
                   (default (VNum (Fin 0)) vehiculos_contados)
                   (default (VNum (Fin 30)) intervalo_segundos)
                   (default (VStr now) timestamp_inicio)
                   (default (VStr "") timestamp_fin).

Definition InductiveEvent_from_dict (now : string) (data : gmap string value)
    : option InductiveEvent :=
  sid ← data !! "sensor_id";
  Some (InductiveEvent_init now sid
          (data !! "tipo_sensor") (data !! "interseccion")
          (data !! "vehiculos_contados") (data !! "intervalo_segundos")
          (data !! "timestamp_inicio") (data !! "timestamp_fin")).

Definition InductiveEvent_asdict (e : InductiveEvent) : gmap string value :=
  {[ "sensor_id" := ind_sensor_id e;
     "tipo_sensor" := ind_tipo_sensor e;
     "interseccion" := ind_interseccion e;
     "vehiculos_contados" := vehiculos_contados e;
     "intervalo_segundos" := intervalo_segundos e;
     "timestamp_inicio" := timestamp_inicio e;
     "timestamp_fin" := timestamp_fin e ]}.

(* how congested a level is: BAJA < NORMAL < ALTA *)
Definition severity (level : string) : nat :=
  if String.eqb level CONGESTION_ALTA then 2
  else if String.eqb level CONGESTION_NORMAL then 1
  else 0.

End ModelsMore.

(** ** src/pc1/broker.py: further measures of the loop *)
Module BrokerMore.
Import Zmq Broker.

(* the thread is inside the while loop *)
Definition looping (s : state) : bool :=
  match at_pc s with
  | AtWhile | AtPoll | AtFor _ _ | AtSend _ _ _ => true
  | _ => false
  end.

Definition is_forward (x : level * message) : bool :=
  match x.2 with MsgForward _ _ _ => true | _ => false end.

(* the "[FORWARD #n] ..." records of a log, in order *)
Definition forward_lines (l : list (level * message)) : list (level * message) :=
  filter (fun x => is_forward x = true) l.

(* the records the loop writes when it forwards these frames one after the
   other, starting with event_count = 0 *)
Definition lines_for (frames : list frame) : list (level * message) :=
  imap (fun k m => (INFO, MsgForward (S k) (first_token m) (String.length m)))
       frames.

(* no socket closed, the context alive *)
Definition all_open (s : state) : Prop :=
  Forall (fun sub => sub_closed sub = false) (subscribers s) /\
  pub_closed (publisher s) = false /\
  context_terminated s = false.

(* frames waiting in the subscription queues *)
Definition backlog (s : state) : nat :=
  sum_list ((fun sub => length (rx sub)) <$> subscribers s).

(* an upper bound on the statements left in the current pass of the loop
   body when no call raises *)
Definition to_go (s : state) : nat :=
  match at_pc s with
  | AtPoll => 2 + 2 * length (subscribers s)
  | AtFor k _ => 1 + 2 * (length (subscribers s) - k)
  | AtSend k _ _ => 2 * (length (subscribers s) - k)
  | _ => 0
  end.

(* the frames of the i-th sensor that the transport delivered during tr and
   that the i-th subscription accepts, oldest first *)
Definition accepted (i : nat) (tr : list event) : list frame :=
  omap (fun e => match e with
                 | EvPublish j m true =>
                     if decide (j = i /\ matches i m) then Some m else None
                 | _ => None
                 end) tr.

(* n statements of the thread with no fault and nothing else happening *)
Definition quiet (n : nat) : list event := replicate n (EvStep None).

End BrokerMore.

(** ** src/pc1/sensors/camera_sensor.py, inductive_sensor.py, gps_sensor.py

    The three sensor processes run the same loop; they differ in the topic
    they publish on and in the event they generate.  The loop is modelled
    once, over the topic and the generator; what [random] and the clock
    return is supplied by the environment with each statement. *)
Module Sensor.
Import Constants Zmq Py.

(* src/common/constants.py *)
Definition ALL_SENSOR_TOPICS : list string :=
  [TOPIC_CAMERA; TOPIC_INDUCTIVE; TOPIC_GPS].

Inductive exn :=
| KeyError (key : string)     (* sensor_def[key] with no such key *)
| ValueError                  (* time.sleep of a negative length or of NaN *)
| OverflowError               (* time.sleep of a length beyond the range of the clock *)
| TypeError                   (* raised while the event is built or serialised *)
| Transport (e : Zmq.exn).    (* raised by publisher.send_string *)

Inductive message :=
| MsgShutdownSignal           (* "Shutdown signal received, stopping sensor..." *)
| MsgStarted (sensor_ids : list value)
                              (* "... sensor process started | sensors=%s | ..." *)
| MsgEvent (sensor_id interseccion : value)
                              (* "[%s @ %s] ..." *)
| MsgInterrupted              (* "... sensor process interrupted." *)
| MsgShuttingDown.            (* "... sensor process shutting down." *)

(* one entry of the sensors list *)
Definition sensor_def := gmap string value.

Inductive pc :=
| AtWhile                               (* while _running: *)
| AtFor (k : nat)                       (* for sensor_def in sensors: if not _running: break *)
| AtGenerate (k : nat) (sd : sensor_def)
                                        (* event = generate_..._event(...); message = ... *)
| AtSend (k : nat) (sensor_id interseccion : value) (message : frame)
                                        (* publisher.send_string(message); logger.info(...) *)
| AtSleep (k : nat)                     (* time.sleep(per_sensor_delay) *)
| AtFinally (pending : option exn)      (* finally: *)
| Returned
| Raised (e : exn).

Record state := mkState {
  _running : bool;
  publisher : pub_socket;
  context_terminated : bool;
  sleeps : nat;               (* completed calls of time.sleep(per_sensor_delay) *)
  at_pc : pc;
  log : list message
}.

Definition with_publisher (p : pub_socket) (s : state) : state :=
  mkState (_running s) p (context_terminated s) (sleeps s) (at_pc s) (log s).
Definition with_sleeps (n : nat) (s : state) : state :=
  mkState (_running s) (publisher s) (context_terminated s) n (at_pc s) (log s).
Definition goto (p : pc) (s : state) : state :=
  mkState (_running s) (publisher s) (context_terminated s) (sleeps s) p (log s).
Definition logger (m : message) (s : state) : state :=
  mkState (_running s) (publisher s) (context_terminated s) (sleeps s) (at_pc s)
          (log s ++ [m]).

(* def _signal_handler(sig, frame) *)
Definition _signal_handler (s : state) : state :=
  mkState false (publisher s) (context_terminated s) (sleeps s) (at_pc s)
          (log s ++ [MsgShutdownSignal]).

(* An exception raised inside the try block: only KeyboardInterrupt has a
   handler; anything else is pending while the finally block runs. *)
Definition raise (e : exn) (s : state) : state :=
  match e with
  | Transport KeyboardInterrupt => goto (AtFinally None) (logger MsgInterrupted s)
  | _ => goto (AtFinally (Some e)) s
  end.

(* float(n) for the length of a list *)
Definition float_of_nat (n : nat) : PrimFloat.float :=
  PrimFloat.of_uint63 (Uint63.of_Z (Z.of_nat n)).

Section Loop.
(* TOPIC_CAMERA, TOPIC_INDUCTIVE or TOPIC_GPS *)
Variable TOPIC : string.
(* what random and the clock return for one event *)
Variable draw : Type.
(* generate_..._event(sensor_id, intersection).to_json(); None when it raises *)
Variable event_json : value -> value -> draw -> option string.
(* time.sleep(secs) for a float: the exception it raises, if it raises.
   CPython raises ValueError for a negative length and for NaN and
   OverflowError for a length beyond the range of its clock; it accepts
   -0.0. *)
Variable time_sleep : PrimFloat.float -> option exn.
(* the arguments of run_..._sensor; interval_sec is a float, as
   parse_args makes it *)
Variable sensors : list sensor_def.
Variable interval_sec : PrimFloat.float.

(* per_sensor_delay = interval_sec / max(len(sensors), 1): the division of
   floats, rounded to the nearest float *)
Definition per_sensor_delay : PrimFloat.float :=
  PrimFloat.div interval_sec (float_of_nat (Nat.max (length sensors) 1)).

(* sensor_ids = [s["sensor_id"] for s in sensors]; None is the KeyError *)
Definition sensor_ids : option (list value) :=
  mapM (fun sd : sensor_def => sd !! "sensor_id") sensors.

(* The state on entering the try block.  The list of sensor ids is built
   before it: when that raises, the function is left with the publisher
   bound and nothing to close it. *)
Definition start : state :=
  match sensor_ids with
  | Some ids => mkState true bind_pub false 0 AtWhile [MsgStarted ids]
  | None => mkState true bind_pub false 0 (Raised (KeyError "sensor_id")) []
  end.

(* the frame built for a sensor from one draw *)
Definition frame_for (sd : sensor_def) (d : draw) : option frame :=
  sid ← sd !! "sensor_id";
  inter ← sd !! "interseccion";
  j ← event_json sid inter d;
  Some (TOPIC ++ " " ++ j).

(* One statement of the thread. [d] is what random and the clock return
   if the statement asks them, [fault] the exception send_string raises if
   the statement calls it and it raises. *)
Definition thread_step (d : draw) (fault : option Zmq.exn) (s : state) : state :=
  match at_pc s with
  | AtWhile =>
      if _running s then goto (AtFor 0) s else goto (AtFinally None) s
  | AtFor k =>
      match sensors !! k with
      | None => goto AtWhile s
      | Some sd => if _running s then goto (AtGenerate k sd) s else goto AtWhile s
      end
  | AtGenerate k sd =>
      match sd !! "sensor_id" with
      | None => raise (KeyError "sensor_id") s
      | Some sid =>
          match sd !! "interseccion" with
          | None => raise (KeyError "interseccion") s
          | Some inter =>
              match event_json sid inter d with
              | None => raise TypeError s
              | Some j => goto (AtSend k sid inter (TOPIC ++ " " ++ j)) s
              end
          end
      end
  | AtSend k sid inter m =>
      match fault with
      | Some e => raise (Transport e) s
      | None =>
          goto (AtSleep k)
               (logger (MsgEvent sid inter)
                       (with_publisher (send m (publisher s)) s))
      end
  | AtSleep k =>
      match time_sleep per_sensor_delay with
      | None => goto (AtFor (S k)) (with_sleeps (S (sleeps s)) s)
      | Some e => raise e s
      end
  | AtFinally pending =>
      mkState (_running s) (close_pub (publisher s)) true (sleeps s)
              (match pending with None => Returned | Some e => Raised e end)
              (log s ++ [MsgShuttingDown])
  | Returned | Raised _ => s
  end.

(* What happens around the thread. *)
Inductive event :=
| EvSignal                                   (* SIGINT or SIGTERM arrives *)
| EvStep (d : draw) (fault : option Zmq.exn). (* the thread executes its next statement *)

Definition step (e : event) (s : state) : state :=
  match e with
  | EvSignal => _signal_handler s
  | EvStep d fault => thread_step d fault s
  end.

Definition run (tr : list event) (s : state) : state :=
  foldl (fun s e => step e s) s tr.

(* statements executed one after the other with these draws, no signal
   and no fault *)
Definition undisturbed (ds : list draw) : list event :=
  (fun d => EvStep d None) <$> ds.

Definition is_step (e : event) : bool :=
  match e with EvStep _ _ => true | EvSignal => false end.

Definition steps_in (tr : list event) : nat :=
  length (filter (fun e => is_step e = true) tr).

End Loop.

Definition finished (s : state) : bool :=
  match at_pc s with Returned | Raised _ => true | _ => false end.

(* an upper bound on the statements left once _running is False *)
Definition rank (s : state) : nat :=
  match at_pc s with
  | Returned | Raised _ => 0
  | AtFinally _ => 1
  | AtWhile => 2
  | AtFor _ => 3
  | AtSleep _ => 4
  | AtSend _ _ _ _ => 5
  | AtGenerate _ _ => 6
  end.

(* the frames and the sleeps the statements of the current pass still
   perform when the loop is left at the next test of _running *)
Definition to_send (s : state) : nat :=
  match at_pc s with AtGenerate _ _ | AtSend _ _ _ _ => 1 | _ => 0 end.

Definition to_sleep (s : state) : nat :=
  match at_pc s with
  | AtGenerate _ _ | AtSend _ _ _ _ | AtSleep _ => 1
  | _ => 0
  end.

(* main(), single-sensor mode: the sensors list built from --sensor-id and
   --intersection *)
Definition single_sensor (sensor_id intersection : string) : list sensor_def :=
  [ {[ "sensor_id" := VStr sensor_id; "interseccion" := VStr intersection ]} ].

(* an entry with both keys *)
Definition usable (sd : sensor_def) : Prop :=
  is_Some (sd !! "sensor_id") /\ is_Some (sd !! "interseccion").

Arguments EvSignal {draw}.
Arguments EvStep {draw} _ _.
Arguments undisturbed {draw} _.
Arguments is_step {draw} _.
Arguments steps_in {draw} _.

End Sensor.

(** ** src/pc1/sensors/gps_sensor.py: the event generator *)
Module GpsSensor.
Import Constants Py Models ModelsMore.

Section WithJson.
(* json.dumps(..., ensure_ascii=False) on the dictionary of an event *)
Variable dumps : gmap string value -> string.

(* def generate_gps_event(sensor_id, intersection); [now] is the clock,
   [velocidad] is round(random.uniform(GPS_SPEED_MIN, GPS_SPEED_MAX), 1) *)
Definition generate_gps_event (now : string) (velocidad : Q)
    (sensor_id intersection : value) : option GPSEvent :=
  GPSEvent_init now sensor_id None (Some intersection) None
                (Some (VNum (Fin velocidad))) None.

(* generate_gps_event(sensor_id, intersection).to_json() *)
Definition gps_event_json (sensor_id intersection : value) (d : string * Q)
    : option string :=
  e ← generate_gps_event d.1 d.2 sensor_id intersection;
  Some (dumps (GPSEvent_asdict e)).

End WithJson.

End GpsSensor.

(** ** src/common/db_utils.py: the statement query_congestion_history builds *)
Module DbUtils.

(* a value bound to a placeholder *)
Inductive param :=
| PText (s : string)
| PInt (n : Z).

(* the truth value of an optional str argument: None and the empty string
   are false *)
Definition truthy (a : option string) : bool :=
  match a with
  | None => false
  | Some s => negb (String.eqb s "")
  end.

(* TrafficDB.query_congestion_history up to the call of conn.execute:
   the query text and the parameter list it passes *)
Definition query_congestion_history
    (timestamp_inicio timestamp_fin interseccion : option string) (limit : Z)
    : string * list param :=
  let query := "SELECT * FROM congestion_history WHERE 1=1" in
  let params := @nil param in
  let '(query, params) :=
    if truthy timestamp_inicio
    then (query ++ " AND timestamp >= ?",
          (params ++ [PText (default "" timestamp_inicio)])%list)
    else (query, params) in
  let '(query, params) :=
    if truthy timestamp_fin
    then (query ++ " AND timestamp <= ?",
          (params ++ [PText (default "" timestamp_fin)])%list)
    else (query, params) in
  let '(query, params) :=
    if truthy interseccion
    then (query ++ " AND interseccion = ?",
          (params ++ [PText (default "" interseccion)])%list)
    else (query, params) in
  (query ++ " ORDER BY timestamp DESC LIMIT ?", (params ++ [PInt limit])%list).

(* the number of ? placeholders of a statement *)
Fixpoint placeholders (sql : string) : nat :=
  match sql with
  | EmptyString => 0
  | String c rest => (if Ascii.eqb c "?"%char then 1 else 0) + placeholders rest
  end.

(* the filters that are in force *)
Definition filters (timestamp_inicio timestamp_fin interseccion : option string)
    : list string :=
  ((if truthy timestamp_inicio then [default "" timestamp_inicio] else [])
   ++ (if truthy timestamp_fin then [default "" timestamp_fin] else [])
   ++ (if truthy interseccion then [default "" interseccion] else []))%list.

End DbUtils.

(** ** src/pc1/broker_threaded.py: further measures of the threads *)
Module BrokerThreadedMore.
Import Zmq BrokerThreaded.

(* the frames of the i-th sensor that the transport delivered during tr and
   that the i-th worker's subscription accepts, oldest first *)
Definition accepted (i : nat) (tr : list event) : list frame :=
  omap (fun e => match e with
                 | EvPublish j m true =>
                     if decide (j = i /\ matches i m) then Some m else None
                 | _ => None
                 end) tr.

(* the i-th worker and the collector are both inside their loops *)
Definition in_loops (i : nat) (s : state) : bool :=
  in_loop (c_pc (collector s))
  && default false ((fun w => in_loop (w_pc w)) <$> workers s !! i).

(* the inproc pipe and the counter of the i-th worker *)
Definition pipe_of (i : nat) (s : state) : list frame :=
  default [] ((fun w => pipe (push w)) <$> workers s !! i).

Definition count_of (i : nat) (s : state) : nat :=
  default 0 (count <$> workers s !! i).

(* the frames of the i-th topic the collector has taken out of the pipe:
   published, or held in the variable message *)
Definition collected (i : nat) (s : state) : list frame :=
  (downstream i s ++ filter (matches i) (held (c_pc (collector s))))%list.

(* worker i has nothing queued, held or piped *)
Definition idle (i : nat) (s : state) : Prop :=
  default [] (w_chain <$> workers s !! i) = [].

(* statements the collector has left in its current pass *)
Definition c_to_go (p : pc) : nat :=
  match p with AtPoll => 3 | AtRecv => 2 | AtSend _ => 1 | _ => 0 end.

End BrokerThreadedMore.

(** ** The two relays side by side *)
Module Relays.
Import Zmq.

(* a sensor publishes a frame; the transport delivers it or drops it *)
Definition publication : Type := nat * frame * bool.

(* the same publications as seen by each relay *)
Definition std_events (ps : list publication) : list Broker.event :=
  (fun p : publication => Broker.EvPublish p.1.1 p.1.2 p.2) <$> ps.

Definition mt_events (ps : list publication) : list BrokerThreaded.event :=
  (fun p : publication => BrokerThreaded.EvPublish p.1.1 p.1.2 p.2) <$> ps.

(* statements of the threads of the multi-threaded relay, none raising *)
Definition mt_quiet (tr : list BrokerThreaded.event) : Prop :=
  Forall (fun e => exists j, e = BrokerThreaded.EvWorker j None \/
                             e = BrokerThreaded.EvCollector j None) tr.

End Relays.

(* ===================================================================== *)
(** * Theorems                                                            *)
(* ===================================================================== *)

Module ModelsFacts.
Import Constants Py Models.

Lemma Qltb_lt (x y : Q) : Qltb x y = true <-> (x < y)%Q.
Proof.
  unfold Qltb. rewrite negb_true_iff, <- not_true_iff_false, Qle_bool_iff.
  split; [apply Qnot_le_lt | apply Qlt_not_le].
Qed.

Lemma Qltb_ge (x y : Q) : Qltb x y = false <-> (y <= x)%Q.
Proof.
  unfold Qltb. rewrite negb_false_iff. apply Qle_bool_iff.
Qed.

End ModelsFacts.

Module ModelsTheorems.
Import Constants Py Models ModelsFacts.

Lemma congestion_of_finite (v : Q) :
  get_congestion_level (VNum (Fin v)) =
    Some (if Qltb v 10 then CONGESTION_ALTA
          else if Qltb 40 v then CONGESTION_BAJA else CONGESTION_NORMAL).
Proof.
  unfold get_congestion_level, lt_int, gt_int; simpl.
  change (inject_Z CONGESTION_ALTA_MAX_SPEED) with 10%Q.
  change (inject_Z CONGESTION_BAJA_MIN_SPEED) with 40%Q.
  destruct (Qltb v 10); [reflexivity|]. destruct (Qltb 40 v); reflexivity.
Qed.

(** C9: get_congestion_level returns a label for every real-valued
    (finite) speed v, the label is one of the three distinct labels ALTA,
    NORMAL, BAJA, and it is ALTA when v < 10, NORMAL when 10 <= v <= 40
    (both ends included) and BAJA when v > 40. *)
Theorem get_congestion_level_total_with_boundaries (v : Q) :
  (exists l, get_congestion_level (VNum (Fin v)) = Some l /\
             l ∈ [CONGESTION_ALTA; CONGESTION_NORMAL; CONGESTION_BAJA]) /\
  NoDup [CONGESTION_ALTA; CONGESTION_NORMAL; CONGESTION_BAJA] /\
  ((v < 10)%Q -> get_congestion_level (VNum (Fin v)) = Some CONGESTION_ALTA) /\
  ((10 <= v)%Q /\ (v <= 40)%Q ->
     get_congestion_level (VNum (Fin v)) = Some CONGESTION_NORMAL) /\
  ((40 < v)%Q -> get_congestion_level (VNum (Fin v)) = Some CONGESTION_BAJA).
Proof.
  rewrite congestion_of_finite.
  destruct (Qltb v 10) eqn:Hlo; [|destruct (Qltb 40 v) eqn:Hhi].
  - apply Qltb_lt in Hlo. repeat split.
    + eexists; split; [reflexivity|set_solver].
    + apply (bool_decide_unpack _); vm_compute; reflexivity.
    + intros [Hge _]. exfalso. exact (Qlt_not_le _ _ Hlo Hge).
    + intros Hgt. exfalso.
      apply (Qlt_irrefl v). apply Qlt_trans with 10%Q; [exact Hlo|].
      apply Qlt_trans with 40%Q; [reflexivity|exact Hgt].
  - apply Qltb_ge in Hlo. apply Qltb_lt in Hhi. repeat split.
    + eexists; split; [reflexivity|set_solver].
    + apply (bool_decide_unpack _); vm_compute; reflexivity.
    + intros Hlt. exfalso. exact (Qlt_not_le _ _ Hlt Hlo).
    + intros [_ Hle]. exfalso. exact (Qlt_not_le _ _ Hhi Hle).
  - apply Qltb_ge in Hlo. apply Qltb_ge in Hhi. repeat split.
    + eexists; split; [reflexivity|set_solver].
    + apply (bool_decide_unpack _); vm_compute; reflexivity.
    + intros Hlt. exfalso. exact (Qlt_not_le _ _ Hlt Hlo).
    + intros Hgt. exfalso. exact (Qlt_not_le _ _ Hgt Hhi).
Qed.

Lemma get_congestion_level_boundary_witness :
  get_congestion_level (VNum (Fin 10)) = Some CONGESTION_NORMAL /\
  get_congestion_level (VNum (Fin 40)) = Some CONGESTION_NORMAL /\
  get_congestion_level (VNum (Fin (19 # 2))) = Some CONGESTION_ALTA /\
  get_congestion_level (VNum (Fin (81 # 2))) = Some CONGESTION_BAJA.
Proof.
  split; [|split; [|split]].
  - apply (get_congestion_level_total_with_boundaries 10).
    split; unfold Qle; simpl; lia.
  - apply (get_congestion_level_total_with_boundaries 40).
    split; unfold Qle; simpl; lia.
  - apply (get_congestion_level_total_with_boundaries (19 # 2)).
    unfold Qlt; simpl; lia.
  - apply (get_congestion_level_total_with_boundaries (81 # 2)).
    unfold Qlt; simpl; lia.
Defined.

(* The special floats: nan compares false both ways, so it is NORMAL. *)
Lemma congestion_of_special :
  get_congestion_level (VNum NaN) = Some CONGESTION_NORMAL /\
  get_congestion_level (VNum PosInf) = Some CONGESTION_BAJA /\
  get_congestion_level (VNum NegInf) = Some CONGESTION_ALTA.
Proof. repeat split. Qed.

(* A speed that is not a number makes the comparison raise. *)
Lemma congestion_type_error (v : value) :
  get_congestion_level v = None <-> as_number v = None.
Proof.
  unfold get_congestion_level, lt_int, gt_int.
  destruct (as_number v) as [x|]; simpl; [|tauto].
  split; [|discriminate].
  repeat case_match; discriminate.
Qed.

Lemma post_init_level (self e : GPSEvent) :
  __post_init__ self = Some e ->
  velocidad_promedio e = velocidad_promedio self /\
  VStr <$> get_congestion_level (velocidad_promedio self)
    = Some (nivel_congestion e).
Proof.
  unfold __post_init__.
  destruct (get_congestion_level (velocidad_promedio self)) as [l|];
    simpl; [|discriminate].
  intros [= <-]. split; reflexivity.
Qed.

Lemma post_init_ignores_level (a b : GPSEvent) :
  sensor_id a = sensor_id b -> tipo_sensor a = tipo_sensor b ->
  interseccion a = interseccion b ->
  velocidad_promedio a = velocidad_promedio b ->
  timestamp a = timestamp b ->
  __post_init__ a = __post_init__ b.
Proof.
  unfold __post_init__. intros -> -> -> -> ->. reflexivity.
Qed.

(** C8: the constructor of GPSEvent, called directly or through
    from_dict, computes nivel_congestion from the average speed it is given:
    the constructed event holds the supplied velocidad_promedio (0 when none
    is supplied) and its nivel_congestion is get_congestion_level of that
    speed; whenever that level can be computed the event is constructed; and
    the nivel_congestion the caller (or the dictionary) supplied has no
    influence on the constructed event. *)
Theorem GPSEvent_nivel_congestion_from_speed (now : string) :
  (forall sid t i n v ts e,
      GPSEvent_init now sid t i n v ts = Some e ->
      velocidad_promedio e = default (VNum (Fin 0)) v /\
      VStr <$> get_congestion_level (default (VNum (Fin 0)) v)
        = Some (nivel_congestion e) /\
      VStr <$> get_congestion_level (velocidad_promedio e)
        = Some (nivel_congestion e) /\
      forall n', GPSEvent_init now sid t i n' v ts = Some e) /\
  (forall sid t i n v ts level,
      get_congestion_level (default (VNum (Fin 0)) v) = Some level ->
      exists e, GPSEvent_init now sid t i n v ts = Some e /\
                nivel_congestion e = VStr level) /\
  (forall (data : gmap string value) e,
      from_dict now data = Some e ->
      velocidad_promedio e
        = default (VNum (Fin 0)) (data !! "velocidad_promedio") /\
      VStr <$> get_congestion_level
                 (default (VNum (Fin 0)) (data !! "velocidad_promedio"))
        = Some (nivel_congestion e) /\
      VStr <$> get_congestion_level (velocidad_promedio e)
        = Some (nivel_congestion e) /\
      forall x, from_dict now (<["nivel_congestion" := x]> data) = Some e) /\
  (forall (data : gmap string value) sid level,
      data !! "sensor_id" = Some sid ->
      get_congestion_level
        (default (VNum (Fin 0)) (data !! "velocidad_promedio")) = Some level ->
      exists e, from_dict now data = Some e /\
                nivel_congestion e = VStr level).
Proof.
  assert (Hinit : forall sid t i n v ts e,
      GPSEvent_init now sid t i n v ts = Some e ->
      velocidad_promedio e = default (VNum (Fin 0)) v /\
      VStr <$> get_congestion_level (default (VNum (Fin 0)) v)
        = Some (nivel_congestion e) /\
      VStr <$> get_congestion_level (velocidad_promedio e)
        = Some (nivel_congestion e) /\
      forall n', GPSEvent_init now sid t i n' v ts = Some e).
  { intros sid t i n v ts e H. unfold GPSEvent_init in H.
    destruct (post_init_level _ _ H) as [Hv Hl]. simpl in Hv, Hl.
    split; [exact Hv|]. split; [exact Hl|]. split; [rewrite Hv; exact Hl|].
    intros n'. rewrite <- H. unfold GPSEvent_init.
    apply post_init_ignores_level; reflexivity. }
  assert (Hmake : forall sid t i n v ts level,
      get_congestion_level (default (VNum (Fin 0)) v) = Some level ->
      exists e, GPSEvent_init now sid t i n v ts = Some e /\
                nivel_congestion e = VStr level).
  { intros sid t i n v ts level Hl. unfold GPSEvent_init, __post_init__.
    simpl. rewrite Hl. simpl. eexists. split; reflexivity. }
  split; [exact Hinit|]. split; [exact Hmake|]. split.
  - intros data e H. unfold from_dict in H.
    destruct (data !! "sensor_id") as [sid|] eqn:Hsid; simpl in H; [|discriminate].
    destruct (Hinit _ _ _ _ _ _ _ H) as (Hv & Hl & Hl' & Hn).
    split; [exact Hv|]. split; [exact Hl|]. split; [exact Hl'|].
    intros x. unfold from_dict.
    rewrite (lookup_insert_ne data "nivel_congestion" "sensor_id") by done.
    rewrite (lookup_insert_ne data "nivel_congestion" "tipo_sensor") by done.
    rewrite (lookup_insert_ne data "nivel_congestion" "interseccion") by done.
    rewrite (lookup_insert_ne data "nivel_congestion" "velocidad_promedio") by done.
    rewrite (lookup_insert_ne data "nivel_congestion" "timestamp") by done.
    rewrite lookup_insert_eq, Hsid. simpl. apply Hn.
  - intros data sid level Hsid Hl. unfold from_dict. rewrite Hsid. simpl.
    apply Hmake. exact Hl.
Qed.

Lemma GPSEvent_nivel_congestion_witness :
  let e := mkGPSEvent (VStr "GPS-A1") (VStr "gps") (VStr "INT-A1")
                      (VStr "ALTA") (VNum (Fin 8)) (VStr "t0") in
  let data : gmap string value :=
    {[ "sensor_id" := VStr "GPS-A1"; "interseccion" := VStr "INT-A1";
       "nivel_congestion" := VStr "ALTA";
       "velocidad_promedio" := VNum (Fin 45);
       "volumen" := VNum (Fin 3) ]} in
  GPSEvent_init "t0" (VStr "GPS-A1") None (Some (VStr "INT-A1"))
                (Some (VStr "BAJA")) (Some (VNum (Fin 8))) None = Some e /\
  velocidad_promedio e = VNum (Fin 8) /\
  get_congestion_level (VNum (Fin 8)) = Some "ALTA" /\
  GPSEvent_init "t0" (VStr "GPS-A1") None (Some (VStr "INT-A1"))
                None (Some (VNum (Fin 8))) None = Some e /\
  (exists e', from_dict "t0" data = Some e' /\
              nivel_congestion e' = VStr "BAJA" /\
              velocidad_promedio e' = VNum (Fin 45) /\
              from_dict "t0" (<["nivel_congestion" := VNone]> data) = Some e').
Proof.
  intros e data.
  assert (H1 : GPSEvent_init "t0" (VStr "GPS-A1") None (Some (VStr "INT-A1"))
                (Some (VStr "BAJA")) (Some (VNum (Fin 8))) None = Some e)
    by reflexivity.
  destruct (GPSEvent_nivel_congestion_from_speed "t0") as (Hi & _ & Hd & Hm).
  destruct (Hi _ _ _ _ _ _ _ H1) as (Hv & _ & _ & Hn).
  split; [exact H1|]. split; [exact Hv|]. split; [reflexivity|].
  split; [apply Hn|].
  destruct (Hm data (VStr "GPS-A1") "BAJA") as (e' & He' & Hl');
    [vm_compute; reflexivity|vm_compute; reflexivity|].
  destruct (Hd data e' He') as (Hv' & _ & _ & Hx).
  exists e'. split; [exact He'|]. split; [exact Hl'|].
  split; [rewrite Hv'; vm_compute; reflexivity|apply Hx].
Defined.

End ModelsTheorems.

Module ConfigLoaderTheorems.
Import ConfigLoader.

Section WithFiles.
Context {json : Type} (read_json : string -> option json)
        (DEFAULT_CONFIG_PATH : string).

Local Abbreviation get_config := (get_config read_json DEFAULT_CONFIG_PATH).
Local Abbreviation get_config_calls :=
  (get_config_calls read_json DEFAULT_CONFIG_PATH).

Lemma get_config_cached (st : module_state json) (r : nat) p :
  _config_instance st = Some r -> get_config p st = (Some r, st).
Proof. unfold ConfigLoader.get_config. intros ->. reflexivity. Qed.

Lemma get_config_calls_cached (st : module_state json) (r : nat) ps :
  _config_instance st = Some r ->
  get_config_calls ps st = (replicate (length ps) (Some r), st).
Proof.
  intros H. induction ps as [|p ps IH]; simpl; [reflexivity|].
  rewrite (get_config_cached _ _ _ H), IH. reflexivity.
Qed.

End WithFiles.

(** C10: when no instance is cached yet and the first get_config call
    returns, the object it returns was loaded from that call's path and is
    stored as the cached instance; every later call, whatever path it is
    given, returns that same object and changes nothing. *)
Theorem get_config_returns_first_instance
    {json : Type} (read_json : string -> option json) (dflt : string)
    (st0 st1 : module_state json) (p1 : option string) (r : nat) :
  _config_instance st0 = None ->
  get_config read_json dflt p1 st0 = (Some r, st1) ->
  (exists j, read_json (default dflt p1) = Some j /\
             heap st1 !! r = Some (mkCityConfig json j)) /\
  (forall p2, get_config read_json dflt p2 st1 = (Some r, st1)) /\
  (forall ps, get_config_calls read_json dflt ps st1
              = (replicate (length ps) (Some r), st1)).
Proof.
  intros Hnone H. unfold get_config in H. rewrite Hnone in H.
  unfold CityConfig_new in H.
  destruct (read_json (default dflt p1)) as [j|] eqn:Hj; [|discriminate].
  injection H as <- <-. simpl.
  split; [|split].
  - exists j. split; [reflexivity|].
    rewrite lookup_app_r by reflexivity. rewrite Nat.sub_diag. reflexivity.
  - intros p2. apply get_config_cached. reflexivity.
  - intros ps. apply get_config_calls_cached. reflexivity.
Qed.

(* two files with different contents *)
Definition two_files (path : string) : option nat :=
  if String.eqb path "a.json" then Some 1
  else if String.eqb path "b.json" then Some 2 else None.

Lemma get_config_returns_first_instance_witness :
  let st1 := mkModuleState nat [mkCityConfig nat 1] (Some 0) in
  get_config two_files "a.json" (Some "a.json") initial = (Some 0, st1) /\
  get_config two_files "a.json" (Some "b.json") st1 = (Some 0, st1) /\
  heap st1 !! 0 = Some (mkCityConfig nat 1).
Proof.
  intros st1.
  assert (H : get_config two_files "a.json" (Some "a.json") initial = (Some 0, st1))
    by reflexivity.
  destruct (get_config_returns_first_instance two_files "a.json" initial st1
              (Some "a.json") 0 eq_refl H) as [_ [H2 _]].
  split; [exact H|]. split; [apply H2|reflexivity].
Defined.

End ConfigLoaderTheorems.

Open Scope list_scope.

Module ZmqFacts.
Import Zmq.

Lemma prefix_common (a b m : string) :
  String.prefix a m = true -> String.prefix b m = true ->
  String.prefix a b = true \/ String.prefix b a = true.
Proof.
  revert b m. induction a as [|c a IH]; intros b m Ha Hb; [left; destruct b; reflexivity|].
  destruct b as [|d b]; [right; reflexivity|].
  destruct m as [|x m]; [discriminate|]. simpl in *.
  destruct (Ascii.ascii_dec c x) as [->|]; [|discriminate].
  destruct (Ascii.ascii_dec d x) as [->|]; [|discriminate].
  destruct (Ascii.ascii_dec x x); [|congruence]. eauto.
Qed.

Lemma deliver_subscription m sub : subscription (deliver m sub) = subscription sub.
Proof. unfold deliver. repeat case_match; reflexivity. Qed.

Lemma deliver_rx m sub :
  rx (deliver m sub) = rx sub \/
  (rx (deliver m sub) = rx sub ++ [m] /\ String.prefix (subscription sub) m = true).
Proof. unfold deliver. repeat case_match; simpl; auto. Qed.

Lemma Forall_sublist {A} (P : A -> Prop) (l k : list A) :
  l `sublist_of` k -> Forall P k -> Forall P l.
Proof.
  rewrite !Forall_forall. intros Hs H x Hx. eapply H, elem_of_sublist; eauto.
Qed.

Lemma pollin_true_rx sub : pollin sub = true -> rx sub <> [].
Proof. unfold pollin. destruct (rx sub); [discriminate|discriminate]. Qed.

End ZmqFacts.

Module BrokerFacts.
Import Zmq ZmqFacts Broker.

Lemma run_snoc tr e s : run (tr ++ [e]) s = step e (run tr s).
Proof. unfold run. rewrite foldl_snoc. reflexivity. Qed.

Lemma run_app tr1 tr2 s : run (tr1 ++ tr2) s = run tr2 (run tr1 s).
Proof. unfold run. apply foldl_app. Qed.

Lemma run_cons e tr s : run (e :: tr) s = run tr (step e s).
Proof. reflexivity. Qed.

Lemma topics_exclusive i j m :
  i < length sensor_ports -> j < length sensor_ports -> i <> j ->
  matches i m -> ~ matches j m.
Proof.
  unfold matches. intros Hi Hj Hne Ha Hb.
  destruct (prefix_common _ _ _ Ha Hb) as [H|H]; revert H;
  simpl in Hi, Hj;
  destruct i as [|[|[|i]]]; try lia; destruct j as [|[|[|j]]]; try lia;
  try congruence; vm_compute; discriminate.
Qed.

Lemma wf_subscription s k sub :
  wf s -> subscribers s !! k = Some sub -> subscription sub = topic_of k.
Proof.
  intros [Ht _ _ _ _ _] Hk. unfold topic_of.
  rewrite <- list_lookup_fmap, <- Ht, list_lookup_fmap, Hk. reflexivity.
Qed.

Lemma wf_length s : wf s -> length (subscribers s) = length sensor_ports.
Proof.
  intros [Ht _ _ _ _ _]. rewrite <- (length_fmap subscription), Ht, length_fmap. reflexivity.
Qed.

Lemma wf_initial : wf initial.
Proof.
  split; simpl.
  - reflexivity.
  - intros k sub H. destruct k as [|[|[|k]]]; simpl in H; simplify_eq; constructor.
  - discriminate.
  - discriminate.
  - discriminate.
  - constructor.
Qed.

Lemma subscription_alter_deliver m i (l : list sub_socket) :
  subscription <$> alter (deliver m) i l = subscription <$> l.
Proof.
  apply list_eq. intros k. rewrite !list_lookup_fmap, list_lookup_alter.
  case_decide; [subst|reflexivity].
  destruct (l !! k); simpl; [|reflexivity]. rewrite deliver_subscription. reflexivity.
Qed.

Lemma subscription_insert_pop k sub (l : list sub_socket) :
  l !! k = Some sub ->
  subscription <$> <[k := pop sub]> l = subscription <$> l.
Proof.
  intros H. apply list_eq. intros j. rewrite !list_lookup_fmap.
  destruct (decide (k = j)) as [<-|Hne].
  - rewrite list_lookup_insert_eq by (eapply lookup_lt_Some; eauto).
    rewrite H. reflexivity.
  - rewrite list_lookup_insert_ne by done. reflexivity.
Qed.

Lemma subscription_close (l : list sub_socket) :
  subscription <$> (close_sub <$> l) = subscription <$> l.
Proof. rewrite <- list_fmap_compose. reflexivity. Qed.

Lemma wf_publish s i m d : wf s -> wf (step (EvPublish i m d) s).
Proof.
  intros Hwf. destruct d; simpl; [|exact Hwf].
  assert (Hrx : forall j sub, alter (deliver m) i (subscribers s) !! j = Some sub ->
     exists sub0, subscribers s !! j = Some sub0 /\
        (rx sub = rx sub0 \/ (rx sub = rx sub0 ++ [m] /\ matches j m))).
  { intros j sub. rewrite list_lookup_alter. case_decide.
    - subst j. destruct (subscribers s !! i) as [sub0|] eqn:E; simpl; [|discriminate].
      intros [= <-]. exists sub0. split; [reflexivity|].
      destruct (deliver_rx m sub0) as [->|[-> Hp]]; [auto|]. right. split; [reflexivity|].
      unfold matches. rewrite <- (wf_subscription s i sub0 Hwf E). exact Hp.
    - intros ->. eauto. }
  destruct Hwf as [Ht Hr Hs Hf Hfs Htx]. split; simpl.
  - rewrite subscription_alter_deliver. exact Ht.
  - intros k sub H. destruct (Hrx _ _ H) as (sub0 & H0 & [->|[-> Hm]]).
    + eauto.
    + apply Forall_app. split; [eauto|]. constructor; [exact Hm|constructor].
  - exact Hs.
  - intros k socks j sub Hpc Hle Hso H.
    destruct (Hrx _ _ H) as (sub0 & H0 & [->|[-> Hm]]); [eauto|].
    intros Heq. apply app_eq_nil in Heq as [_ ?]. discriminate.
  - intros k socks m' j sub Hpc Hle Hso H.
    destruct (Hrx _ _ H) as (sub0 & H0 & [->|[-> Hm]]); [eauto|].
    intros Heq. apply app_eq_nil in Heq as [_ ?]. discriminate.
  - exact Htx.
Qed.

Lemma wf_signal s : wf s -> wf (step EvSignal s).
Proof. intros [Ht Hr Hs Hf Hfs Htx]. split; simpl; assumption. Qed.

Lemma wf_raise e s : wf s -> wf (raise e s).
Proof.
  intros [Ht Hr Hs Hf Hfs Htx]. destruct e; split; simpl; try assumption; discriminate.
Qed.

Lemma wf_thread_step f s : wf s -> wf (thread_step f s).
Proof.
  intros Hwf. unfold thread_step.
  destruct (at_pc s) as [| |k socks|k socks m|pend| |e] eqn:Hpc.
  - (* AtWhile *)
    destruct Hwf as [Ht Hr Hs Hf Hfs Htx].
    destruct (_running s); split; simpl; try assumption; discriminate.
  - (* AtPoll *)
    destruct f as [e|]; [apply wf_raise; exact Hwf|].
    destruct Hwf as [Ht Hr Hs Hf Hfs Htx]. split; simpl; try assumption; try discriminate.
    intros k socks j sub [= <- <-] _ Hso Hj.
    rewrite list_lookup_fmap, Hj in Hso. simpl in Hso.
    apply pollin_true_rx. congruence.
  - (* AtFor *)
    destruct (subscribers s !! k) as [sub|] eqn:Hk.
    + destruct (default false (socks !! k)) eqn:Hready.
      * destruct f as [e|]; [apply wf_raise; exact Hwf|].
        destruct (rx sub) as [|m rest] eqn:Hrx; [exact Hwf|].
        pose proof (wf_rx _ Hwf _ _ Hk) as Hall. rewrite Hrx in Hall.
        apply Forall_cons in Hall as [Hm Hrest].
        pose proof (lookup_lt_Some _ _ _ Hk) as Hlt.
        assert (Hlen : k < length sensor_ports)
          by (rewrite <- (wf_length s Hwf); exact Hlt).
        destruct Hwf as [Ht Hr Hs Hf Hfs Htx]. split; simpl.
        -- rewrite subscription_insert_pop by exact Hk. exact Ht.
        -- intros j sub'. destruct (decide (k = j)) as [<-|Hne].
           ++ rewrite list_lookup_insert_eq by exact Hlt. intros [= <-].
              unfold pop; simpl. rewrite Hrx. exact Hrest.
           ++ rewrite list_lookup_insert_ne by done. eauto.
        -- intros k' socks' m' [= <- <- <-]. split; [exact Hm|exact Hlen].
        -- discriminate.
        -- intros k' socks' m' j sub' [= <- <- <-] Hlt' Hso.
           rewrite list_lookup_insert_ne by lia. intros Hj.
           eapply (Hf k socks j sub'); eauto. lia.
        -- exact Htx.
      * destruct Hwf as [Ht Hr Hs Hf Hfs Htx]. split; simpl; try assumption; try discriminate.
        intros k' socks' j sub' [= <- <-] Hle Hso Hj.
        eapply (Hf k socks j sub'); eauto. lia.
    + destruct Hwf as [Ht Hr Hs Hf Hfs Htx]. split; simpl; try assumption; discriminate.
  - (* AtSend *)
    destruct f as [e|]; [apply wf_raise; exact Hwf|].
    destruct Hwf as [Ht Hr Hs Hf Hfs Htx]. split; simpl; try assumption; try discriminate.
    + intros k' socks' j sub' [= <- <-] Hle Hso Hj.
      eapply (Hfs k socks m j sub'); eauto.
    + apply Forall_app. split; [exact Htx|].
      constructor; [|constructor]. exists k. destruct (Hs _ _ _ Hpc); auto.
  - (* AtFinally *)
    destruct Hwf as [Ht Hr Hs Hf Hfs Htx]. split; simpl.
    + rewrite subscription_close. exact Ht.
    + intros k sub. rewrite list_lookup_fmap.
      destruct (subscribers s !! k); simpl; [|discriminate]. intros [= <-]. constructor.
    + destruct pend; discriminate.
    + destruct pend; discriminate.
    + destruct pend; discriminate.
    + exact Htx.
  - exact Hwf.
  - exact Hwf.
Qed.

Lemma wf_step e s : wf s -> wf (step e s).
Proof.
  destruct e; [apply wf_publish|apply wf_signal|apply wf_thread_step].
Qed.

Lemma wf_run tr s : wf s -> wf (run tr s).
Proof.
  revert s. induction tr as [|e tr IH]; intros s H; [exact H|].
  rewrite run_cons. apply IH, wf_step, H.
Qed.

Lemma produced_snoc i tr e : produced i (tr ++ [e]) = produced i tr ++ produced i [e].
Proof. unfold produced. apply omap_app. Qed.

Lemma downstream_send i m s :
  downstream i (with_publisher (send m (publisher s)) s) =
  downstream i s ++ (if decide (matches i m) then [m] else []).
Proof.
  unfold downstream; simpl. rewrite filter_app. reflexivity.
Qed.

Lemma queued_lookup i s sub : subscribers s !! i = Some sub -> queued i s = rx sub.
Proof. unfold queued. intros ->. reflexivity. Qed.

Lemma chain_raise i e s : chain i (raise e s) `sublist_of` chain i s.
Proof.
  unfold chain. apply sublist_app; [destruct e; reflexivity|].
  apply sublist_inserts_l. destruct e; reflexivity.
Qed.

Lemma chain_thread_step i f s :
  wf s -> i < length sensor_ports ->
  chain i (thread_step f s) `sublist_of` chain i s.
Proof.
  intros Hwf Hi. unfold thread_step.
  destruct (at_pc s) as [| |k socks|k socks m|pend| |e] eqn:Hpc.
  - destruct (_running s); unfold chain, downstream, inflight, queued; simpl;
      rewrite Hpc; reflexivity.
  - destruct f as [e|]; [apply chain_raise|].
    unfold chain, downstream, inflight, queued; simpl; rewrite Hpc; reflexivity.
  - destruct (subscribers s !! k) as [sub|] eqn:Hk.
    + destruct (default false (socks !! k)).
      * destruct f as [e|]; [apply chain_raise|].
        destruct (rx sub) as [|m rest] eqn:Hrx; [reflexivity|].
        pose proof (lookup_lt_Some _ _ _ Hk) as Hlt.
        unfold chain, downstream, inflight, queued; simpl; rewrite Hpc; simpl.
        apply sublist_app; [reflexivity|].
        destruct (decide (k = i)) as [->|Hne].
        -- rewrite list_lookup_insert_eq by exact Hlt. rewrite Hk. simpl.
           rewrite Hrx. reflexivity.
        -- rewrite list_lookup_insert_ne by done. reflexivity.
      * unfold chain, downstream, inflight, queued; simpl; rewrite Hpc; reflexivity.
    + unfold chain, downstream, inflight, queued; simpl; rewrite Hpc; reflexivity.
  - destruct f as [e|]; [apply chain_raise|].
    destruct (wf_send _ Hwf _ _ _ Hpc) as [Hm Hk].
    unfold chain, downstream, inflight, queued; simpl; rewrite Hpc.
    rewrite filter_app, <- app_assoc. apply sublist_app; [reflexivity|].
    change (filter (matches i) [m]) with (if decide (matches i m) then [m] else []).
    destruct (decide (k = i)) as [->|Hne].
    + rewrite decide_True by exact Hm. reflexivity.
    + rewrite decide_False by (eapply topics_exclusive; eauto). reflexivity.
  - unfold chain. apply sublist_app; [reflexivity|].
    unfold inflight, queued; simpl. rewrite Hpc, list_lookup_fmap.
    destruct pend; destruct (subscribers s !! i); simpl;
      first [apply sublist_nil_l|reflexivity].
  - reflexivity.
  - reflexivity.
Qed.

Lemma chain_step i tr e s :
  wf s -> i < length sensor_ports ->
  chain i s `sublist_of` produced i tr ->
  chain i (step e s) `sublist_of` produced i (tr ++ [e]).
Proof.
  intros Hwf Hi Hch. rewrite produced_snoc. destruct e as [j m d| |f].
  - simpl. destruct d.
    + unfold chain in *. unfold downstream, inflight, queued in *; simpl.
      rewrite list_lookup_alter. destruct (decide (j = i)) as [->|Hne].
      * destruct (subscribers s !! i) as [sub|] eqn:Hsub; simpl in *.
        -- destruct (deliver_rx m sub) as [->|[-> _]].
           ++ apply sublist_inserts_r, Hch.
           ++ rewrite !app_assoc. apply sublist_app; [|reflexivity].
              rewrite <- !app_assoc. exact Hch.
        -- apply sublist_inserts_r, Hch.
      * rewrite app_nil_r. exact Hch.
    + apply sublist_inserts_r, Hch.
  - simpl. rewrite app_nil_r. exact Hch.
  - simpl. rewrite app_nil_r. etrans; [apply chain_thread_step; assumption|exact Hch].
Qed.

Lemma chain_run i tr :
  i < length sensor_ports ->
  chain i (run tr initial) `sublist_of` produced i tr.
Proof.
  intros Hi. induction tr as [|e tr IH] using rev_ind.
  - destruct i as [|[|[|i]]]; simpl in Hi; try lia; reflexivity.
  - rewrite run_snoc. apply chain_step; [apply wf_run, wf_initial|exact Hi|exact IH].
Qed.

Lemma downstream_in_order tr i :
  i < length sensor_ports ->
  downstream i (run tr initial) `sublist_of` produced i tr.
Proof.
  intros Hi. etrans; [|apply chain_run; exact Hi].
  unfold chain. apply sublist_inserts_r. reflexivity.
Qed.

Lemma thread_step_recv s k socks sub m rest :
  at_pc s = AtFor k socks -> socks !! k = Some true ->
  subscribers s !! k = Some sub -> rx sub = m :: rest ->
  thread_step None s =
    goto (AtSend k socks m)
         (with_subscribers (<[k := pop sub]> (subscribers s)) s).
Proof.
  intros Hpc Hso Hk Hrx. unfold thread_step. rewrite Hpc, Hk, Hso. simpl.
  rewrite Hrx. reflexivity.
Qed.

Lemma thread_step_send s k socks m :
  at_pc s = AtSend k socks m ->
  tx (publisher (thread_step None s)) = tx (publisher s) ++ [m] /\
  subscribers (thread_step None s) = subscribers s /\
  event_count (thread_step None s) = event_count s + 1 /\
  at_pc (thread_step None s) = AtFor (S k) socks.
Proof. intros Hpc. unfold thread_step. rewrite Hpc. simpl. auto. Qed.

Lemma std_forward_step s k socks sub m rest :
  at_pc s = AtFor k socks -> socks !! k = Some true ->
  subscribers s !! k = Some sub -> rx sub = m :: rest ->
  let s' := run [EvStep None; EvStep None] s in
  tx (publisher s') = tx (publisher s) ++ [m] /\
  queued k s' = rest /\
  at_pc s' = AtFor (S k) socks.
Proof.
  intros Hpc Hso Hk Hrx. simpl.
  rewrite (thread_step_recv s k socks sub m rest) by assumption.
  destruct (thread_step_send
              (goto (AtSend k socks m)
                 (with_subscribers (<[k := pop sub]> (subscribers s)) s))
              k socks m eq_refl) as (Htx & Hsub & _ & Hpc').
  split; [exact Htx|]. split; [|exact Hpc'].
  unfold queued. rewrite Hsub. simpl.
  rewrite list_lookup_insert_eq by (eapply lookup_lt_Some; eauto). simpl.
  rewrite Hrx. reflexivity.
Qed.

Lemma std_tx_produced tr m :
  m ∈ tx (publisher (run tr initial)) ->
  exists i, i < length sensor_ports /\ matches i m /\ m ∈ produced i tr.
Proof.
  intros Hin.
  pose proof (wf_tx _ (wf_run tr _ wf_initial)) as Hk.
  rewrite Forall_forall in Hk. destruct (Hk _ Hin) as (i & Hi & Hm).
  exists i. split; [exact Hi|]. split; [exact Hm|].
  eapply elem_of_sublist; [|apply downstream_in_order; exact Hi].
  unfold downstream. apply list_elem_of_filter. auto.
Qed.

Lemma std_wait_bounded k s w :
  wf s -> next_wait k s = Some w ->
  w = poll_wait (Some 1000%Z) k \/ (w = Unbounded /\ terminating s = true).
Proof.
  intros Hwf. unfold next_wait, terminating.
  destruct (at_pc s) as [| |n socks| | | |] eqn:Hpc; try discriminate.
  - intros [= <-]. left. reflexivity.
  - destruct (subscribers s !! n) as [sub|] eqn:Hk; [|discriminate].
    destruct (socks !! n) as [[]|] eqn:Hso; simpl; try discriminate.
    destruct (rx sub) eqn:Hrx; [|discriminate].
    exfalso. eapply (wf_for s Hwf n socks n sub); eauto.
  - intros [= <-]. right. split; reflexivity.
Qed.

Lemma stays_stopped e s : _running s = false -> _running (step e s) = false.
Proof.
  intros H. destruct e as [i m d| |f]; simpl.
  - destruct d; simpl; exact H.
  - reflexivity.
  - unfold thread_step, raise.
    destruct (at_pc s); rewrite ?H; repeat case_match; simpl;
      first [assumption|reflexivity].
Qed.

Lemma stays_stopped_run tr s : _running s = false -> _running (run tr s) = false.
Proof.
  revert s. induction tr as [|e tr IH]; intros s H; [exact H|].
  rewrite run_cons. apply IH, stays_stopped, H.
Qed.

Lemma finished_step e s : finished s = true -> finished (step e s) = true.
Proof.
  unfold finished. destruct e as [i m d| |f]; simpl.
  - destruct d; simpl; auto.
  - auto.
  - intros H. unfold thread_step.
    destruct (at_pc s) eqn:Hpc; try discriminate; rewrite Hpc; reflexivity.
Qed.

Lemma finished_run tr s : finished s = true -> finished (run tr s) = true.
Proof.
  revert s. induction tr as [|e tr IH]; intros s H; [exact H|].
  rewrite run_cons. apply IH, finished_step, H.
Qed.

Lemma rank_raise e s : rank (raise e s) = 1.
Proof. destruct e; reflexivity. Qed.

Lemma rank_thread_step f s :
  wf s -> _running s = false -> finished s = false ->
  rank (thread_step f s) < rank s.
Proof.
  intros Hwf Hrun Hfin. unfold thread_step.
  destruct (at_pc s) as [| |k socks|k socks m|pend| |e] eqn:Hpc.
  - rewrite Hrun. unfold rank; simpl. rewrite Hpc. lia.
  - destruct f as [e|]; [rewrite rank_raise|]; unfold rank; simpl; rewrite Hpc; lia.
  - destruct (subscribers s !! k) as [sub|] eqn:Hk.
    + pose proof (lookup_lt_Some _ _ _ Hk) as Hlt.
      destruct (socks !! k) as [[]|] eqn:Hso; simpl.
      * destruct f as [e|]; [rewrite rank_raise; unfold rank; rewrite Hpc; lia|].
        destruct (rx sub) eqn:Hrx.
        -- exfalso. eapply (wf_for s Hwf k socks k sub); eauto.
        -- unfold rank; simpl. rewrite Hpc, length_insert. lia.
      * unfold rank; simpl. rewrite Hpc. lia.
      * unfold rank; simpl. rewrite Hpc. lia.
    + unfold rank; simpl. rewrite Hpc. lia.
  - destruct (wf_send s Hwf _ _ _ Hpc) as [_ Hk].
    rewrite <- (wf_length s Hwf) in Hk.
    destruct f as [e|]; [rewrite rank_raise|]; unfold rank; simpl; rewrite Hpc; lia.
  - unfold rank; simpl. rewrite Hpc. destruct pend; simpl; lia.
  - unfold finished in Hfin. rewrite Hpc in Hfin. discriminate.
  - unfold finished in Hfin. rewrite Hpc in Hfin. discriminate.
Qed.

Lemma rank_other e s : is_step e = false -> rank (step e s) = rank s.
Proof.
  destruct e as [i m d| |f]; simpl; try discriminate; intros _.
  - destruct d; [|reflexivity]. unfold rank; simpl. rewrite length_alter. reflexivity.
  - reflexivity.
Qed.

Lemma rank_zero s : rank s = 0 -> finished s = true.
Proof. unfold rank, finished. destruct (at_pc s); try reflexivity; lia. Qed.

Lemma rank_bound s : wf s -> rank s <= 10.
Proof.
  intros Hwf. pose proof (wf_length s Hwf) as Hl. simpl in Hl.
  unfold rank. destruct (at_pc s); lia.
Qed.

Lemma steps_in_cons e tr :
  steps_in (e :: tr) = (if is_step e then 1 else 0) + steps_in tr.
Proof.
  unfold steps_in. rewrite filter_cons. destruct (is_step e) eqn:H.
  - rewrite decide_True by reflexivity. reflexivity.
  - rewrite decide_False by discriminate. reflexivity.
Qed.

(* once the flag is cleared every statement brings the thread closer to
   its end *)
Lemma std_rank_run tr : forall s,
  wf s -> _running s = false ->
  rank (run tr s) + steps_in tr <= rank s \/ finished (run tr s) = true.
Proof.
  induction tr as [|e tr IH]; intros s Hwf Hrun.
  - left. change (steps_in []) with 0. change (run [] s) with s. lia.
  - rewrite run_cons, steps_in_cons.
    destruct (finished s) eqn:Hfin;
      [right; apply finished_run, finished_step, Hfin|].
    destruct (IH _ (wf_step e s Hwf) (stays_stopped e s Hrun)) as [H|H];
      [|right; exact H].
    left. destruct e as [i m d| |f].
    + rewrite rank_other in H by reflexivity. cbn [is_step Nat.add]. lia.
    + rewrite rank_other in H by reflexivity. cbn [is_step Nat.add]. lia.
    + pose proof (rank_thread_step f s Hwf Hrun Hfin).
      cbn [is_step step] in *. lia.
Qed.

Lemma std_exits tr s :
  wf s -> _running s = false -> rank s <= steps_in tr ->
  finished (run tr s) = true.
Proof.
  revert s. induction tr as [|e tr IH]; intros s Hwf Hrun Hrank.
  - apply rank_zero. change (run [] s) with s.
    change (steps_in []) with 0 in Hrank. lia.
  - rewrite run_cons. rewrite steps_in_cons in Hrank.
    destruct (finished s) eqn:Hfin; [apply finished_run, finished_step, Hfin|].
    apply IH; [apply wf_step, Hwf|apply stays_stopped, Hrun|].
    destruct e as [i m d| |f].
    + rewrite rank_other by reflexivity. cbn [is_step Nat.add] in Hrank. lia.
    + rewrite rank_other by reflexivity. cbn [is_step Nat.add] in Hrank. lia.
    + pose proof (rank_thread_step f s Hwf Hrun Hfin).
      cbn [is_step step] in *. lia.
Qed.

Lemma not_poll_step e s :
  _running s = false -> at_pc s <> AtPoll -> at_pc (step e s) <> AtPoll.
Proof.
  intros Hrun Hpc. destruct e as [i m d| |f]; simpl.
  - destruct d; exact Hpc.
  - exact Hpc.
  - unfold thread_step, raise. rewrite Hrun.
    destruct (at_pc s) eqn:E; try congruence; repeat case_match; simpl;
      rewrite ?E; congruence.
Qed.

Lemma polls_none tr s :
  _running s = false -> at_pc s <> AtPoll -> polls tr s = 0.
Proof.
  revert s. induction tr as [|e tr IH]; intros s Hrun Hpc; [reflexivity|].
  simpl. rewrite IH by (first [apply stays_stopped, Hrun|apply not_poll_step; assumption]).
  destruct e; try reflexivity. destruct (at_pc s); try reflexivity. congruence.
Qed.

Lemma poll_step_leaves f s : at_pc s = AtPoll -> at_pc (thread_step f s) <> AtPoll.
Proof.
  intros Hpc. unfold thread_step, raise. rewrite Hpc.
  destruct f as [[]|]; simpl; discriminate.
Qed.

Lemma std_polls_after_stop tr s :
  _running s = false -> polls tr s <= 1.
Proof.
  revert s. induction tr as [|e tr IH]; intros s Hrun; [simpl; lia|].
  assert (Hcases : at_pc s = AtPoll \/ at_pc s <> AtPoll)
    by (destruct (at_pc s); first [left; reflexivity|right; discriminate]).
  destruct Hcases as [Hpc|Hpc].
  - simpl. destruct e as [i m d| |f].
    + simpl. apply IH. destruct d; exact Hrun.
    + simpl. apply IH. reflexivity.
    + rewrite Hpc. rewrite polls_none; [lia|apply (stays_stopped (EvStep f)), Hrun|].
      apply poll_step_leaves, Hpc.
  - rewrite polls_none by assumption. lia.
Qed.

Lemma std_error_propagates s e :
  calls_transport s = true ->
  let s' := run [EvStep (Some (ZMQError e)); EvStep None] s in
  at_pc s' = Raised (ZMQError e) /\ all_closed s' /\
  tx (publisher s') = tx (publisher s).
Proof.
  intros Hcall. simpl.
  assert (Hs : thread_step (Some (ZMQError e)) s = goto (AtFinally (Some (ZMQError e))) s).
  { unfold calls_transport in Hcall. unfold thread_step.
    destruct (at_pc s) as [| |k socks|k socks m|pend| |e']; try discriminate; try reflexivity.
    destruct (subscribers s !! k); [|discriminate]. rewrite Hcall. reflexivity. }
  rewrite Hs. unfold thread_step; simpl. split; [reflexivity|]. split; [|reflexivity].
  split; [|split; reflexivity]. simpl.
  apply Forall_fmap, Forall_true. reflexivity.
Qed.

Lemma wait_of_pc k s :
  wf s ->
  wait_ms (next_wait k s) =
    if terminating s then None
    else Some (match at_pc s with
               | AtPoll => 1000 * (Z.of_nat k + 1)
               | _ => 0
               end)%Z.
Proof.
  intros Hwf. unfold next_wait, terminating.
  destruct (at_pc s) as [| |n socks| | | |] eqn:Hpc; try reflexivity.
  destruct (subscribers s !! n) as [sub|] eqn:Hk; [|reflexivity].
  destruct (socks !! n) as [[]|] eqn:Hso; simpl; try reflexivity.
  destruct (rx sub) eqn:Hrx; [|reflexivity].
  exfalso. eapply (wf_for s Hwf n socks n sub); eauto.
Qed.

Lemma signals_in_cons e tr :
  signals_in (e :: tr) = (if is_signal e then 1 else 0) + signals_in tr.
Proof.
  unfold signals_in. rewrite filter_cons. destruct (is_signal e).
  - rewrite decide_True by reflexivity. reflexivity.
  - rewrite decide_False by discriminate. reflexivity.
Qed.

(* inside the loop every wait is a poll: each poll adds its timeout once,
   and once more for every signal that can have interrupted it; the wait of
   the finally block has no bound *)
Lemma waited_cases tr : forall k s,
  wf s ->
  if terminates_in tr s then waited_from k tr s = None
  else exists t, waited_from k tr s = Some t /\
         (0 <= t <= 1000 * Z.of_nat (polls tr s + k + signals_in tr))%Z.
Proof.
  induction tr as [|e tr IH]; intros k s Hwf.
  - simpl. exists 0%Z. split; [reflexivity|]. lia.
  - rewrite signals_in_cons. cbn [waited_from polls terminates_in].
    destruct e as [i m d| |f]; cbn [is_step is_signal andb orb].
    + pose proof (IH k _ (wf_step (EvPublish i m d) s Hwf)) as H0.
      destruct (terminates_in tr (step (EvPublish i m d) s)); [exact H0|].
      destruct H0 as (t & Ht & Hb). exists t. split; [exact Ht|]. lia.
    + pose proof (IH (S k) _ (wf_step EvSignal s Hwf)) as H0.
      destruct (terminates_in tr (step EvSignal s)); [exact H0|].
      destruct H0 as (t & Ht & Hb). exists t. split; [exact Ht|]. lia.
    + rewrite (wait_of_pc k s Hwf).
      destruct (terminating s) eqn:Hterm; cbn [orb mbind option_bind];
        [reflexivity|].
      pose proof (IH 0 _ (wf_step (EvStep f) s Hwf)) as H0.
      destruct (terminates_in tr (step (EvStep f) s)).
      * rewrite H0. reflexivity.
      * destruct H0 as (t & Ht & Hb). rewrite Ht. cbn [mbind option_bind].
        eexists. split; [reflexivity|].
        destruct (at_pc s); lia.
Qed.

End BrokerFacts.

Module BrokerThreadedFacts.
Import Zmq ZmqFacts BrokerThreaded.

Lemma mt_run_snoc tr e s : run (tr ++ [e]) s = step e (run tr s).
Proof. unfold run. rewrite foldl_snoc. reflexivity. Qed.

Lemma mt_run_app tr1 tr2 s : run (tr1 ++ tr2) s = run tr2 (run tr1 s).
Proof. unfold run. apply foldl_app. Qed.

Lemma mt_run_cons e tr s : run (e :: tr) s = run tr (step e s).
Proof. reflexivity. Qed.

Lemma mt_topics_exclusive i j m :
  i < length sensor_ports -> j < length sensor_ports -> i <> j ->
  matches i m -> ~ matches j m.
Proof.
  unfold matches. intros Hi Hj Hne Ha Hb.
  destruct (prefix_common _ _ _ Ha Hb) as [H|H]; revert H;
  simpl in Hi, Hj;
  destruct i as [|[|[|i]]]; try lia; destruct j as [|[|[|j]]]; try lia;
  try congruence; vm_compute; discriminate.
Qed.

Lemma mt_produced_snoc i tr e : produced i (tr ++ [e]) = produced i tr ++ produced i [e].
Proof. unfold produced. apply omap_app. Qed.

Lemma pull_ready_true ws :
  pull_ready ws = true <-> exists j w, ws !! j = Some w /\ has_frames w = true.
Proof.
  unfold pull_ready. rewrite existsb_exists. split.
  - intros (w & Hin & Hw). apply list_elem_of_In, list_elem_of_lookup in Hin as [j Hj]. eauto.
  - intros (j & w & Hj & Hw). exists w. split; [|exact Hw].
    apply list_elem_of_In, list_elem_of_lookup. eauto.
Qed.

Lemma has_frames_pipe w : has_frames w = true <-> exists m rest, pipe (push w) = m :: rest.
Proof.
  unfold has_frames. destruct (pipe (push w)) as [|m rest]; split.
  - discriminate.
  - intros (? & ? & ?). discriminate.
  - eauto.
  - reflexivity.
Qed.

Lemma pick_Some choice ws j :
  pick choice ws = Some j -> exists w, ws !! j = Some w /\ has_frames w = true.
Proof.
  unfold pick. destruct (ws !! choice) as [w|] eqn:Hc; simpl.
  - destruct (has_frames w) eqn:Hw.
    + intros [= <-]. eauto.
    + destruct (list_find _ ws) as [[k w']|] eqn:Hf; simpl; [|discriminate].
      intros [= <-]. apply list_find_Some in Hf as (? & ? & _). eauto.
  - destruct (list_find _ ws) as [[k w']|] eqn:Hf; simpl; [|discriminate].
    intros [= <-]. apply list_find_Some in Hf as (? & ? & _). eauto.
Qed.

Lemma pick_ready choice ws :
  pull_ready ws = true -> exists j, pick choice ws = Some j.
Proof.
  intros (k & w & Hk & Hw)%pull_ready_true. unfold pick.
  destruct (default false (has_frames <$> ws !! choice)); [eauto|].
  destruct (list_find (fun w => has_frames w = true) ws) as [[j w']|] eqn:Hf; simpl; [eauto|].
  apply list_find_None in Hf. rewrite Forall_forall in Hf.
  exfalso. eapply Hf; [|exact Hw]. apply list_elem_of_lookup. eauto.
Qed.

Lemma pick_preferred choice ws w :
  ws !! choice = Some w -> has_frames w = true -> pick choice ws = Some choice.
Proof. unfold pick. intros -> H. simpl. rewrite H. reflexivity. Qed.

Lemma held_raise e : held (raise e) = [].
Proof. destruct e; reflexivity. Qed.

Lemma held_leave p : held (leave p) = [].
Proof. destruct p; reflexivity. Qed.

Lemma raise_not_recv e : raise e <> AtRecv.
Proof. destruct e; discriminate. Qed.

Lemma leave_not_recv p : leave p <> AtRecv.
Proof. destruct p; discriminate. Qed.

Lemma w_chain_step r f w :
  w_chain (worker_step r f w).1 `sublist_of` w_chain w.
Proof.
  unfold worker_step, w_chain.
  destruct (w_pc w) as [| | |m|e|pend| |e] eqn:Hpc; simpl.
  - rewrite ?Hpc. destruct r; reflexivity.
  - destruct f as [e|]; simpl; rewrite ?held_raise, ?Hpc; [reflexivity|].
    destruct (pollin (sub w)); reflexivity.
  - destruct f as [e|]; simpl; rewrite ?held_raise, ?Hpc; [reflexivity|].
    destruct (rx (sub w)) as [|m rest] eqn:Hrx; simpl; rewrite ?Hpc, ?Hrx; reflexivity.
  - destruct f as [e|]; simpl; rewrite ?held_raise.
    + apply sublist_app; [reflexivity|]. apply sublist_cons. reflexivity.
    + rewrite <- app_assoc. reflexivity.
  - apply sublist_app; [reflexivity|]. reflexivity.
  - rewrite held_leave. apply sublist_app; [reflexivity|]. apply sublist_nil_l.
  - rewrite ?Hpc. reflexivity.
  - rewrite ?Hpc. reflexivity.
Qed.

Lemma wf_worker_step i r f w :
  wf_worker i w -> wf_worker i (worker_step r f w).1.
Proof.
  intros [Ht Hc Hr Ho]. split; cycle 3.
  { unfold worker_step.
    destruct (w_pc w) as [| | |m|e|pend| |e] eqn:Hpc; simpl in Ho;
      repeat case_match; simpl; rewrite ?Hpc; auto.
    destruct pend; discriminate. }
  - rewrite <- Ht. unfold worker_step.
    destruct (w_pc w); repeat case_match; reflexivity.
  - eapply Forall_sublist; [apply w_chain_step|exact Hc].
  - unfold worker_step.
    destruct (w_pc w) as [| | |m|e|pend| |e] eqn:Hpc; simpl.
    + destruct r; discriminate.
    + destruct f as [e|]; simpl; [intros H; exfalso; exact (raise_not_recv _ H)|].
      destruct (pollin (sub w)) eqn:Hp; simpl; [|discriminate].
      intros _. apply pollin_true_rx, Hp.
    + destruct f as [e|]; simpl; [intros H; exfalso; exact (raise_not_recv _ H)|].
      destruct (rx (sub w)) eqn:Hrx; simpl; [|discriminate].
      intros _. exfalso. exact (Hr eq_refl eq_refl).
    + destruct f as [e|]; simpl; [intros H; exfalso; exact (raise_not_recv _ H)|].
      discriminate.
    + discriminate.
    + intros H; exfalso; exact (leave_not_recv _ H).
    + rewrite ?Hpc. discriminate.
    + rewrite ?Hpc. discriminate.
Qed.

Lemma has_frames_step r f w :
  has_frames w = true -> has_frames (worker_step r f w).1 = true.
Proof.
  unfold has_frames, worker_step.
  destruct (pipe (push w)) as [|x rest] eqn:Hp; [discriminate|]. intros _.
  destruct (w_pc w); repeat case_match; simpl in *; rewrite ?Hp in *; simplify_eq;
    try reflexivity; try discriminate.
Qed.

Lemma w_chain_deliver i m w :
  wf_worker i w ->
  w_pc (deliver_to m w) = w_pc w /\
  pipe (push (deliver_to m w)) = pipe (push w) /\
  (w_chain (deliver_to m w) = w_chain w \/
   (w_chain (deliver_to m w) = w_chain w ++ [m] /\ matches i m)).
Proof.
  intros [Ht _ _ _]. split; [reflexivity|]. split; [reflexivity|].
  unfold w_chain; simpl.
  destruct (deliver_rx m (sub w)) as [->|[-> Hp]]; [auto|].
  right. rewrite !app_assoc. split; [reflexivity|].
  unfold matches. rewrite <- Ht. exact Hp.
Qed.

Lemma wf_worker_deliver i m w : wf_worker i w -> wf_worker i (deliver_to m w).
Proof.
  intros Hw. destruct (w_chain_deliver i m w Hw) as (Hpc & Hpipe & Hch).
  destruct Hw as [Ht Hc Hr Ho]. split; cycle 3.
  { simpl. intros H. specialize (Ho H). unfold deliver. rewrite Ho.
    case_match; simpl; first [exact Ho|reflexivity]. }
  - simpl. rewrite deliver_subscription. exact Ht.
  - destruct Hch as [->|[-> Hm]]; [exact Hc|].
    apply Forall_app; split; [exact Hc|]. constructor; [exact Hm|constructor].
  - simpl. intros H. specialize (Hr H).
    destruct (deliver_rx m (sub w)) as [->|[-> _]]; [exact Hr|].
    intros Heq. apply app_eq_nil in Heq as [_ ?]. discriminate.
Qed.

Lemma wf_worker_take i w : wf_worker i w -> wf_worker i (take w).
Proof.
  intros [Ht Hc Hr Ho]. split; [exact Ht| |exact Hr|exact Ho].
  eapply Forall_sublist; [|exact Hc]. unfold w_chain; simpl.
  apply sublist_app; [|reflexivity]. destruct (pipe (push w)); simpl; [reflexivity|].
  apply sublist_cons, reflexivity.
Qed.

Lemma mt_wf_initial : wf initial.
Proof.
  split; simpl.
  - reflexivity.
  - intros i w H. destruct i as [|[|[|i]]]; simpl in H; simplify_eq;
      (split; simpl; [reflexivity|constructor|discriminate|reflexivity]).
  - constructor.
  - constructor.
  - discriminate.
Qed.

Lemma pull_ready_insert (ws : list worker) i w w' :
  ws !! i = Some w -> (has_frames w = true -> has_frames w' = true) ->
  pull_ready ws = true -> pull_ready (<[i := w']> ws) = true.
Proof.
  intros Hi Hmono (j & wj & Hj & Hf)%pull_ready_true. apply pull_ready_true.
  destruct (decide (i = j)) as [<-|Hne].
  - exists i, w'. split; [apply list_lookup_insert_eq; eapply lookup_lt_Some; eauto|].
    apply Hmono. congruence.
  - exists j, wj. rewrite list_lookup_insert_ne by done. auto.
Qed.

Lemma pull_ready_alter_deliver (ws : list worker) i m :
  pull_ready ws = true -> pull_ready (alter (deliver_to m) i ws) = true.
Proof.
  intros (j & wj & Hj & Hf)%pull_ready_true. apply pull_ready_true.
  exists j. rewrite list_lookup_alter. case_decide.
  - subst. rewrite Hj. simpl. eexists; split; [reflexivity|exact Hf].
  - eauto.
Qed.

Lemma wf_same s s' :
  workers s' = workers s -> collector s' = collector s -> wf s -> wf s'.
Proof. intros Hw Hc [? ? ? ? ?]. split; rewrite ?Hw, ?Hc; assumption. Qed.

Lemma mt_wf_step e s : wf s -> wf (step e s).
Proof.
  intros Hwf. destruct e as [i m d| |i f|choice f]; simpl.
  - destruct d; [|exact Hwf]. destruct Hwf as [Hl Hw Hh Htx Hr]. split; simpl.
    + rewrite length_alter. exact Hl.
    + intros j w. rewrite list_lookup_alter. case_decide.
      * subst. destruct (workers s !! j) as [w0|] eqn:E; simpl; [|discriminate].
        intros [= <-]. apply wf_worker_deliver. eauto.
      * eauto.
    + exact Hh.
    + exact Htx.
    + intros H. apply pull_ready_alter_deliver. auto.
  - destruct Hwf as [Hl Hw Hh Htx Hr]. split; assumption.
  - destruct (workers s !! i) as [w|] eqn:Hi; [|exact Hwf].
    destruct (worker_step (_running s) f w) as [w' out] eqn:Hstep.
    assert (Hw' : w' = (worker_step (_running s) f w).1) by (rewrite Hstep; reflexivity).
    destruct Hwf as [Hl Hw Hh Htx Hr]. split; simpl.
    + rewrite length_insert. exact Hl.
    + intros j wj. destruct (decide (i = j)) as [<-|Hne].
      * rewrite list_lookup_insert_eq by (eapply lookup_lt_Some; eauto).
        intros [= <-]. rewrite Hw'. apply wf_worker_step. eauto.
      * rewrite list_lookup_insert_ne by done. eauto.
    + exact Hh.
    + exact Htx.
    + intros H. eapply pull_ready_insert; eauto.
      rewrite Hw'. apply has_frames_step.
  - unfold collector_step.
    destruct (c_pc (collector s)) as [| | |m|e|pend| |e] eqn:Hpc; simpl.
    + destruct Hwf as [Hl Hw Hh Htx Hr].
      destruct (_running s); split; simpl; try assumption; try discriminate; constructor.
    + destruct Hwf as [Hl Hw Hh Htx Hr]. destruct f as [e|]; split; simpl;
        try assumption; rewrite ?held_raise; try constructor.
      * intros H; exfalso; exact (raise_not_recv _ H).
      * destruct (pull_ready (workers s)); constructor.
      * destruct (pull_ready (workers s)) eqn:Hp; [reflexivity|discriminate].
    + destruct f as [e|]; simpl.
      { destruct Hwf as [Hl Hw Hh Htx Hr]. split; simpl;
        try assumption; rewrite ?held_raise; try constructor.
        intros H; exfalso; exact (raise_not_recv _ H). }
      destruct (pick choice (workers s)) as [j|] eqn:Hpick; simpl;
        [|apply (wf_same s); [reflexivity|reflexivity|exact Hwf]].
      destruct (pick_Some _ _ _ Hpick) as (w & Hj & Hf).
      apply has_frames_pipe in Hf as (m & rest & Hp).
      rewrite Hj. simpl. rewrite Hp. simpl.
      pose proof (lookup_lt_Some _ _ _ Hj) as Hlt.
      destruct Hwf as [Hl Hw Hh Htx Hr]. split; simpl.
      * rewrite length_alter. exact Hl.
      * intros k wk. rewrite list_lookup_alter. case_decide.
        -- subst. rewrite Hj. simpl. intros [= <-]. apply wf_worker_take; eauto.
        -- eauto.
      * constructor; [|constructor]. exists j. split; [lia|].
        pose proof (wfw_chain _ _ (Hw _ _ Hj)) as Hc. unfold w_chain in Hc.
        rewrite Hp in Hc. simpl in Hc. apply Forall_cons in Hc as [Hm _]. exact Hm.
      * exact Htx.
      * discriminate.
    + destruct Hwf as [Hl Hw Hh Htx Hr]. destruct f as [e|]; split; simpl;
        try assumption; rewrite ?held_raise; try constructor; try discriminate.
      * intros H; exfalso; exact (raise_not_recv _ H).
      * apply Forall_app. split; [exact Htx|]. rewrite Hpc in Hh. exact Hh.
    + destruct Hwf as [Hl Hw Hh Htx Hr]. split; simpl; try assumption;
        try constructor; discriminate.
    + destruct Hwf as [Hl Hw Hh Htx Hr]. split; simpl; try assumption;
        rewrite ?held_leave; try constructor.
      intros H; exfalso; exact (leave_not_recv _ H).
    + apply (wf_same s); [reflexivity|reflexivity|exact Hwf].
    + apply (wf_same s); [reflexivity|reflexivity|exact Hwf].
Qed.

Lemma mt_wf_run tr s : wf s -> wf (run tr s).
Proof.
  revert s. induction tr as [|e tr IH]; intros s H; [exact H|].
  rewrite mt_run_cons. apply IH, mt_wf_step, H.
Qed.

Lemma chain_collector_step i choice f s :
  wf s -> i < length sensor_ports ->
  chain i (step (EvCollector choice f) s) `sublist_of` chain i s.
Proof.
  intros Hwf Hi. unfold chain, downstream. simpl. unfold collector_step.
  destruct (c_pc (collector s)) as [| | |m|e|pend| |e] eqn:Hpc; simpl.
  - destruct (_running s); simpl; reflexivity.
  - destruct f as [e|]; simpl; rewrite ?held_raise; [reflexivity|].
    destruct (pull_ready (workers s)); reflexivity.
  - destruct f as [e|]; simpl; rewrite ?held_raise; [reflexivity|].
    destruct (pick choice (workers s)) as [j|] eqn:Hpick; simpl;
      [|rewrite Hpc; reflexivity].
    destruct (pick_Some _ _ _ Hpick) as (w & Hj & Hf).
    apply has_frames_pipe in Hf as (m & rest & Hp).
    rewrite Hj. simpl. rewrite Hp. simpl.
    apply sublist_app; [reflexivity|].
    pose proof (lookup_lt_Some _ _ _ Hj) as Hlt.
    pose proof (wf_len _ Hwf) as Hlen.
    pose proof (wfw_chain _ _ (wf_workers _ Hwf _ _ Hj)) as Hc. unfold w_chain in Hc.
    rewrite Hp in Hc. simpl in Hc. apply Forall_cons in Hc as [Hm _].
    change (filter (matches i) [m]) with (if decide (matches i m) then [m] else []).
    rewrite list_lookup_alter. destruct (decide (j = i)) as [->|Hne].
    + rewrite decide_True by exact Hm. rewrite Hj. simpl.
      unfold w_chain; simpl. rewrite Hp. reflexivity.
    + rewrite decide_False by (eapply (mt_topics_exclusive j i); eauto; lia).
      reflexivity.
  - destruct f as [e|]; simpl; rewrite ?held_raise.
    + apply sublist_app; [reflexivity|]. simpl. apply sublist_inserts_l. reflexivity.
    + rewrite filter_app, <- app_assoc. reflexivity.
  - reflexivity.
  - rewrite held_leave. reflexivity.
  - rewrite Hpc. reflexivity.
  - rewrite Hpc. reflexivity.
Qed.

Lemma chain_worker_step i j f s :
  chain i (step (EvWorker j f) s) `sublist_of` chain i s.
Proof.
  simpl. destruct (workers s !! j) as [w|] eqn:Hj; [|reflexivity].
  destruct (worker_step (_running s) f w) as [w' out] eqn:Hstep.
  unfold chain, downstream; simpl.
  apply sublist_app; [reflexivity|]. apply sublist_app; [reflexivity|].
  destruct (decide (j = i)) as [->|Hne].
  - rewrite list_lookup_insert_eq by (eapply lookup_lt_Some; eauto).
    rewrite Hj. simpl.
    replace w' with (worker_step (_running s) f w).1 by (rewrite Hstep; reflexivity).
    apply w_chain_step.
  - rewrite list_lookup_insert_ne by done. reflexivity.
Qed.

Lemma mt_chain_step i tr e s :
  wf s -> i < length sensor_ports ->
  chain i s `sublist_of` produced i tr ->
  chain i (step e s) `sublist_of` produced i (tr ++ [e]).
Proof.
  intros Hwf Hi Hch. rewrite mt_produced_snoc. destruct e as [j m d| |j f|choice f].
  - simpl. destruct d.
    + unfold chain in *. unfold downstream in *; simpl.
      rewrite list_lookup_alter. destruct (decide (j = i)) as [->|Hne].
      * destruct (workers s !! i) as [w|] eqn:Hw; simpl in *.
        -- destruct (w_chain_deliver i m w (wf_workers _ Hwf _ _ Hw))
             as (_ & _ & [->|[-> _]]).
           ++ apply sublist_inserts_r, Hch.
           ++ rewrite !app_assoc. apply sublist_app; [|reflexivity].
              rewrite <- !app_assoc. exact Hch.
        -- apply sublist_inserts_r, Hch.
      * rewrite app_nil_r. exact Hch.
    + apply sublist_inserts_r, Hch.
  - simpl. rewrite app_nil_r. exact Hch.
  - simpl produced. rewrite app_nil_r. etrans; [apply chain_worker_step|exact Hch].
  - simpl produced. rewrite app_nil_r.
    etrans; [apply chain_collector_step; assumption|exact Hch].
Qed.

Lemma mt_chain_run i tr :
  i < length sensor_ports ->
  chain i (run tr initial) `sublist_of` produced i tr.
Proof.
  intros Hi. induction tr as [|e tr IH] using rev_ind.
  - destruct i as [|[|[|i]]]; simpl in Hi; try lia; reflexivity.
  - rewrite mt_run_snoc. apply mt_chain_step; [apply mt_wf_run, mt_wf_initial|exact Hi|exact IH].
Qed.

Lemma mt_downstream_in_order tr i :
  i < length sensor_ports ->
  downstream i (run tr initial) `sublist_of` produced i tr.
Proof.
  intros Hi. etrans; [|apply mt_chain_run; exact Hi].
  unfold chain. apply sublist_inserts_r. reflexivity.
Qed.

(* --- frame conditions --- *)
Lemma worker_pc_other i e s :
  is_worker_step i e = false -> worker_pc i (step e s) = worker_pc i s.
Proof.
  unfold worker_pc. destruct e as [j m d| |j f|choice f]; simpl.
  - intros _. destruct d; [|reflexivity]. simpl.
    rewrite list_lookup_alter. case_decide; [subst|reflexivity].
    destruct (workers s !! i); reflexivity.
  - reflexivity.
  - intros Hne. apply bool_decide_eq_false in Hne.
    destruct (workers s !! j) as [w|]; [|reflexivity].
    destruct (worker_step (_running s) f w) as [w' out]. simpl.
    rewrite list_lookup_insert_ne by done. reflexivity.
  - intros _. unfold collector_step.
    destruct (c_pc (collector s)); repeat case_match; simplify_eq; simpl; try reflexivity.
    rewrite list_lookup_alter. case_decide; [subst|reflexivity].
    destruct (workers s !! i); reflexivity.
Qed.

Lemma collector_pc_other e s :
  is_collector_step e = false ->
  collector (step e s) = collector s.
Proof.
  destruct e as [j m d| |j f|choice f]; simpl; try discriminate; intros _.
  - destruct d; reflexivity.
  - reflexivity.
  - destruct (workers s !! j) as [w|]; [|reflexivity].
    destruct (worker_step (_running s) f w) as [w' out]. reflexivity.
Qed.

Lemma mt_stays_stopped e s : _running s = false -> _running (step e s) = false.
Proof.
  intros H. destruct e as [i m d| |i f|choice f]; simpl.
  - destruct d; simpl; exact H.
  - reflexivity.
  - destruct (workers s !! i) as [w|]; [|exact H].
    destruct (worker_step (_running s) f w) as [w' out]. exact H.
  - destruct (collector_step _ _ _ _ _) as [[ws c] out]. exact H.
Qed.

(* --- waits --- *)
Lemma worker_wait_cases k hwm c i w x :
  wf_worker i w -> worker_wait k hwm c w = Some x ->
  x = poll_wait (Some 1000%Z) k \/
  (x = Unbounded /\ exists m, w_pc w = AtSend m /\
     push_blocks hwm (pull_closed c) (length (pipe (push w))) = true).
Proof.
  intros [_ _ Hr _]. unfold worker_wait.
  destruct (w_pc w) eqn:Hpc; try discriminate.
  - intros [= <-]. left. reflexivity.
  - destruct (rx (sub w)) eqn:Hrx; [|discriminate]. exfalso. exact (Hr eq_refl eq_refl).
  - destruct (push_blocks _ _ _) eqn:Hb; [|discriminate].
    intros [= <-]. right. split; [reflexivity|]. eauto.
Qed.

Lemma collector_wait_bounded k s x :
  wf s -> collector_wait k (workers s) (collector s) = Some x ->
  x = poll_wait (Some 1000%Z) k.
Proof.
  intros Hwf. unfold collector_wait.
  destruct (c_pc (collector s)) eqn:Hpc; try discriminate.
  - intros [= <-]. reflexivity.
  - rewrite (wf_recv s Hwf Hpc). discriminate.
Qed.

(* --- rank --- *)
Lemma rank_raise_le e : rank (raise e) <= 2.
Proof. destruct e; simpl; lia. Qed.

Lemma rank_leave p : rank (leave p) = 0.
Proof. destruct p; reflexivity. Qed.

Lemma worker_rank_step i f w :
  wf_worker i w -> finished (w_pc w) = false ->
  rank (w_pc (worker_step false f w).1) < rank (w_pc w).
Proof.
  intros [_ _ Hr _] Hfin. unfold worker_step.
  destruct (w_pc w) as [| | |m|e|pend| |e] eqn:Hpc; simpl in *; try discriminate.
  - lia.
  - destruct f as [e|]; simpl; [pose proof (rank_raise_le e); lia|].
    destruct (pollin (sub w)); simpl; lia.
  - destruct f as [e|]; simpl; [pose proof (rank_raise_le e); lia|].
    destruct (rx (sub w)) eqn:Hrx; simpl; [exfalso; exact (Hr eq_refl eq_refl)|lia].
  - destruct f as [e|]; simpl; [pose proof (rank_raise_le e); lia|lia].
  - lia.
  - rewrite rank_leave. lia.
Qed.

Lemma collector_rank_step choice f ws c :
  (c_pc c = AtRecv -> pull_ready ws = true) -> finished (c_pc c) = false ->
  rank (c_pc (collector_step false choice f ws c).1.2) < rank (c_pc c).
Proof.
  intros Hr Hfin. unfold collector_step.
  destruct (c_pc c) as [| | |m|e|pend| |e] eqn:Hpc; simpl in *; try discriminate.
  - lia.
  - destruct f as [e|]; simpl; [pose proof (rank_raise_le e); lia|].
    destruct (pull_ready ws); simpl; lia.
  - destruct f as [e|]; simpl; [pose proof (rank_raise_le e); lia|].
    destruct (pick_ready choice ws (Hr eq_refl)) as [j Hj]. rewrite Hj.
    destruct (pick_Some _ _ _ Hj) as (w & Hw & Hf).
    apply has_frames_pipe in Hf as (m & rest & Hp).
    rewrite Hw. simpl. rewrite Hp. simpl. lia.
  - destruct f as [e|]; simpl; [pose proof (rank_raise_le e); lia|lia].
  - lia.
  - rewrite rank_leave. lia.
Qed.

Lemma mt_rank_zero p : rank p = 0 -> finished p = true.
Proof. destruct p; simpl; try reflexivity; lia. Qed.

Lemma mt_rank_bound p : rank p <= 5.
Proof. destruct p; simpl; lia. Qed.

Lemma worker_finished_step i e s w :
  workers s !! i = Some w -> finished (w_pc w) = true ->
  exists w', workers (step e s) !! i = Some w' /\ finished (w_pc w') = true.
Proof.
  intros Hi Hfin.
  destruct (is_worker_step i e) eqn:He.
  - destruct e as [j m d| |j f|choice f]; try discriminate.
    apply bool_decide_eq_true in He. subst j. simpl. rewrite Hi.
    unfold worker_step. destruct (w_pc w) eqn:Hpc; try discriminate; simpl.
    + exists w. rewrite list_lookup_insert_eq by (eapply lookup_lt_Some; eauto).
      rewrite Hpc. auto.
    + exists w. rewrite list_lookup_insert_eq by (eapply lookup_lt_Some; eauto).
      rewrite Hpc. auto.
  - pose proof (worker_pc_other i e s He) as Hpc. unfold worker_pc in Hpc.
    rewrite Hi in Hpc. simpl in Hpc.
    destruct (workers (step e s) !! i) as [w'|]; [|discriminate].
    exists w'. split; [reflexivity|]. simpl in Hpc. congruence.
Qed.

Lemma worker_steps_in_cons i e tr :
  worker_steps_in i (e :: tr) =
    (if is_worker_step i e then 1 else 0) + worker_steps_in i tr.
Proof.
  unfold worker_steps_in. rewrite filter_cons. destruct (is_worker_step i e).
  - rewrite decide_True by reflexivity. reflexivity.
  - rewrite decide_False by discriminate. reflexivity.
Qed.

Lemma collector_steps_in_cons e tr :
  collector_steps_in (e :: tr) =
    (if is_collector_step e then 1 else 0) + collector_steps_in tr.
Proof.
  unfold collector_steps_in. rewrite filter_cons. destruct (is_collector_step e).
  - rewrite decide_True by reflexivity. reflexivity.
  - rewrite decide_False by discriminate. reflexivity.
Qed.

Lemma worker_exits i tr s w :
  wf s -> _running s = false -> workers s !! i = Some w ->
  rank (w_pc w) <= worker_steps_in i tr ->
  exists w', workers (run tr s) !! i = Some w' /\ finished (w_pc w') = true.
Proof.
  revert s w. induction tr as [|e tr IH]; intros s w Hwf Hrun Hi Hrank.
  - exists w. split; [exact Hi|]. apply mt_rank_zero.
    change (worker_steps_in i []) with 0 in Hrank. lia.
  - rewrite mt_run_cons. rewrite worker_steps_in_cons in Hrank.
    destruct (finished (w_pc w)) eqn:Hfin.
    { destruct (worker_finished_step i e s w Hi Hfin) as (w1 & Hw1 & Hf1).
      apply (IH _ w1); [apply mt_wf_step, Hwf|apply mt_stays_stopped, Hrun|exact Hw1|].
      destruct (w_pc w1); try discriminate; simpl; lia. }
    destruct (is_worker_step i e) eqn:He.
    + destruct e as [j m d| |j f|choice f]; try discriminate.
      apply bool_decide_eq_true in He. subst j.
      pose proof (worker_rank_step i f w (wf_workers s Hwf i w Hi) Hfin) as Hlt.
      apply (IH _ (worker_step false f w).1);
        [apply mt_wf_step, Hwf|apply mt_stays_stopped, Hrun| |lia].
      simpl. rewrite Hi, Hrun.
      destruct (worker_step false f w) as [w' out]. simpl.
      apply list_lookup_insert_eq. eapply lookup_lt_Some; eauto.
    + pose proof (worker_pc_other i e s He) as Hpc. unfold worker_pc in Hpc.
      rewrite Hi in Hpc. simpl in Hpc.
      destruct (workers (step e s) !! i) as [w1|] eqn:Hw1; [|discriminate].
      simpl in Hpc. injection Hpc as Hpc.
      apply (IH _ w1); [apply mt_wf_step, Hwf|apply mt_stays_stopped, Hrun|exact Hw1|].
      rewrite Hpc. lia.
Qed.

Lemma collector_finished_step e s :
  finished (c_pc (collector s)) = true ->
  finished (c_pc (collector (step e s))) = true.
Proof.
  intros Hfin. destruct (is_collector_step e) eqn:He.
  - destruct e as [j m d| |j f|choice f]; try discriminate. simpl.
    unfold collector_step.
    destruct (c_pc (collector s)) eqn:Hpc; try discriminate; simpl; rewrite Hpc; reflexivity.
  - rewrite collector_pc_other by exact He. exact Hfin.
Qed.

Lemma collector_exits tr s :
  wf s -> _running s = false ->
  rank (c_pc (collector s)) <= collector_steps_in tr ->
  finished (c_pc (collector (run tr s))) = true.
Proof.
  revert s. induction tr as [|e tr IH]; intros s Hwf Hrun Hrank.
  - apply mt_rank_zero. change (collector_steps_in []) with 0 in Hrank.
    change (run [] s) with s. lia.
  - rewrite mt_run_cons. rewrite collector_steps_in_cons in Hrank.
    destruct (finished (c_pc (collector s))) eqn:Hfin.
    { apply IH; [apply mt_wf_step, Hwf|apply mt_stays_stopped, Hrun|].
      pose proof (collector_finished_step e s Hfin) as H1.
      destruct (c_pc (collector (step e s))); try discriminate; simpl; lia. }
    apply IH; [apply mt_wf_step, Hwf|apply mt_stays_stopped, Hrun|].
    destruct (is_collector_step e) eqn:He.
    + destruct e as [j m d| |j f|choice f]; try discriminate.
      pose proof (collector_rank_step choice f (workers s) (collector s)
                    (wf_recv s Hwf) Hfin) as Hlt.
      simpl. rewrite Hrun.
      destruct (collector_step false choice f (workers s) (collector s))
        as [[ws c] out]. simpl in *. lia.
    + rewrite collector_pc_other by exact He. lia.
Qed.

(* --- polls after the flag is cleared --- *)
Lemma raise_not_poll e : raise e <> AtPoll.
Proof. destruct e; discriminate. Qed.

Lemma leave_not_poll p : leave p <> AtPoll.
Proof. destruct p; discriminate. Qed.

Lemma worker_step_not_poll f w :
  w_pc (worker_step false f w).1 <> AtPoll.
Proof.
  unfold worker_step.
  destruct (w_pc w) eqn:Hpc; simpl; try discriminate.
  - destruct f as [e|]; simpl; [apply raise_not_poll|].
    destruct (pollin (sub w)); discriminate.
  - destruct f as [e|]; simpl; [apply raise_not_poll|].
    destruct (rx (sub w)); simpl; rewrite ?Hpc; discriminate.
  - destruct f as [e|]; simpl; [apply raise_not_poll|discriminate].
  - apply leave_not_poll.
  - rewrite Hpc. discriminate.
  - rewrite Hpc. discriminate.
Qed.

Lemma collector_step_not_poll choice f ws c :
  c_pc (collector_step false choice f ws c).1.2 <> AtPoll.
Proof.
  unfold collector_step.
  destruct (c_pc c) eqn:Hpc; simpl; try discriminate.
  - destruct f as [e|]; simpl; [apply raise_not_poll|].
    destruct (pull_ready ws); discriminate.
  - destruct f as [e|]; simpl; [apply raise_not_poll|].
    destruct (pick choice ws) as [j|]; simpl; [|rewrite Hpc; discriminate].
    destruct (head _); simpl; rewrite ?Hpc; discriminate.
  - destruct f as [e|]; simpl; [apply raise_not_poll|discriminate].
  - apply leave_not_poll.
  - rewrite Hpc. discriminate.
  - rewrite Hpc. discriminate.
Qed.

Lemma worker_not_poll_step i e s :
  _running s = false -> at_poll (worker_pc i s) = false ->
  at_poll (worker_pc i (step e s)) = false.
Proof.
  intros Hrun Hpc. destruct (is_worker_step i e) eqn:He.
  - destruct e as [j m d| |j f|choice f]; try discriminate.
    apply bool_decide_eq_true in He. subst j. unfold worker_pc. simpl.
    destruct (workers s !! i) as [w|] eqn:Hi; [|rewrite Hi; reflexivity].
    rewrite Hrun. pose proof (worker_step_not_poll f w) as Hn.
    destruct (worker_step false f w) as [w' out]. simpl in *.
    rewrite list_lookup_insert_eq by (eapply lookup_lt_Some; eauto). simpl.
    destruct (w_pc w'); try reflexivity. exfalso. apply Hn. reflexivity.
  - rewrite worker_pc_other by exact He. exact Hpc.
Qed.

Lemma worker_polls_none i tr s :
  _running s = false -> at_poll (worker_pc i s) = false ->
  worker_polls i tr s = 0.
Proof.
  revert s. induction tr as [|e tr IH]; intros s Hrun Hpc; [reflexivity|].
  simpl. rewrite Hpc, andb_false_r.
  apply IH; [apply mt_stays_stopped, Hrun|apply worker_not_poll_step; assumption].
Qed.

Lemma worker_polls_after_stop i tr s :
  _running s = false -> worker_polls i tr s <= 1.
Proof.
  revert s. induction tr as [|e tr IH]; intros s Hrun; [simpl; lia|].
  simpl. destruct (is_worker_step i e) eqn:He; simpl.
  - destruct (at_poll (worker_pc i s)) eqn:Hpc.
    + rewrite worker_polls_none; [lia|apply mt_stays_stopped, Hrun|].
      destruct e as [j m d| |j f|choice f]; try discriminate.
      apply bool_decide_eq_true in He. subst j. unfold worker_pc. simpl.
      destruct (workers s !! i) as [w|] eqn:Hi; [|rewrite Hi; reflexivity].
      rewrite Hrun. pose proof (worker_step_not_poll f w) as Hn.
      destruct (worker_step false f w) as [w' out]. simpl in *.
      rewrite list_lookup_insert_eq by (eapply lookup_lt_Some; eauto). simpl.
      destruct (w_pc w'); try reflexivity. exfalso. apply Hn. reflexivity.
    + apply IH, mt_stays_stopped, Hrun.
  - apply IH, mt_stays_stopped, Hrun.
Qed.

Lemma collector_not_poll_step e s :
  _running s = false -> c_pc (collector s) <> AtPoll ->
  c_pc (collector (step e s)) <> AtPoll.
Proof.
  intros Hrun Hpc. destruct (is_collector_step e) eqn:He.
  - destruct e as [j m d| |j f|choice f]; try discriminate. simpl. rewrite Hrun.
    pose proof (collector_step_not_poll choice f (workers s) (collector s)) as Hn.
    destruct (collector_step false choice f (workers s) (collector s)) as [[ws c] out].
    simpl in *. exact Hn.
  - rewrite collector_pc_other by exact He. exact Hpc.
Qed.

Lemma collector_polls_none tr s :
  _running s = false -> c_pc (collector s) <> AtPoll ->
  collector_polls tr s = 0.
Proof.
  revert s. induction tr as [|e tr IH]; intros s Hrun Hpc; [reflexivity|].
  simpl. rewrite IH by
    (first [apply mt_stays_stopped, Hrun|apply collector_not_poll_step; assumption]).
  destruct (c_pc (collector s)); try congruence; rewrite andb_false_r; reflexivity.
Qed.

Lemma collector_polls_after_stop tr s :
  _running s = false -> collector_polls tr s <= 1.
Proof.
  revert s. induction tr as [|e tr IH]; intros s Hrun; [simpl; lia|].
  simpl. destruct (is_collector_step e) eqn:He; simpl.
  - destruct (c_pc (collector s)) eqn:Hpc; simpl;
      try (apply IH, mt_stays_stopped, Hrun).
    rewrite collector_polls_none; [lia|apply mt_stays_stopped, Hrun|].
    destruct e as [j m d| |j f|choice f]; try discriminate. simpl. rewrite Hrun.
    pose proof (collector_step_not_poll choice f (workers s) (collector s)) as Hn.
    destruct (collector_step false choice f (workers s) (collector s)) as [[ws c] out].
    simpl in *. exact Hn.
  - apply IH, mt_stays_stopped, Hrun.
Qed.

(* --- a transport error in a thread --- *)
Lemma worker_error_handled s i w e :
  workers s !! i = Some w -> calls_transport (w_pc w) = true ->
  run [EvWorker i (Some (ZMQError e)); EvWorker i None; EvWorker i None] s =
  mkState (_running s)
    (<[i := mkWorker (thread_name w) (close_sub (sub w))
                     (mkPush (pipe (push w)) true) (count w) Returned]> (workers s))
    (collector s)
    (log s
       ++ (if _running s
           then [(ERROR, MsgWorkerError (thread_name w) (ZMQError e))] else [])
       ++ [(INFO, MsgWorkerShuttingDown (thread_name w) (count w))]).
Proof.
  intros Hi Hcall. pose proof (lookup_lt_Some _ _ _ Hi) as Hlt.
  unfold run. cbn [foldl]. unfold step at 3. rewrite Hi.
  assert (H1 : worker_step (_running s) (Some (ZMQError e)) w
               = (w_goto (AtExcept (ZMQError e)) w, [])).
  { unfold worker_step. destruct (w_pc w); try discriminate; reflexivity. }
  rewrite H1. unfold step at 2. cbn [workers _running collector log].
  rewrite list_lookup_insert_eq by exact Hlt.
  cbn [worker_step w_goto w_pc thread_name sub push count].
  unfold step. cbn [workers _running collector log].
  rewrite list_lookup_insert_eq by (rewrite length_insert; exact Hlt).
  cbn [worker_step w_goto w_pc thread_name sub push count leave].
  rewrite !list_insert_insert_eq, app_nil_r, <- app_assoc. reflexivity.
Qed.

Lemma collector_error_handled s choice e :
  calls_transport (c_pc (collector s)) = true ->
  run [EvCollector choice (Some (ZMQError e)); EvCollector choice None;
       EvCollector choice None] s =
  mkState (_running s) (workers s)
    (mkCollector true (close_pub (pub (collector s)))
                 (event_count (collector s)) Returned)
    (log s
       ++ (if _running s then [(ERROR, MsgCollectorError (ZMQError e))] else [])
       ++ [(INFO, MsgCollectorShuttingDown (event_count (collector s)))]).
Proof.
  intros Hcall. unfold run. cbn [foldl]. unfold step at 3.
  assert (H1 : collector_step (_running s) choice (Some (ZMQError e)) (workers s) (collector s)
               = (workers s, c_goto (AtExcept (ZMQError e)) (collector s), [])).
  { unfold collector_step. destruct (c_pc (collector s)); try discriminate; reflexivity. }
  rewrite H1. unfold step. cbn. rewrite app_nil_r, <- app_assoc. reflexivity.
Qed.

(* --- the forwarding statements --- *)
Lemma worker_forward_step s i w m rest :
  workers s !! i = Some w -> w_pc w = AtRecv -> rx (sub w) = m :: rest ->
  run [EvWorker i None; EvWorker i None] s =
  mkState (_running s)
    (<[i := mkWorker (thread_name w) (pop (sub w))
                     (mkPush (pipe (push w) ++ [m]) (push_closed (push w)))
                     (count w + 1) AtWhile]> (workers s))
    (collector s)
    (log s ++ [(DEBUG, MsgForwarded (thread_name w) (count w + 1))]).
Proof.
  intros Hi Hpc Hrx. pose proof (lookup_lt_Some _ _ _ Hi) as Hlt.
  unfold run. cbn [foldl]. unfold step at 2. rewrite Hi.
  unfold worker_step at 1. rewrite Hpc, Hrx.
  unfold step. cbn [workers _running collector log].
  rewrite list_lookup_insert_eq by exact Hlt.
  cbn. rewrite list_insert_insert_eq, app_nil_r. reflexivity.
Qed.

Lemma collector_forward_step s choice j w m rest :
  c_pc (collector s) = AtRecv -> pick choice (workers s) = Some j ->
  workers s !! j = Some w -> pipe (push w) = m :: rest ->
  run [EvCollector choice None; EvCollector choice None] s =
  mkState (_running s) (alter take j (workers s))
    (mkCollector (pull_closed (collector s)) (send m (pub (collector s)))
                 (event_count (collector s) + 1) AtWhile)
    (log s ++ [(INFO, MsgForward (event_count (collector s) + 1)
                                 (first_token m) (String.length m))]).
Proof.
  intros Hpc Hpick Hj Hp. unfold run. cbn [foldl]. unfold step at 2.
  unfold collector_step at 1. rewrite Hpc, Hpick, Hj.
  cbn [fmap option_fmap option_map default].
  rewrite Hp. cbn [head]. unfold step. cbn. rewrite app_nil_r. reflexivity.
Qed.

Lemma mt_tx_produced tr m :
  m ∈ tx (pub (collector (run tr initial))) ->
  exists i, i < length sensor_ports /\ matches i m /\ m ∈ produced i tr.
Proof.
  intros Hin.
  pose proof (wf_tx _ (mt_wf_run tr _ mt_wf_initial)) as Hk.
  rewrite Forall_forall in Hk. destruct (Hk _ Hin) as (i & Hi & Hm).
  exists i. split; [exact Hi|]. split; [exact Hm|].
  eapply elem_of_sublist; [|apply mt_downstream_in_order; exact Hi].
  unfold downstream. apply list_elem_of_filter. auto.
Qed.

Lemma w_run_add n1 n2 w : w_run (n1 + n2) w = w_run n2 (w_run n1 w).
Proof. revert w. induction n1 as [|n1 IH]; intros w; [reflexivity|]. simpl. apply IH. Qed.

Lemma c_run_add j n1 n2 x : c_run j (n1 + n2) x = c_run j n2 (c_run j n1 x).
Proof. revert x. induction n1 as [|n1 IH]; intros x; [reflexivity|]. simpl. apply IH. Qed.

(* a worker standing at the loop test moves everything it has queued into
   its pipe *)
Lemma w_drain_while q w :
  w_pc w = AtWhile -> rx (sub w) = q ->
  exists n, w_pc (w_run n w) = AtWhile /\ rx (sub (w_run n w)) = [] /\
            pipe (push (w_run n w)) = pipe (push w) ++ q.
Proof.
  revert w. induction q as [|m q IH]; intros w Hpc Hrx.
  - exists 0. simpl. rewrite app_nil_r. auto.
  - destruct w as [name [topic rxq closed] [pp pcl] cnt pc0]. simpl in *. subst.
    set (w4 := mkWorker name (mkSub topic q closed) (mkPush (pp ++ [m]) pcl)
                        (cnt + 1) AtWhile).
    destruct (IH w4 eq_refl eq_refl) as (n & H1 & H2 & H3).
    exists (4 + n). rewrite w_run_add.
    change (w_run 4 _) with w4.
    rewrite H1, H2, H3. simpl. rewrite <- app_assoc. auto.
Qed.

Lemma w_drain i w :
  wf_worker i w -> in_loop (w_pc w) = true ->
  exists n, w_pc (w_run n w) = AtWhile /\ rx (sub (w_run n w)) = [] /\
            pipe (push (w_run n w)) = w_chain w.
Proof.
  intros [_ _ Hr _] Hloop. unfold w_chain.
  destruct w as [name [topic rxq closed] [pp pcl] cnt pc0]. simpl in *.
  destruct pc0 as [| | |m| | | |]; try discriminate.
  - destruct (w_drain_while rxq (mkWorker name (mkSub topic rxq closed) (mkPush pp pcl) cnt AtWhile)
                eq_refl eq_refl) as (n & H1 & H2 & H3).
    exists n. simpl in *. auto.
  - destruct rxq as [|m q].
    + exists 1. simpl. rewrite app_nil_r. auto.
    + set (w3 := mkWorker name (mkSub topic q closed) (mkPush (pp ++ [m]) pcl)
                          (cnt + 1) AtWhile).
      destruct (w_drain_while q w3 eq_refl eq_refl) as (n & H1 & H2 & H3).
      exists (3 + n). rewrite w_run_add. change (w_run 3 _) with w3.
      rewrite H1, H2, H3. simpl. rewrite <- app_assoc. auto.
  - destruct rxq as [|m q]; [exfalso; exact (Hr eq_refl eq_refl)|].
    set (w2 := mkWorker name (mkSub topic q closed) (mkPush (pp ++ [m]) pcl)
                        (cnt + 1) AtWhile).
    destruct (w_drain_while q w2 eq_refl eq_refl) as (n & H1 & H2 & H3).
    exists (2 + n). rewrite w_run_add. change (w_run 2 _) with w2.
    rewrite H1, H2, H3. simpl. rewrite <- app_assoc. auto.
  - set (w1 := mkWorker name (mkSub topic rxq closed) (mkPush (pp ++ [m]) pcl)
                        (cnt + 1) AtWhile).
    destruct (w_drain_while rxq w1 eq_refl eq_refl) as (n & H1 & H2 & H3).
    exists (1 + n). rewrite w_run_add. change (w_run 1 _) with w1.
    rewrite H1, H2, H3. simpl. rewrite <- app_assoc. auto.
Qed.

Lemma run_worker_steps n s i w :
  _running s = true -> workers s !! i = Some w ->
  workers (run (replicate n (EvWorker i None)) s) = <[i := w_run n w]> (workers s) /\
  collector (run (replicate n (EvWorker i None)) s) = collector s /\
  _running (run (replicate n (EvWorker i None)) s) = true.
Proof.
  revert s w. induction n as [|n IH]; intros s w Hrun Hi.
  - simpl. rewrite list_insert_id by exact Hi. auto.
  - cbn [replicate]. rewrite mt_run_cons.
    pose proof (lookup_lt_Some _ _ _ Hi) as Hlt.
    assert (Hs : step (EvWorker i None) s =
                 mkState true (<[i := (worker_step true None w).1]> (workers s))
                         (collector s) (log s ++ (worker_step true None w).2)).
    { simpl. rewrite Hi, Hrun. destruct (worker_step true None w); reflexivity. }
    rewrite Hs.
    destruct (IH (mkState true (<[i := (worker_step true None w).1]> (workers s))
                          (collector s) (log s ++ (worker_step true None w).2))
                 (worker_step true None w).1 eq_refl) as (H1 & H2 & H3).
    { simpl. apply list_lookup_insert_eq, Hlt. }
    rewrite H1, H2, H3. simpl. rewrite list_insert_insert_eq. auto.
Qed.

Lemma run_collector_steps j n s :
  _running s = true ->
  (workers (run (replicate n (EvCollector j None)) s),
   collector (run (replicate n (EvCollector j None)) s))
    = c_run j n (workers s, collector s) /\
  _running (run (replicate n (EvCollector j None)) s) = true.
Proof.
  revert s. induction n as [|n IH]; intros s Hrun.
  - simpl. auto.
  - cbn [replicate]. rewrite mt_run_cons.
    assert (Hs : exists out, step (EvCollector j None) s =
                 mkState true (collector_step true j None (workers s) (collector s)).1.1
                         (collector_step true j None (workers s) (collector s)).1.2 out).
    { simpl. rewrite Hrun.
      destruct (collector_step true j None (workers s) (collector s)) as [[ws c] out].
      eexists. reflexivity. }
    destruct Hs as [out Hs]. rewrite Hs.
    destruct (IH (mkState true (collector_step true j None (workers s) (collector s)).1.1
                         (collector_step true j None (workers s) (collector s)).1.2 out)
                 eq_refl) as (H1 & H2).
    rewrite H1, H2. simpl.
    destruct (collector_step true j None (workers s) (collector s)) as [[ws c] out'].
    auto.
Qed.

Lemma pull_ready_at (ws : list worker) j w m q :
  ws !! j = Some w -> pipe (push w) = m :: q -> pull_ready ws = true.
Proof.
  intros Hj Hp. apply pull_ready_true. exists j, w. split; [exact Hj|].
  apply has_frames_pipe. eauto.
Qed.

Lemma c_run_S j n x :
  c_run j (S n) x = c_run j n (collector_step true j None x.1 x.2).1.
Proof. reflexivity. Qed.

(* the collector takes the head of pipe j and publishes it *)
Lemma c_take_from_while j (ws : list worker) c w m q :
  c_pc c = AtWhile -> ws !! j = Some w -> pipe (push w) = m :: q ->
  c_run j 4 (ws, c) =
    (alter take j ws,
     mkCollector (pull_closed c) (send m (pub c)) (event_count c + 1) AtWhile).
Proof.
  intros Hpc Hj Hp. destruct c as [plc pb cnt pc0]. simpl in Hpc. subst pc0.
  rewrite c_run_S. cbn [collector_step c_pc c_goto fst snd pull_closed pub event_count].
  rewrite c_run_S. cbn [collector_step c_pc c_goto fst snd pull_closed pub event_count].
  rewrite (pull_ready_at ws j w m q Hj Hp).
  rewrite c_run_S. cbn [collector_step c_pc c_goto fst snd pull_closed pub event_count].
  rewrite (pick_preferred j ws w Hj) by (apply has_frames_pipe; eauto).
  rewrite Hj. cbn [fmap option_fmap option_map default]. rewrite Hp. cbn [head].
  rewrite c_run_S. cbn [collector_step c_pc c_goto fst snd pull_closed pub event_count].
  reflexivity.
Qed.

Lemma c_drain_while j q : forall (ws : list worker) c w,
  c_pc c = AtWhile -> ws !! j = Some w -> pipe (push w) = q ->
  exists n, c_pc (c_run j n (ws, c)).2 = AtWhile /\
            tx (pub (c_run j n (ws, c)).2) = tx (pub c) ++ q.
Proof.
  induction q as [|m q IH]; intros ws c w Hpc Hj Hp.
  - exists 0. simpl. rewrite app_nil_r. auto.
  - destruct (IH (alter take j ws)
                 (mkCollector (pull_closed c) (send m (pub c)) (event_count c + 1) AtWhile)
                 (take w) eq_refl) as (n & H1 & H2).
    { rewrite list_lookup_alter, decide_True by reflexivity. rewrite Hj. reflexivity. }
    { simpl. rewrite Hp. reflexivity. }
    exists (4 + n). rewrite c_run_add, (c_take_from_while j ws c w m q Hpc Hj Hp).
    rewrite H1, H2. simpl. rewrite <- app_assoc. auto.
Qed.

(* from anywhere in its loop the collector publishes all of pipe j, after
   at most one frame it already held or took from another pipe *)
Lemma c_drain j (ws : list worker) c w :
  in_loop (c_pc c) = true -> (c_pc c = AtRecv -> pull_ready ws = true) ->
  ws !! j = Some w ->
  exists n pre, c_pc (c_run j n (ws, c)).2 = AtWhile /\
                tx (pub (c_run j n (ws, c)).2) = tx (pub c) ++ pre ++ pipe (push w).
Proof.
  intros Hloop Hr Hj.
  assert (Hnorm : exists n0 ws1 c1 w1 pre,
            c_run j n0 (ws, c) = (ws1, c1) /\ c_pc c1 = AtWhile /\
            ws1 !! j = Some w1 /\
            tx (pub c1) ++ pipe (push w1) = tx (pub c) ++ pre ++ pipe (push w)).
  { destruct c as [plc pb cnt pc0]. simpl in *.
    destruct pc0 as [| | |m0| | | |]; try discriminate.
    - exists 0, ws, (mkCollector plc pb cnt AtWhile), w, []. simpl. auto.
    - (* AtPoll *)
      destruct (pull_ready ws) eqn:Hrdy.
      + destruct (pick_ready j ws Hrdy) as [k Hk].
        destruct (pick_Some _ _ _ Hk) as (wk & Hwk & Hf).
        apply has_frames_pipe in Hf as (mk & rest & Hpk).
        exists 3, (alter take k ws),
          (mkCollector plc (send mk pb) (cnt + 1) AtWhile).
        destruct (decide (k = j)) as [->|Hne].
        * exists (take w), []. rewrite Hj in Hwk. injection Hwk as <-.
          split.
          { rewrite c_run_S. cbn [collector_step c_pc c_goto fst snd pull_closed pub event_count].
            rewrite Hrdy.
            rewrite c_run_S. cbn [collector_step c_pc c_goto fst snd pull_closed pub event_count].
            rewrite Hk, Hj. cbn [fmap option_fmap option_map default]. rewrite Hpk. cbn [head].
            rewrite c_run_S. cbn [collector_step c_pc c_goto fst snd pull_closed pub event_count].
            reflexivity. }
          split; [reflexivity|]. split.
          { rewrite list_lookup_alter, decide_True by reflexivity. rewrite Hj. reflexivity. }
          simpl. rewrite Hpk. simpl. rewrite <- app_assoc. reflexivity.
        * exists w, [mk]. split.
          { rewrite c_run_S. cbn [collector_step c_pc c_goto fst snd pull_closed pub event_count].
            rewrite Hrdy.
            rewrite c_run_S. cbn [collector_step c_pc c_goto fst snd pull_closed pub event_count].
            rewrite Hk, Hwk. cbn [fmap option_fmap option_map default]. rewrite Hpk. cbn [head].
            rewrite c_run_S. cbn [collector_step c_pc c_goto fst snd pull_closed pub event_count].
            reflexivity. }
          split; [reflexivity|]. split.
          { rewrite list_lookup_alter_ne by done. exact Hj. }
          simpl. rewrite <- !app_assoc. reflexivity.
      + exists 1, ws, (mkCollector plc pb cnt AtWhile), w, []. split.
        { rewrite c_run_S. cbn [collector_step c_pc c_goto fst snd pull_closed pub event_count].
          rewrite Hrdy. reflexivity. }
        simpl. auto.
    - (* AtRecv *)
      destruct (pick_ready j ws (Hr eq_refl)) as [k Hk].
      destruct (pick_Some _ _ _ Hk) as (wk & Hwk & Hf).
      apply has_frames_pipe in Hf as (mk & rest & Hpk).
      exists 2, (alter take k ws),
        (mkCollector plc (send mk pb) (cnt + 1) AtWhile).
      destruct (decide (k = j)) as [->|Hne].
      * exists (take w), []. rewrite Hj in Hwk. injection Hwk as <-.
        split.
        { rewrite c_run_S. cbn [collector_step c_pc c_goto fst snd pull_closed pub event_count].
          rewrite Hk, Hj. cbn [fmap option_fmap option_map default]. rewrite Hpk. cbn [head].
          rewrite c_run_S. cbn [collector_step c_pc c_goto fst snd pull_closed pub event_count].
          reflexivity. }
        split; [reflexivity|]. split.
        { rewrite list_lookup_alter, decide_True by reflexivity. rewrite Hj. reflexivity. }
        simpl. rewrite Hpk. simpl. rewrite <- app_assoc. reflexivity.
      * exists w, [mk]. split.
        { rewrite c_run_S. cbn [collector_step c_pc c_goto fst snd pull_closed pub event_count].
          rewrite Hk, Hwk. cbn [fmap option_fmap option_map default]. rewrite Hpk. cbn [head].
          rewrite c_run_S. cbn [collector_step c_pc c_goto fst snd pull_closed pub event_count].
          reflexivity. }
        split; [reflexivity|]. split.
        { rewrite list_lookup_alter_ne by done. exact Hj. }
        simpl. rewrite <- !app_assoc. reflexivity.
    - (* AtSend *)
      exists 1, ws, (mkCollector plc (send m0 pb) (cnt + 1) AtWhile), w, [m0].
      split; [reflexivity|]. simpl. rewrite <- !app_assoc. auto. }
  destruct Hnorm as (n0 & ws1 & c1 & w1 & pre & Hrun & Hpc1 & Hj1 & Htx).
  destruct (c_drain_while j (pipe (push w1)) ws1 c1 w1 Hpc1 Hj1 eq_refl) as (n & H1 & H2).
  exists (n0 + n), pre. rewrite c_run_add, Hrun. split; [exact H1|].
  rewrite H2. exact Htx.
Qed.

Lemma frames_still_flow s j wj m :
  wf s -> _running s = true -> workers s !! j = Some wj ->
  in_loop (w_pc wj) = true -> in_loop (c_pc (collector s)) = true ->
  matches j m ->
  exists tr pre, only_threads j tr /\
    tx (pub (collector (run (EvPublish j m true :: tr) s)))
      = tx (pub (collector s)) ++ pre ++ [m].
Proof.
  intros Hwf Hrun Hj Hloop Hcloop Hm.
  pose proof (wf_workers s Hwf j wj Hj) as Hwj.
  set (s0 := step (EvPublish j m true) s).
  assert (Hwf0 : wf s0) by (apply mt_wf_step, Hwf).
  assert (Hj0 : workers s0 !! j = Some (deliver_to m wj)).
  { unfold s0. simpl. rewrite list_lookup_alter, decide_True by reflexivity.
    rewrite Hj. reflexivity. }
  assert (Hch : w_chain (deliver_to m wj) = w_chain wj ++ [m]).
  { unfold w_chain, deliver_to, deliver. simpl.
    rewrite (wfw_open j wj Hwj) by (destruct (w_pc wj); try discriminate; reflexivity).
    rewrite (wfw_topic j wj Hwj). unfold matches in Hm. rewrite Hm. simpl.
    rewrite <- !app_assoc. reflexivity. }
  destruct (w_drain j (deliver_to m wj) (wf_workers s0 Hwf0 _ _ Hj0) Hloop)
    as (n1 & _ & _ & Hpipe).
  destruct (run_worker_steps n1 s0 j (deliver_to m wj) Hrun Hj0) as (Hws1 & Hc1 & Hr1).
  set (s1 := run (replicate n1 (EvWorker j None)) s0) in *.
  assert (Hwf1 : wf s1) by (apply mt_wf_run, Hwf0).
  assert (Hj1 : workers s1 !! j = Some (w_run n1 (deliver_to m wj))).
  { rewrite Hws1. apply list_lookup_insert_eq. eapply lookup_lt_Some; eauto. }
  destruct (c_drain j (workers s1) (collector s1) _
              ltac:(rewrite Hc1; exact Hcloop) (wf_recv s1 Hwf1) Hj1)
    as (n2 & pre & _ & Htx).
  destruct (run_collector_steps j n2 s1 Hr1) as (Hrc & _).
  exists (replicate n1 (EvWorker j None) ++ replicate n2 (EvCollector j None)),
         (pre ++ w_chain wj).
  split.
  - apply Forall_app. split; apply Forall_replicate; auto.
  - rewrite mt_run_cons, mt_run_app. fold s0. fold s1.
    replace (collector (run (replicate n2 (EvCollector j None)) s1))
      with (c_run j n2 (workers s1, collector s1)).2 by (rewrite <- Hrc; reflexivity).
    rewrite Htx, Hpipe, Hch, Hc1. unfold s0. simpl.
    rewrite <- !app_assoc. reflexivity.
Qed.

Lemma mt_signals_in_cons e tr :
  signals_in (e :: tr) = (if is_signal e then 1 else 0) + signals_in tr.
Proof.
  unfold signals_in. rewrite filter_cons. destruct (is_signal e).
  - rewrite decide_True by reflexivity. reflexivity.
  - rewrite decide_False by discriminate. reflexivity.
Qed.

Lemma worker_wait_of_pc k hwm i s :
  wf s ->
  wait_ms (workers s !! i ≫= worker_wait k hwm (collector s)) =
    if send_waits hwm i s then None
    else Some (if at_poll (worker_pc i s) then 1000 * (Z.of_nat k + 1) else 0)%Z.
Proof.
  intros Hwf. unfold worker_pc, send_waits.
  destruct (workers s !! i) as [w|] eqn:Hi; [|reflexivity]. simpl.
  pose proof (wfw_recv i w (wf_workers s Hwf i w Hi)) as Hr.
  unfold worker_wait. destruct (w_pc w); try reflexivity.
  - destruct (rx (sub w)); [exfalso; exact (Hr eq_refl eq_refl)|reflexivity].
  - destruct (push_blocks _ _ _); reflexivity.
Qed.

(* a worker waits in its polls, and without bound exactly when it calls
   push.send_string at a moment when the call has to wait *)
Lemma worker_waited_cases hwm i tr : forall k s,
  wf s ->
  if worker_send_waits hwm i tr s
  then worker_waited_from hwm i k tr s = None
  else exists t, worker_waited_from hwm i k tr s = Some t /\
         (0 <= t <= 1000 * Z.of_nat (worker_polls i tr s + k + signals_in tr))%Z.
Proof.
  induction tr as [|e tr IH]; intros k s Hwf.
  - simpl. exists 0%Z. split; [reflexivity|]. lia.
  - rewrite mt_signals_in_cons. cbn [worker_waited_from worker_polls worker_send_waits].
    pose proof (mt_wf_step e s Hwf) as Hwf'.
    destruct (is_worker_step i e) eqn:He; cbn [andb orb].
    + rewrite (worker_wait_of_pc k hwm i s Hwf).
      assert (Hsig : is_signal e = false) by (destruct e; [reflexivity|discriminate|reflexivity|reflexivity]).
      rewrite Hsig.
      destruct (send_waits hwm i s); cbn [orb mbind option_bind]; [reflexivity|].
      pose proof (IH 0 _ Hwf') as H0.
      destruct (worker_send_waits hwm i tr (step e s)).
      * rewrite H0. reflexivity.
      * destruct H0 as (t & Ht & Hb). rewrite Ht. cbn [mbind option_bind].
        eexists. split; [reflexivity|].
        destruct (at_poll (worker_pc i s)); lia.
    + pose proof (IH (if is_signal e then S k else k) _ Hwf') as H0.
      destruct (worker_send_waits hwm i tr (step e s)); [exact H0|].
      destruct H0 as (t & Ht & Hb). exists t. split; [exact Ht|].
      destruct (is_signal e); lia.
Qed.

Lemma collector_wait_of_pc k s :
  wf s ->
  wait_ms (collector_wait k (workers s) (collector s)) =
    Some (if at_poll (Some (c_pc (collector s)))
          then 1000 * (Z.of_nat k + 1) else 0)%Z.
Proof.
  intros Hwf. unfold collector_wait.
  destruct (c_pc (collector s)) eqn:Hpc; try reflexivity.
  rewrite (wf_recv s Hwf Hpc). reflexivity.
Qed.

Lemma collector_waited_bounded tr : forall k s,
  wf s ->
  exists t, collector_waited_from k tr s = Some t /\
    (0 <= t <= 1000 * Z.of_nat (collector_polls tr s + k + signals_in tr))%Z.
Proof.
  induction tr as [|e tr IH]; intros k s Hwf.
  - exists 0%Z. split; [reflexivity|]. lia.
  - rewrite mt_signals_in_cons. cbn [collector_waited_from collector_polls].
    pose proof (mt_wf_step e s Hwf) as Hwf'.
    destruct (is_collector_step e) eqn:He; cbn [andb].
    + assert (Hsig : is_signal e = false) by (destruct e; [reflexivity|discriminate|reflexivity|reflexivity]).
      rewrite Hsig.
      destruct (IH 0 _ Hwf') as (t & Ht & Hb).
      rewrite (collector_wait_of_pc k s Hwf), Ht. cbn [mbind option_bind].
      eexists. split; [reflexivity|].
      destruct (at_poll (Some (c_pc (collector s)))); lia.
    + destruct (IH (if is_signal e then S k else k) _ Hwf') as (t & Ht & Hb).
      exists t. split; [exact Ht|]. destruct (is_signal e); lia.
Qed.

End BrokerThreadedFacts.

Module WorkerSetupFacts.
Import Zmq BrokerThreaded BrokerThreadedFacts WorkerSetup.

Lemma sys_run_cons e tr sy : sys_run (e :: tr) sy = sys_run tr (sys_step e sy).
Proof. reflexivity. Qed.

Lemma sys_run_app tr1 tr2 sy :
  sys_run (tr1 ++ tr2) sy = sys_run tr2 (sys_run tr1 sy).
Proof. unfold sys_run. apply foldl_app. Qed.

Lemma with_relay_same sy : with_relay (relay sy) sy = sy.
Proof. destruct sy; reflexivity. Qed.

(* the relay goes through steps of its own *)
Lemma relay_wf_step e sy : wf (relay sy) -> wf (relay (sys_step e sy)).
Proof.
  intros Hwf. destruct e as [i f|ev]; simpl.
  - destruct (threads sy !! i) as [[p| |p x]|]; try exact Hwf.
    destruct (sensor_ports !! i) as [ptn|]; [|exact Hwf].
    destruct (setup_step ptn f p) as [t out]. exact Hwf.
  - destruct (takes_place (threads sy) ev); [|exact Hwf].
    simpl. apply mt_wf_step, Hwf.
Qed.

Lemma relay_wf_run tr sy : wf (relay sy) -> wf (relay (sys_run tr sy)).
Proof.
  revert sy. induction tr as [|e tr IH]; intros sy Hwf; [exact Hwf|].
  rewrite sys_run_cons. apply IH, relay_wf_step, Hwf.
Qed.

Lemma threads_length_step e sy :
  length (threads (sys_step e sy)) = length (threads sy).
Proof.
  destruct e as [i f|ev]; simpl.
  - destruct (threads sy !! i) as [[p| |p x]|]; try reflexivity.
    destruct (sensor_ports !! i) as [ptn|]; [|reflexivity].
    destruct (setup_step ptn f p) as [t out]. simpl. apply length_insert.
  - destruct (takes_place (threads sy) ev); reflexivity.
Qed.

Lemma threads_length_run tr sy :
  length (threads (sys_run tr sy)) = length (threads sy).
Proof.
  revert sy. induction tr as [|e tr IH]; intros sy; [reflexivity|].
  rewrite sys_run_cons, IH. apply threads_length_step.
Qed.

(* a thread that raised in its set-up, or that has entered its loop, is no
   longer touched by the set-up *)
Lemma settled_step e sy i t :
  threads sy !! i = Some t -> (forall p, t <> SettingUp p) ->
  threads (sys_step e sy) !! i = Some t.
Proof.
  intros Hi Hne. destruct e as [j f|ev]; simpl.
  - destruct (threads sy !! j) as [[p| |p x]|] eqn:Hj; try exact Hi.
    destruct (sensor_ports !! j) as [ptn|]; [|exact Hi].
    destruct (setup_step ptn f p) as [t' out]. simpl.
    rewrite list_lookup_insert_ne; [exact Hi|].
    intros ->. rewrite Hi in Hj. injection Hj as ->. exact (Hne p eq_refl).
  - destruct (takes_place (threads sy) ev); exact Hi.
Qed.

Lemma settled_run tr sy i t :
  threads sy !! i = Some t -> (forall p, t <> SettingUp p) ->
  threads (sys_run tr sy) !! i = Some t.
Proof.
  revert sy. induction tr as [|e tr IH]; intros sy Hi Hne; [exact Hi|].
  rewrite sys_run_cons. apply IH; [apply settled_step; assumption|exact Hne].
Qed.

(* no event of a thread that raised in its set-up changes anything *)
Lemma left_idle sy i p x f :
  threads sy !! i = Some (Left p x) ->
  sys_step (EvSetup i f) sy = sy /\ sys_step (EvRelay (EvWorker i f)) sy = sy.
Proof. intros Hi. simpl. rewrite Hi. split; reflexivity. Qed.

(* a statement of the set-up that raises *)
Lemma setup_fault sy i p x :
  threads sy !! i = Some (SettingUp p) -> calls_transport p = true ->
  i < length sensor_ports ->
  sys_step (EvSetup i (Some x)) sy =
    mkSystem (<[i := Left p x]> (threads sy)) (setup_log sy) (relay sy).
Proof.
  intros Hi Hp Hlt. simpl. rewrite Hi.
  destruct (lookup_lt_is_Some_2 sensor_ports i Hlt) as [ptn ->].
  destruct p; try discriminate; simpl; rewrite app_nil_r; reflexivity.
Qed.

(* events of the relay that take place are steps of the relay *)
Lemma sys_run_relay tr : forall sy,
  Forall (fun ev => takes_place (threads sy) ev = true) tr ->
  sys_run (EvRelay <$> tr) sy = with_relay (run tr (relay sy)) sy.
Proof.
  induction tr as [|ev tr IH]; intros sy Hall.
  - simpl. symmetry. apply with_relay_same.
  - apply Forall_cons in Hall as [Hev Hall].
    rewrite fmap_cons, sys_run_cons. simpl. rewrite Hev.
    rewrite IH by exact Hall. reflexivity.
Qed.

Lemma only_threads_take_place ths j m tr :
  ths !! j = Some InLoop -> only_threads j tr ->
  Forall (fun ev => takes_place ths ev = true) (EvPublish j m true :: tr).
Proof.
  intros Hj Htr. constructor; [simpl; rewrite Hj; reflexivity|].
  eapply Forall_impl; [exact Htr|].
  intros ev [-> | ->]; simpl; rewrite ?Hj; reflexivity.
Qed.

(* the frames of a worker that is in its loop still reach the publisher *)
Lemma sys_frames_still_flow sy j wj m :
  wf (relay sy) -> threads sy !! j = Some InLoop ->
  _running (relay sy) = true -> workers (relay sy) !! j = Some wj ->
  in_loop (w_pc wj) = true -> in_loop (c_pc (collector (relay sy))) = true ->
  matches j m ->
  exists tr pre, only_threads j tr /\
    tx (pub (collector (relay
          (sys_run (EvRelay <$> (EvPublish j m true :: tr)) sy))))
      = tx (pub (collector (relay sy))) ++ pre ++ [m].
Proof.
  intros Hwf Hj Hrun Hw Hloop Hcloop Hm.
  destruct (frames_still_flow (relay sy) j wj m Hwf Hrun Hw Hloop Hcloop Hm)
    as (tr & pre & Htr & Htx).
  exists tr, pre. split; [exact Htr|].
  rewrite (sys_run_relay _ sy (only_threads_take_place _ j m tr Hj Htr)).
  exact Htx.
Qed.

Lemma alter_out_of_range {A} (f : A -> A) (l : list A) : forall i,
  length l <= i -> alter f i l = l.
Proof.
  induction l as [|a l IH]; intros [|i] H; simpl in *; try reflexivity; [lia|].
  f_equal. apply IH. lia.
Qed.

(* when every worker has entered its loop the system is the relay *)
Lemma all_in_loop_take_place ths ev :
  length ths = length sensor_ports -> Forall (fun t => t = InLoop) ths ->
  takes_place ths ev = true \/
  (forall s, length (workers s) = length sensor_ports -> step ev s = s).
Proof.
  intros Hlen Hall. destruct ev as [i m d| |i f|c f]; simpl; auto.
  - destruct (ths !! i) as [t|] eqn:Hi.
    + rewrite Forall_forall in Hall.
      rewrite (Hall t) by (apply list_elem_of_lookup; eauto). auto.
    + right. intros s Hs. destruct d; [|reflexivity].
      apply lookup_ge_None in Hi.
      rewrite alter_out_of_range by (simpl in *; lia). destruct s; reflexivity.
  - destruct (ths !! i) as [t|] eqn:Hi.
    + rewrite Forall_forall in Hall.
      rewrite (Hall t) by (apply list_elem_of_lookup; eauto). auto.
    + right. intros s Hs. apply lookup_ge_None in Hi.
      rewrite (proj2 (lookup_ge_None (workers s) i)) by (simpl in *; lia). reflexivity.
Qed.

Lemma sys_run_all_in_loop tr : forall sy,
  wf (relay sy) -> length (threads sy) = length sensor_ports ->
  Forall (fun t => t = InLoop) (threads sy) ->
  sys_run (EvRelay <$> tr) sy = with_relay (run tr (relay sy)) sy.
Proof.
  induction tr as [|ev tr IH]; intros sy Hwf Hlen Hall.
  - simpl. symmetry. apply with_relay_same.
  - rewrite fmap_cons, sys_run_cons, mt_run_cons.
    assert (Hstep : sys_step (EvRelay ev) sy = with_relay (step ev (relay sy)) sy).
    { simpl. destruct (takes_place (threads sy) ev) eqn:Htp; [reflexivity|].
      destruct (all_in_loop_take_place (threads sy) ev Hlen Hall) as [H|H];
        [congruence|].
      rewrite (H _ (wf_len _ Hwf)). symmetry. apply with_relay_same. }
    rewrite Hstep. rewrite IH.
    + reflexivity.
    + simpl. apply mt_wf_step, Hwf.
    + exact Hlen.
    + exact Hall.
Qed.

End WorkerSetupFacts.

Module RelayTheorems.
Import Zmq ZmqFacts Scenarios.

(** C1: a relay never alters a frame. In the single-threaded relay the
    statement pair recv_string/send_string appends to the publisher exactly
    the frame at the head of the subscription queue; in the multi-threaded
    relay a worker appends to its pipe exactly the frame it received and the
    collector appends to the publisher exactly the frame it pulled. Hence, in
    every run of either relay, each frame handed to the publisher is a frame
    some sensor published, still carrying that sensor's topic. *)
Theorem frames_forwarded_unchanged :
  (forall s k socks sub m rest,
      Broker.at_pc s = Broker.AtFor k socks -> socks !! k = Some true ->
      Broker.subscribers s !! k = Some sub -> rx sub = m :: rest ->
      tx (Broker.publisher
            (Broker.run [Broker.EvStep None; Broker.EvStep None] s))
        = tx (Broker.publisher s) ++ [m]) /\
  (forall s i w m rest,
      BrokerThreaded.workers s !! i = Some w ->
      BrokerThreaded.w_pc w = BrokerThreaded.AtRecv ->
      rx (BrokerThreaded.sub w) = m :: rest ->
      (fun w' => BrokerThreaded.pipe (BrokerThreaded.push w')) <$>
        BrokerThreaded.workers
          (BrokerThreaded.run [BrokerThreaded.EvWorker i None;
                               BrokerThreaded.EvWorker i None] s) !! i
        = Some (BrokerThreaded.pipe (BrokerThreaded.push w) ++ [m])) /\
  (forall s choice j w m rest,
      BrokerThreaded.c_pc (BrokerThreaded.collector s) = BrokerThreaded.AtRecv ->
      BrokerThreaded.pick choice (BrokerThreaded.workers s) = Some j ->
      BrokerThreaded.workers s !! j = Some w ->
      BrokerThreaded.pipe (BrokerThreaded.push w) = m :: rest ->
      tx (BrokerThreaded.pub (BrokerThreaded.collector
            (BrokerThreaded.run [BrokerThreaded.EvCollector choice None;
                                 BrokerThreaded.EvCollector choice None] s)))
        = tx (BrokerThreaded.pub (BrokerThreaded.collector s)) ++ [m]) /\
  (forall tr m,
      m ∈ tx (Broker.publisher (Broker.run tr Broker.initial)) ->
      exists i, i < length Broker.sensor_ports /\ Broker.matches i m /\
                m ∈ Broker.produced i tr) /\
  (forall tr m,
      m ∈ tx (BrokerThreaded.pub (BrokerThreaded.collector
                (BrokerThreaded.run tr BrokerThreaded.initial))) ->
      exists i, i < length BrokerThreaded.sensor_ports /\
                BrokerThreaded.matches i m /\ m ∈ BrokerThreaded.produced i tr).
Proof.
  split; [|split; [|split; [|split]]].
  - intros s k socks sub m rest Hpc Hso Hk Hrx.
    exact (proj1 (BrokerFacts.std_forward_step s k socks sub m rest Hpc Hso Hk Hrx)).
  - intros s i w m rest Hi Hpc Hrx.
    rewrite (BrokerThreadedFacts.worker_forward_step s i w m rest Hi Hpc Hrx).
    simpl. rewrite list_lookup_insert_eq by (eapply lookup_lt_Some; eauto).
    reflexivity.
  - intros s choice j w m rest Hpc Hpick Hj Hp.
    rewrite (BrokerThreadedFacts.collector_forward_step s choice j w m rest Hpc Hpick Hj Hp).
    reflexivity.
  - apply BrokerFacts.std_tx_produced.
  - apply BrokerThreadedFacts.mt_tx_produced.
Qed.

Lemma frames_forwarded_unchanged_witness :
  let tr := [Broker.EvPublish 2 "gps {x}" true; Broker.EvStep None; Broker.EvStep None;
             Broker.EvStep None; Broker.EvStep None] in
  let ttr := [BrokerThreaded.EvPublish 0 "camara {y}" true;
              BrokerThreaded.EvWorker 0 None; BrokerThreaded.EvWorker 0 None] in
  tx (Broker.publisher (Broker.run (tr ++ [Broker.EvStep None; Broker.EvStep None])
                                   Broker.initial)) = ["gps {x}"] /\
  (exists i, i < 3 /\ Broker.matches i "gps {x}" /\
             "gps {x}" ∈ Broker.produced i (tr ++ [Broker.EvStep None; Broker.EvStep None])) /\
  (fun w' => BrokerThreaded.pipe (BrokerThreaded.push w')) <$>
     BrokerThreaded.workers
       (BrokerThreaded.run (ttr ++ [BrokerThreaded.EvWorker 0 None;
                                    BrokerThreaded.EvWorker 0 None])
                           BrokerThreaded.initial) !! 0
    = Some ["camara {y}"].
Proof.
  intros tr ttr.
  destruct frames_forwarded_unchanged as (Hstd & Hw & _ & Hend & _).
  split; [|split].
  - rewrite BrokerFacts.run_app.
    exact (Hstd (Broker.run tr Broker.initial) 2 [false; false; true]
                (mkSub "gps" ["gps {x}"] false) "gps {x}" []
                eq_refl eq_refl eq_refl eq_refl).
  - apply Hend. vm_compute. apply list_elem_of_here.
  - rewrite BrokerThreadedFacts.mt_run_app.
    exact (Hw (BrokerThreaded.run ttr BrokerThreaded.initial) 0
              (BrokerThreaded.mkWorker "Thread-Camera" (mkSub "camara" ["camara {y}"] false)
                 (BrokerThreaded.mkPush [] false) 0 BrokerThreaded.AtRecv)
              "camara {y}" [] eq_refl eq_refl eq_refl).
Defined.

(** C2: in every run of either relay, the frames a downstream subscriber of
    one topic receives form a subsequence of the frames the sensor of that
    topic published, in the order it published them: nothing is reordered or
    duplicated within one source. Nothing is said about the interleaving of
    different sources. *)
Theorem per_source_order_preserved :
  (forall tr i,
      i < length Broker.sensor_ports ->
      Broker.downstream i (Broker.run tr Broker.initial)
        `sublist_of` Broker.produced i tr) /\
  (forall tr i,
      i < length BrokerThreaded.sensor_ports ->
      BrokerThreaded.downstream i (BrokerThreaded.run tr BrokerThreaded.initial)
        `sublist_of` BrokerThreaded.produced i tr).
Proof.
  split.
  - intros tr i Hi. apply BrokerFacts.downstream_in_order, Hi.
  - intros tr i Hi. apply BrokerThreadedFacts.mt_downstream_in_order, Hi.
Qed.

Lemma per_source_order_witness :
  tx (Broker.publisher (Broker.run order_trace Broker.initial))
    = ["camara 1"; "gps 1"; "gps 2"] /\
  Broker.produced 2 order_trace = ["gps 1"; "gps 2"] /\
  Broker.downstream 2 (Broker.run order_trace Broker.initial)
    `sublist_of` Broker.produced 2 order_trace /\
  tx (BrokerThreaded.pub (BrokerThreaded.collector
        (BrokerThreaded.run mt_order_trace BrokerThreaded.initial)))
    = ["camara 1"; "gps 1"; "gps 2"] /\
  BrokerThreaded.downstream 2 (BrokerThreaded.run mt_order_trace BrokerThreaded.initial)
    `sublist_of` BrokerThreaded.produced 2 mt_order_trace.
Proof.
  split; [vm_compute; reflexivity|]. split; [vm_compute; reflexivity|].
  split; [apply (proj1 per_source_order_preserved); simpl; lia|].
  split; [vm_compute; reflexivity|].
  apply (proj2 per_source_order_preserved); simpl; lia.
Defined.

(** C6: the shutdown signal handler of either module, invoked any number of
    times (at least once), leaves the flag False, exactly as one invocation
    does, and leaves every other part of the state as it was; each
    invocation only emits its log line. *)
Theorem signal_handler_idempotent :
  (forall n s,
      Nat.iter (S n) Broker._signal_handler s =
        Broker.mkState false (Broker.subscribers s) (Broker.publisher s)
          (Broker.context_terminated s) (Broker.event_count s) (Broker.at_pc s)
          (Broker.log s ++ replicate (S n) (INFO, Broker.MsgShutdownSignal)) /\
      Broker._running (Nat.iter (S n) Broker._signal_handler s)
        = Broker._running (Broker._signal_handler s)) /\
  (forall n s,
      Nat.iter (S n) BrokerThreaded._signal_handler s =
        BrokerThreaded.mkState false (BrokerThreaded.workers s)
          (BrokerThreaded.collector s)
          (BrokerThreaded.log s
             ++ replicate (S n) (INFO, BrokerThreaded.MsgShutdownSignal)) /\
      BrokerThreaded._running (Nat.iter (S n) BrokerThreaded._signal_handler s)
        = BrokerThreaded._running (BrokerThreaded._signal_handler s)).
Proof.
  split.
  - intros n s.
    assert (H : Nat.iter (S n) Broker._signal_handler s =
        Broker.mkState false (Broker.subscribers s) (Broker.publisher s)
          (Broker.context_terminated s) (Broker.event_count s) (Broker.at_pc s)
          (Broker.log s ++ replicate (S n) (INFO, Broker.MsgShutdownSignal))).
    { induction n as [|n IH]; [reflexivity|].
      rewrite Nat.iter_succ, IH.
      unfold Broker._signal_handler, Broker.with_running, Broker.logger.
      cbn -[replicate]. rewrite <- app_assoc, <- replicate_S_end. reflexivity. }
    rewrite H. split; reflexivity.
  - intros n s.
    assert (H : Nat.iter (S n) BrokerThreaded._signal_handler s =
        BrokerThreaded.mkState false (BrokerThreaded.workers s)
          (BrokerThreaded.collector s)
          (BrokerThreaded.log s
             ++ replicate (S n) (INFO, BrokerThreaded.MsgShutdownSignal))).
    { induction n as [|n IH]; [reflexivity|].
      rewrite Nat.iter_succ, IH. unfold BrokerThreaded._signal_handler.
      cbn -[replicate]. rewrite <- app_assoc, <- replicate_S_end. reflexivity. }
    rewrite H. split; reflexivity.
Qed.

(** C3: a pass of the single-threaded loop body, from the poll to the next
    test of _running, receives and forwards exactly one frame from each
    subscription the poll found ready (its oldest one, in the order of the
    subscribers list) and none from the others; any further frames stay
    queued for a later pass. *)
Theorem iteration_takes_one_frame_per_ready_subscription (s : Broker.state) :
  Broker.at_pc s = Broker.AtPoll ->
  length (Broker.subscribers s) = length Broker.sensor_ports ->
  let s' := Broker.run (Broker.iteration s) s in
  Broker.at_pc s' = Broker.AtWhile /\
  rx <$> Broker.subscribers s' = (fun sub => tail (rx sub)) <$> Broker.subscribers s /\
  tx (Broker.publisher s') =
    tx (Broker.publisher s)
      ++ mjoin ((fun sub => take 1 (rx sub)) <$> Broker.subscribers s) /\
  Broker.event_count s' = Broker.event_count s + Broker.ready_count s.
Proof.
  destruct s as [r subs p ct n pc0 lg]. simpl. intros -> Hlen.
  destruct subs as [|[t0 q0 c0] [|[t1 q1 c1] [|[t2 q2 c2] [|]]]]; try discriminate.
  destruct p as [sent pcl].
  destruct q0 as [|m0 q0], q1 as [|m1 q1], q2 as [|m2 q2]; cbn;
    rewrite <- ?app_assoc, ?app_nil_r; repeat split; try reflexivity; lia.
Qed.

Lemma iteration_takes_one_frame_witness :
  Broker.at_pc (Broker.run (Broker.iteration busy_source) busy_source) = Broker.AtWhile /\
  tx (Broker.publisher (Broker.run (Broker.iteration busy_source) busy_source))
    = ["camara a"].
Proof.
  destruct (iteration_takes_one_frame_per_ready_subscription busy_source
              eq_refl eq_refl) as (H1 & _ & H3 & _).
  split; [exact H1|exact H3].
Defined.

(** C3 as stated (every ready subscription drained before the next poll)
    fails: with two camera frames queued at the poll, the pass ends, the
    loop is about to test _running and poll again, and the second frame is
    still queued. *)
Lemma iteration_leaves_frames_queued :
  Broker.at_pc busy_source = Broker.AtPoll /\
  Broker.queued 0 busy_source = ["camara a"; "camara b"] /\
  Broker.at_pc (Broker.run (Broker.iteration busy_source) busy_source) = Broker.AtWhile /\
  Broker.queued 0 (Broker.run (Broker.iteration busy_source) busy_source) = ["camara b"] /\
  Broker.queued 0 (Broker.run (Broker.iteration busy_source) busy_source) <> [].
Proof. vm_compute. repeat split; discriminate. Qed.

(** C4: in the multi-threaded relay a ZMQError raised in a worker or in the
    collector while _running is False is swallowed: the thread logs only its
    shutdown line (nothing at ERROR level), closes its two sockets and
    returns. The single-threaded relay has no handler for transport errors:
    its finally block still closes every socket and terminates the context,
    but the error leaves run_broker_standard as an exception. *)
Theorem transport_error_during_shutdown :
  (forall s i w e,
      BrokerThreaded.workers s !! i = Some w ->
      BrokerThreaded._running s = false ->
      BrokerThreaded.calls_transport (BrokerThreaded.w_pc w) = true ->
      let s' := BrokerThreaded.run
                  [BrokerThreaded.EvWorker i (Some (ZMQError e));
                   BrokerThreaded.EvWorker i None; BrokerThreaded.EvWorker i None] s in
      BrokerThreaded.log s' =
        BrokerThreaded.log s
          ++ [(INFO, BrokerThreaded.MsgWorkerShuttingDown
                       (BrokerThreaded.thread_name w) (BrokerThreaded.count w))] /\
      exists w', BrokerThreaded.workers s' !! i = Some w' /\
                 BrokerThreaded.w_pc w' = BrokerThreaded.Returned /\
                 sub_closed (BrokerThreaded.sub w') = true /\
                 BrokerThreaded.push_closed (BrokerThreaded.push w') = true) /\
  (forall s choice e,
      BrokerThreaded._running s = false ->
      BrokerThreaded.calls_transport
        (BrokerThreaded.c_pc (BrokerThreaded.collector s)) = true ->
      let s' := BrokerThreaded.run
                  [BrokerThreaded.EvCollector choice (Some (ZMQError e));
                   BrokerThreaded.EvCollector choice None;
                   BrokerThreaded.EvCollector choice None] s in
      BrokerThreaded.log s' =
        BrokerThreaded.log s
          ++ [(INFO, BrokerThreaded.MsgCollectorShuttingDown
                       (BrokerThreaded.event_count (BrokerThreaded.collector s)))] /\
      BrokerThreaded.c_pc (BrokerThreaded.collector s') = BrokerThreaded.Returned /\
      BrokerThreaded.pull_closed (BrokerThreaded.collector s') = true /\
      pub_closed (BrokerThreaded.pub (BrokerThreaded.collector s')) = true) /\
  (forall s e,
      Broker.calls_transport s = true ->
      let s' := Broker.run [Broker.EvStep (Some (ZMQError e)); Broker.EvStep None] s in
      Broker.at_pc s' = Broker.Raised (ZMQError e) /\ Broker.all_closed s').
Proof.
  split; [|split].
  - intros s i w e Hi Hrun Hcall s'. unfold s'.
    rewrite (BrokerThreadedFacts.worker_error_handled s i w e Hi Hcall), Hrun.
    split; [reflexivity|]. simpl.
    rewrite list_lookup_insert_eq by (eapply lookup_lt_Some; eauto).
    eexists. split; [reflexivity|]. auto.
  - intros s choice e Hrun Hcall s'. unfold s'.
    rewrite (BrokerThreadedFacts.collector_error_handled s choice e Hcall), Hrun.
    simpl. auto.
  - intros s e Hcall s'.
    destruct (BrokerFacts.std_error_propagates s e Hcall) as (H1 & H2 & _). auto.
Qed.

Lemma transport_error_during_shutdown_witness :
  BrokerThreaded.log
    (BrokerThreaded.run [BrokerThreaded.EvWorker 1 (Some (ZMQError 4));
                         BrokerThreaded.EvWorker 1 None; BrokerThreaded.EvWorker 1 None]
                        mt_stopping)
    = [(INFO, BrokerThreaded.MsgShutdownSignal);
       (INFO, BrokerThreaded.MsgWorkerShuttingDown "Thread-Inductive" 0)] /\
  BrokerThreaded.c_pc (BrokerThreaded.collector
    (BrokerThreaded.run [BrokerThreaded.EvCollector 0 (Some (ZMQError 4));
                         BrokerThreaded.EvCollector 0 None;
                         BrokerThreaded.EvCollector 0 None] mt_stopping))
    = BrokerThreaded.Returned /\
  Broker.all_closed
    (Broker.run [Broker.EvStep (Some (ZMQError 4)); Broker.EvStep None] stopping).
Proof.
  destruct transport_error_during_shutdown as (Hw & Hc & Hs).
  split; [|split].
  - exact (proj1 (Hw mt_stopping 1
             (BrokerThreaded.mkWorker "Thread-Inductive" (connect_sub "espira")
                (BrokerThreaded.mkPush [] false) 0 BrokerThreaded.AtPoll)
             4%Z eq_refl eq_refl eq_refl)).
  - exact (proj1 (proj2 (Hc mt_stopping 0 4%Z eq_refl eq_refl))).
  - exact (proj2 (Hs stopping 4%Z eq_refl)).
Defined.

(** C4 as stated (suppressed in both relays) fails for the single-threaded
    relay: with _running already False, a ZMQError raised by the poll ends
    run_broker_standard with that error raised. *)
Lemma standard_relay_raises_during_shutdown :
  Broker._running stopping = false /\
  Broker.calls_transport stopping = true /\
  Broker.at_pc (Broker.run [Broker.EvStep (Some (ZMQError 4)); Broker.EvStep None]
                           stopping)
    = Broker.Raised (ZMQError 4).
Proof. vm_compute. repeat split. Qed.




(** C7 as stated (no unbounded wait in a loop, every loop left within a
    poll timeout of the flag being cleared) fails for a worker: it has taken
    a frame from its subscription when the signal arrives; the collector
    sees the cleared flag first, closes its PULL socket and returns.  The
    worker is then at push.send_string with nobody left to take the frame:
    whatever the capacity of the pipe, its next statement waits without a
    bound. *)
Lemma worker_send_waits_without_bound :
  let s := BrokerThreaded.run
             [BrokerThreaded.EvPublish 0 "camara 1" true;
              BrokerThreaded.EvWorker 0 None; BrokerThreaded.EvWorker 0 None;
              BrokerThreaded.EvWorker 0 None; BrokerThreaded.EvSignal;
              BrokerThreaded.EvCollector 0 None; BrokerThreaded.EvCollector 0 None]
             BrokerThreaded.initial in
  BrokerThreaded._running s = false /\
  BrokerThreaded.c_pc (BrokerThreaded.collector s) = BrokerThreaded.Returned /\
  BrokerThreaded.pull_closed (BrokerThreaded.collector s) = true /\
  BrokerThreaded.worker_pc 0 s = Some (BrokerThreaded.AtSend "camara 1") /\
  (forall k hwm,
      BrokerThreaded.workers s !! 0
        ≫= BrokerThreaded.worker_wait k hwm (BrokerThreaded.collector s)
      = Some Unbounded) /\
  (forall hwm tr,
      BrokerThreaded.worker_waited_ms hwm 0 (BrokerThreaded.EvWorker 0 None :: tr) s
      = None).
Proof.
  cbv zeta. split; [reflexivity|]. split; [reflexivity|]. split; [reflexivity|].
  split; [reflexivity|]. split.
  - intros k hwm. reflexivity.
  - intros hwm tr. reflexivity.
Qed.

(** C7: in every reachable state of either relay a loop waits
    only in its polls and, in a worker, in push.send_string (a recv_string
    is reached only when a frame is queued).  A poll has a timeout of
    1000 ms, but a signal that interrupts it starts it again: with k such
    signals it can take up to 1000 (k + 1) ms, and the waits of a run add up
    to at most 1000 ms for each poll and each signal.  push.send_string has
    no timeout: a worker waits without bound exactly when it calls it while
    the collector has closed its PULL socket or the pipe is full.  Outside
    the loops only context.term(), in the finally block of
    run_broker_standard, waits, and it has no timeout either.  Once _running
    is False each loop performs at most one more poll; until it is left the
    loop of the single-threaded relay waits at most 1000 ms, and 1000 ms
    more for every further signal, and so do the collector and, unless it
    calls push.send_string when that has to wait, a worker; the
    single-threaded relay has left its loop after 9 more of its own
    statements and finished after 10, a worker or the collector after 5. *)
Theorem waits_are_polls_and_push_sends (hwm : nat) :
  (forall tr k x,
      Broker.next_wait k (Broker.run tr Broker.initial) = Some x ->
      x = Bounded (1000 * (Z.of_nat k + 1)) \/
      (x = Unbounded /\
       Broker.terminating (Broker.run tr Broker.initial) = true)) /\
  (forall tr tr' k,
      if Broker.terminates_in tr' (Broker.run tr Broker.initial)
      then Broker.waited_from k tr' (Broker.run tr Broker.initial) = None
      else exists t,
             Broker.waited_from k tr' (Broker.run tr Broker.initial) = Some t /\
             (0 <= t <= 1000 * Z.of_nat
                          (Broker.polls tr' (Broker.run tr Broker.initial) + k
                           + Broker.signals_in tr'))%Z) /\
  (forall tr tr',
      Broker._running (Broker.run tr Broker.initial) = false ->
      Broker.polls tr' (Broker.run tr Broker.initial) <= 1 /\
      (Broker.terminates_in tr' (Broker.run tr Broker.initial) = false ->
       exists t, Broker.waited_ms tr' (Broker.run tr Broker.initial) = Some t /\
                 (0 <= t <= 1000 * Z.of_nat (1 + Broker.signals_in tr'))%Z) /\
      (9 <= Broker.steps_in tr' ->
       BrokerMore.looping (Broker.run tr' (Broker.run tr Broker.initial)) = false) /\
      (10 <= Broker.steps_in tr' ->
       Broker.finished (Broker.run tr' (Broker.run tr Broker.initial)) = true)) /\
  (forall tr k x,
      BrokerThreaded.collector_wait k
        (BrokerThreaded.workers (BrokerThreaded.run tr BrokerThreaded.initial))
        (BrokerThreaded.collector (BrokerThreaded.run tr BrokerThreaded.initial))
        = Some x ->
      x = Bounded (1000 * (Z.of_nat k + 1))) /\
  (forall tr tr' k,
      exists t,
        BrokerThreaded.collector_waited_from k tr'
          (BrokerThreaded.run tr BrokerThreaded.initial) = Some t /\
        (0 <= t <= 1000 * Z.of_nat
                     (BrokerThreaded.collector_polls tr'
                        (BrokerThreaded.run tr BrokerThreaded.initial) + k
                      + BrokerThreaded.signals_in tr'))%Z) /\
  (forall tr tr',
      BrokerThreaded._running (BrokerThreaded.run tr BrokerThreaded.initial) = false ->
      BrokerThreaded.collector_polls tr'
        (BrokerThreaded.run tr BrokerThreaded.initial) <= 1 /\
      (exists t, BrokerThreaded.collector_waited_ms tr'
                   (BrokerThreaded.run tr BrokerThreaded.initial) = Some t /\
                 (0 <= t <= 1000 * Z.of_nat (1 + BrokerThreaded.signals_in tr'))%Z) /\
      (5 <= BrokerThreaded.collector_steps_in tr' ->
       BrokerThreaded.finished
         (BrokerThreaded.c_pc (BrokerThreaded.collector
            (BrokerThreaded.run tr' (BrokerThreaded.run tr BrokerThreaded.initial))))
         = true)) /\
  (forall tr i w k x,
      BrokerThreaded.workers (BrokerThreaded.run tr BrokerThreaded.initial) !! i
        = Some w ->
      BrokerThreaded.worker_wait k hwm
        (BrokerThreaded.collector (BrokerThreaded.run tr BrokerThreaded.initial)) w
        = Some x ->
      x = Bounded (1000 * (Z.of_nat k + 1)) \/
      (x = Unbounded /\
       exists m, BrokerThreaded.w_pc w = BrokerThreaded.AtSend m /\
         (BrokerThreaded.pull_closed
            (BrokerThreaded.collector (BrokerThreaded.run tr BrokerThreaded.initial))
          = true \/
          hwm <= length (BrokerThreaded.pipe (BrokerThreaded.push w))))) /\
  (forall tr tr' i k,
      if BrokerThreaded.worker_send_waits hwm i tr'
           (BrokerThreaded.run tr BrokerThreaded.initial)
      then BrokerThreaded.worker_waited_from hwm i k tr'
             (BrokerThreaded.run tr BrokerThreaded.initial) = None
      else exists t,
             BrokerThreaded.worker_waited_from hwm i k tr'
               (BrokerThreaded.run tr BrokerThreaded.initial) = Some t /\
             (0 <= t <= 1000 * Z.of_nat
                          (BrokerThreaded.worker_polls i tr'
                             (BrokerThreaded.run tr BrokerThreaded.initial) + k
                           + BrokerThreaded.signals_in tr'))%Z) /\
  (forall tr tr' i,
      BrokerThreaded._running (BrokerThreaded.run tr BrokerThreaded.initial) = false ->
      i < length BrokerThreaded.sensor_ports ->
      BrokerThreaded.worker_polls i tr'
        (BrokerThreaded.run tr BrokerThreaded.initial) <= 1 /\
      (BrokerThreaded.worker_send_waits hwm i tr'
         (BrokerThreaded.run tr BrokerThreaded.initial) = false ->
       exists t, BrokerThreaded.worker_waited_ms hwm i tr'
                   (BrokerThreaded.run tr BrokerThreaded.initial) = Some t /\
                 (0 <= t <= 1000 * Z.of_nat (1 + BrokerThreaded.signals_in tr'))%Z) /\
      (5 <= BrokerThreaded.worker_steps_in i tr' ->
       exists w',
         BrokerThreaded.workers
           (BrokerThreaded.run tr' (BrokerThreaded.run tr BrokerThreaded.initial)) !! i
           = Some w' /\
         BrokerThreaded.finished (BrokerThreaded.w_pc w') = true)).
Proof.
  assert (Hstd : forall tr, Broker.wf (Broker.run tr Broker.initial))
    by (intros tr; apply BrokerFacts.wf_run, BrokerFacts.wf_initial).
  assert (Hmt : forall tr, BrokerThreaded.wf (BrokerThreaded.run tr BrokerThreaded.initial))
    by (intros tr; apply BrokerThreadedFacts.mt_wf_run, BrokerThreadedFacts.mt_wf_initial).
  split; [|split; [|split; [|split; [|split; [|split; [|split; [|split]]]]]]].
  - intros tr k x Hx. exact (BrokerFacts.std_wait_bounded k _ x (Hstd tr) Hx).
  - intros tr tr' k. apply BrokerFacts.waited_cases, Hstd.
  - intros tr tr' Hrun.
    split; [apply BrokerFacts.std_polls_after_stop, Hrun|].
    split; [|split].
    + intros Hno.
      pose proof (BrokerFacts.waited_cases tr' 0 _ (Hstd tr)) as H.
      rewrite Hno in H. destruct H as (t & Ht & Hb).
      pose proof (BrokerFacts.std_polls_after_stop tr' _ Hrun).
      exists t. split; [exact Ht|]. lia.
    + intros Hn.
      pose proof (BrokerFacts.rank_bound _ (Hstd tr)) as Hr.
      destruct (BrokerFacts.std_rank_run tr' _ (Hstd tr) Hrun) as [H|H].
      * unfold BrokerMore.looping, Broker.rank in *.
        destruct (Broker.at_pc (Broker.run tr' (Broker.run tr Broker.initial)));
          try reflexivity; lia.
      * unfold BrokerMore.looping, Broker.finished in *.
        destruct (Broker.at_pc (Broker.run tr' (Broker.run tr Broker.initial)));
          try reflexivity; discriminate.
    + intros Hn. apply BrokerFacts.std_exits; [apply Hstd|exact Hrun|].
      pose proof (BrokerFacts.rank_bound _ (Hstd tr)). lia.
  - intros tr k x Hx.
    exact (BrokerThreadedFacts.collector_wait_bounded k _ x (Hmt tr) Hx).
  - intros tr tr' k. apply BrokerThreadedFacts.collector_waited_bounded, Hmt.
  - intros tr tr' Hrun.
    split; [apply BrokerThreadedFacts.collector_polls_after_stop, Hrun|].
    split.
    + destruct (BrokerThreadedFacts.collector_waited_bounded tr' 0 _ (Hmt tr))
        as (t & Ht & Hb).
      pose proof (BrokerThreadedFacts.collector_polls_after_stop tr' _ Hrun).
      exists t. split; [exact Ht|]. lia.
    + intros Hn. apply BrokerThreadedFacts.collector_exits; [apply Hmt|exact Hrun|].
      pose proof (BrokerThreadedFacts.mt_rank_bound
                    (BrokerThreaded.c_pc (BrokerThreaded.collector
                       (BrokerThreaded.run tr BrokerThreaded.initial)))). lia.
  - intros tr i w k x Hi Hx.
    destruct (BrokerThreadedFacts.worker_wait_cases k hwm _ i w x
                (BrokerThreaded.wf_workers _ (Hmt tr) i w Hi) Hx)
      as [->|(-> & m & Hpc & Hb)]; [left; reflexivity|].
    right. split; [reflexivity|]. exists m. split; [exact Hpc|].
    unfold push_blocks in Hb. apply orb_true_iff in Hb as [Hb|Hb];
      [left; exact Hb|right; apply Nat.leb_le, Hb].
  - intros tr tr' i k. apply BrokerThreadedFacts.worker_waited_cases, Hmt.
  - intros tr tr' i Hrun Hi.
    split; [apply BrokerThreadedFacts.worker_polls_after_stop, Hrun|].
    split.
    + intros Hno.
      pose proof (BrokerThreadedFacts.worker_waited_cases hwm i tr' 0 _ (Hmt tr)) as H.
      rewrite Hno in H. destruct H as (t & Ht & Hb).
      pose proof (BrokerThreadedFacts.worker_polls_after_stop i tr' _ Hrun).
      exists t. split; [exact Ht|]. lia.
    + intros Hn.
      destruct (lookup_lt_is_Some_2
                  (BrokerThreaded.workers (BrokerThreaded.run tr BrokerThreaded.initial)) i)
        as [w Hw].
      { rewrite (BrokerThreaded.wf_len _ (Hmt tr)). exact Hi. }
      apply (BrokerThreadedFacts.worker_exits i tr' _ w (Hmt tr) Hrun Hw).
      pose proof (BrokerThreadedFacts.mt_rank_bound (BrokerThreaded.w_pc w)). lia.
Qed.

Lemma waits_are_polls_and_push_sends_witness :
  let stop := [Broker.EvStep None; Broker.EvSignal] in
  let mt_stop := [BrokerThreaded.EvWorker 1 None; BrokerThreaded.EvCollector 0 None;
                  BrokerThreaded.EvSignal] in
  Broker.next_wait 2 (Broker.run [Broker.EvStep None] Broker.initial)
    = Some (Bounded 3000) /\
  (exists t, Broker.waited_ms [Broker.EvSignal; Broker.EvStep None]
               (Broker.run stop Broker.initial) = Some t /\
             (0 <= t <= 2000)%Z) /\
  BrokerMore.looping
    (Broker.run (replicate 9 (Broker.EvStep None))
       (Broker.run stop Broker.initial)) = false /\
  Broker.finished
    (Broker.run (replicate 10 (Broker.EvStep None))
       (Broker.run stop Broker.initial)) = true /\
  (exists t, BrokerThreaded.collector_waited_ms
               (replicate 5 (BrokerThreaded.EvCollector 0 None))
               (BrokerThreaded.run mt_stop BrokerThreaded.initial) = Some t /\
             (0 <= t <= 1000)%Z) /\
  (exists t, BrokerThreaded.worker_waited_ms 1000 1
               (replicate 5 (BrokerThreaded.EvWorker 1 None))
               (BrokerThreaded.run mt_stop BrokerThreaded.initial) = Some t /\
             (0 <= t <= 1000)%Z) /\
  (exists w', BrokerThreaded.workers
                (BrokerThreaded.run (replicate 5 (BrokerThreaded.EvWorker 1 None))
                   (BrokerThreaded.run mt_stop BrokerThreaded.initial)) !! 1
              = Some w' /\
              BrokerThreaded.finished (BrokerThreaded.w_pc w') = true).
Proof.
  intros stop mt_stop.
  destruct (waits_are_polls_and_push_sends 1000)
    as (Hw & _ & Hstop & _ & _ & Hcol & _ & _ & Hwk).
  split; [reflexivity|]. split; [|split; [|split; [|split; [|split]]]].
  - apply (proj1 (proj2 (Hstop stop [Broker.EvSignal; Broker.EvStep None] eq_refl))).
    reflexivity.
  - apply (proj1 (proj2 (proj2 (Hstop stop (replicate 9 (Broker.EvStep None)) eq_refl)))).
    vm_compute. lia.
  - apply (proj2 (proj2 (proj2 (Hstop stop (replicate 10 (Broker.EvStep None)) eq_refl)))).
    vm_compute. lia.
  - exact (proj1 (proj2 (Hcol mt_stop (replicate 5 (BrokerThreaded.EvCollector 0 None))
                               eq_refl))).
  - apply (proj1 (proj2 (Hwk mt_stop (replicate 5 (BrokerThreaded.EvWorker 1 None)) 1
                              eq_refl ltac:(simpl; lia)))).
    reflexivity.
  - apply (proj2 (proj2 (Hwk mt_stop (replicate 5 (BrokerThreaded.EvWorker 1 None)) 1
                              eq_refl ltac:(simpl; lia)))).
    vm_compute. lia.
Defined.
End RelayTheorems.

Module ModelsMoreTheorems.
Import Constants Py Models ModelsFacts ModelsMore.

Lemma GPSEvent_asdict_lookups (e : GPSEvent) :
  GPSEvent_asdict e !! "sensor_id" = Some (sensor_id e) /\
  GPSEvent_asdict e !! "tipo_sensor" = Some (tipo_sensor e) /\
  GPSEvent_asdict e !! "interseccion" = Some (interseccion e) /\
  GPSEvent_asdict e !! "nivel_congestion" = Some (nivel_congestion e) /\
  GPSEvent_asdict e !! "velocidad_promedio" = Some (velocidad_promedio e) /\
  GPSEvent_asdict e !! "timestamp" = Some (timestamp e).
Proof. unfold GPSEvent_asdict. repeat split; simplify_map_eq; reflexivity. Qed.

Lemma from_dict_asdict (now : string) (e : GPSEvent) :
  from_dict now (GPSEvent_asdict e) = __post_init__ e.
Proof.
  destruct (GPSEvent_asdict_lookups e) as (H1 & H2 & H3 & H4 & H5 & H6).
  unfold from_dict. rewrite H1, H2, H3, H4, H5, H6. simpl.
  unfold GPSEvent_init. simpl. destruct e; reflexivity.
Qed.

Lemma post_init_fixed (self e : GPSEvent) :
  __post_init__ self = Some e -> __post_init__ e = Some e.
Proof.
  unfold __post_init__.
  destruct (get_congestion_level (velocidad_promedio self)) as [l|] eqn:Hl;
    simpl; [|discriminate].
  intros [= <-]. simpl. rewrite Hl. reflexivity.
Qed.

(** X1: an event built by the GPSEvent constructor survives the trip through
    its dictionary form: from_dict applied to asdict of the event gives the
    same event again, whatever the clock shows at that moment. *)
Theorem GPSEvent_dict_round_trip (now now' : string) (sid : value)
    (t i n v ts : option value) (e : GPSEvent) :
  GPSEvent_init now sid t i n v ts = Some e ->
  from_dict now' (GPSEvent_asdict e) = Some e.
Proof.
  intros H. rewrite from_dict_asdict. unfold GPSEvent_init in H.
  exact (post_init_fixed _ _ H).
Qed.

Lemma GPSEvent_dict_round_trip_witness :
  let e := mkGPSEvent (VStr "GPS-A1") (VStr "gps") (VStr "INT-A1")
                      (VStr "BAJA") (VNum (Fin 45)) (VStr "t0") in
  GPSEvent_init "t0" (VStr "GPS-A1") None (Some (VStr "INT-A1")) None
                (Some (VNum (Fin 45))) None = Some e /\
  from_dict "t1" (GPSEvent_asdict e) = Some e.
Proof.
  intros e.
  assert (H : GPSEvent_init "t0" (VStr "GPS-A1") None (Some (VStr "INT-A1")) None
                (Some (VNum (Fin 45))) None = Some e) by reflexivity.
  split; [exact H|].
  exact (GPSEvent_dict_round_trip "t0" "t1" _ _ _ _ _ _ e H).
Defined.

(** X2: GPSEvent.from_dict fails in exactly two cases: the dictionary has no
    sensor_id, or its velocidad_promedio (0.0 when absent) is not a number.
    In every other case it returns an event whose fields are the
    dictionary's values, or the defaults for absent keys. *)
Theorem GPSEvent_from_dict_failure (now : string) (data : gmap string value) :
  (from_dict now data = None <->
   data !! "sensor_id" = None \/
   as_number (default (VNum (Fin 0)) (data !! "velocidad_promedio")) = None) /\
  (forall e, from_dict now data = Some e ->
     Some (sensor_id e) = data !! "sensor_id" /\
     tipo_sensor e = default (VStr SENSOR_TYPE_GPS) (data !! "tipo_sensor") /\
     interseccion e = default (VStr "") (data !! "interseccion") /\
     velocidad_promedio e = default (VNum (Fin 0)) (data !! "velocidad_promedio") /\
     timestamp e = default (VStr now) (data !! "timestamp")).
Proof.
  unfold from_dict, GPSEvent_init, __post_init__. simpl.
  destruct (data !! "sensor_id") as [sid|]; simpl.
  - destruct (get_congestion_level
                (default (VNum (Fin 0)) (data !! "velocidad_promedio")))
      as [l|] eqn:Hl; simpl.
    + split.
      * split; [discriminate|].
        intros [H|H]; [discriminate|].
        apply ModelsTheorems.congestion_type_error in H. congruence.
      * intros e [= <-]. simpl. auto.
    + split; [|discriminate]. split; [|reflexivity]. intros _. right.
      apply ModelsTheorems.congestion_type_error, Hl.
  - split; [|discriminate]. split; [auto|reflexivity].
Qed.

Lemma GPSEvent_from_dict_failure_witness :
  from_dict "t0" {[ "interseccion" := VStr "INT-A1" ]} = None /\
  from_dict "t0" {[ "sensor_id" := VStr "GPS-A1";
                    "velocidad_promedio" := VStr "fast" ]} = None /\
  from_dict "t0" {[ "sensor_id" := VStr "GPS-A1" ]}
    = Some (mkGPSEvent (VStr "GPS-A1") (VStr "gps") (VStr "") (VStr "ALTA")
                       (VNum (Fin 0)) (VStr "t0")).
Proof.
  split; [|split].
  - apply (GPSEvent_from_dict_failure "t0"). left. reflexivity.
  - apply (GPSEvent_from_dict_failure "t0"). right. reflexivity.
  - reflexivity.
Defined.

(** X3: CameraEvent.from_dict and InductiveEvent.from_dict, which have no
    __post_init__, fail only when sensor_id is missing, and from_dict applied
    to asdict of any event of the class gives that event again. *)
Theorem plain_events_round_trip :
  (forall now data, CameraEvent_from_dict now data = None <->
                    data !! "sensor_id" = None) /\
  (forall now e, CameraEvent_from_dict now (CameraEvent_asdict e) = Some e) /\
  (forall now data, InductiveEvent_from_dict now data = None <->
                    data !! "sensor_id" = None) /\
  (forall now e, InductiveEvent_from_dict now (InductiveEvent_asdict e) = Some e).
Proof.
  split; [|split; [|split]].
  - intros now data. unfold CameraEvent_from_dict.
    destruct (data !! "sensor_id"); simpl; split; auto; discriminate.
  - intros now e. unfold CameraEvent_from_dict, CameraEvent_asdict.
    simplify_map_eq. destruct e; reflexivity.
  - intros now data. unfold InductiveEvent_from_dict.
    destruct (data !! "sensor_id"); simpl; split; auto; discriminate.
  - intros now e. unfold InductiveEvent_from_dict, InductiveEvent_asdict.
    simplify_map_eq. destruct e; reflexivity.
Qed.

Lemma severity_of_level (v : Q) (l : string) :
  get_congestion_level (VNum (Fin v)) = Some l ->
  severity l = if Qltb v 10 then 2 else if Qltb 40 v then 0 else 1.
Proof.
  rewrite ModelsTheorems.congestion_of_finite. intros [= <-].
  destruct (Qltb v 10); [reflexivity|]. destruct (Qltb 40 v); reflexivity.
Qed.

(** X4: the congestion level never gets worse as the speed grows: for finite
    speeds v1 <= v2, the level of v2 is at most as severe as the level of v1,
    in the order BAJA < NORMAL < ALTA. *)
Theorem congestion_level_antitone (v1 v2 : Q) (l1 l2 : string) :
  (v1 <= v2)%Q ->
  get_congestion_level (VNum (Fin v1)) = Some l1 ->
  get_congestion_level (VNum (Fin v2)) = Some l2 ->
  severity l2 <= severity l1.
Proof.
  intros Hle H1 H2.
  rewrite (severity_of_level _ _ H1), (severity_of_level _ _ H2).
  destruct (Qltb v1 10) eqn:A1; destruct (Qltb v2 10) eqn:A2;
    destruct (Qltb 40 v1) eqn:B1; destruct (Qltb 40 v2) eqn:B2; try lia;
    rewrite ?Qltb_lt, ?Qltb_ge in *; exfalso.
  - (* v1 NORMAL, v2 ALTA *)
    apply (Qlt_irrefl v2). eapply Qlt_le_trans; [exact A2|].
    eapply Qle_trans; [exact A1|exact Hle].
  - apply (Qlt_irrefl v2). eapply Qlt_le_trans; [exact A2|].
    eapply Qle_trans; [exact A1|exact Hle].
  - apply (Qlt_irrefl v2). eapply Qlt_le_trans; [exact A2|].
    eapply Qle_trans; [exact A1|exact Hle].
  - apply (Qlt_irrefl v2). eapply Qlt_le_trans; [exact A2|].
    eapply Qle_trans; [exact A1|exact Hle].
  - apply (Qlt_irrefl 40%Q). eapply Qlt_le_trans; [exact B1|].
    eapply Qle_trans; [exact Hle|exact B2].
Qed.

Lemma congestion_level_antitone_witness :
  severity CONGESTION_BAJA <= severity CONGESTION_ALTA.
Proof.
  apply (congestion_level_antitone 8 45 CONGESTION_ALTA CONGESTION_BAJA).
  - unfold Qle; simpl; lia.
  - reflexivity.
  - reflexivity.
Defined.

End ModelsMoreTheorems.

Module BrokerMoreFacts.
Import Zmq ZmqFacts Broker BrokerFacts BrokerMore.

Lemma forward_lines_snoc l x :
  forward_lines (l ++ [x]) = forward_lines l ++ (if is_forward x then [x] else []).
Proof.
  unfold forward_lines. rewrite filter_app. f_equal.
  rewrite filter_cons, filter_nil. destruct (is_forward x).
  - rewrite decide_True by reflexivity. reflexivity.
  - rewrite decide_False by discriminate. reflexivity.
Qed.

Lemma lines_for_snoc frames m :
  lines_for (frames ++ [m]) =
  lines_for frames
    ++ [(INFO, MsgForward (S (length frames)) (first_token m) (String.length m))].
Proof.
  unfold lines_for. rewrite imap_app. simpl. rewrite Nat.add_0_r. reflexivity.
Qed.

(* what the counter and the log say about the frames sent *)
Record accounted (s : state) : Prop := mkAccounted {
  acc_count : event_count s = length (tx (publisher s));
  acc_lines : forward_lines (log s) = lines_for (tx (publisher s));
  acc_total : forall lv n, (lv, MsgShuttingDown n) ∈ log s ->
                n = length (tx (publisher s)) /\ finished s = true
}.

Lemma accounted_initial : accounted initial.
Proof.
  split; [reflexivity|reflexivity|]. intros lv n H. simpl in H.
  apply elem_of_nil in H. destruct H.
Qed.

Lemma accounted_log s x :
  is_forward x = false -> (forall n, x.2 <> MsgShuttingDown n) ->
  forward_lines (log s ++ [x]) = forward_lines (log s) /\
  forall lv n, (lv, MsgShuttingDown n) ∈ log s ++ [x] ->
               (lv, MsgShuttingDown n) ∈ log s.
Proof.
  intros Hf Hn. split.
  - rewrite forward_lines_snoc, Hf, app_nil_r. reflexivity.
  - intros lv n H. apply elem_of_app in H as [H|H]; [exact H|].
    apply list_elem_of_singleton in H. subst x. exfalso. exact (Hn n eq_refl).
Qed.

Lemma accounted_raise e s : accounted s -> finished s = false -> accounted (raise e s).
Proof.
  intros [Hc Hl Ht] Hfin. destruct e; try (split; simpl; assumption || (intros lv n H;
    destruct (Ht lv n H) as [? ?]; congruence)).
  destruct (accounted_log s (INFO, MsgInterrupted) eq_refl ltac:(discriminate)) as [H1 H2].
  split; simpl.
  - exact Hc.
  - rewrite H1. exact Hl.
  - intros lv n H. destruct (Ht lv n (H2 lv n H)) as [? ?]. congruence.
Qed.

Lemma accounted_step e s : accounted s -> accounted (step e s).
Proof.
  intros Hacc. destruct e as [i m d| |f]; simpl.
  - destruct d; [|exact Hacc]. destruct Hacc as [Hc Hl Ht]. split; simpl; assumption.
  - destruct Hacc as [Hc Hl Ht].
    destruct (accounted_log s (INFO, MsgShutdownSignal) eq_refl ltac:(discriminate)) as [H1 H2].
    split; simpl.
    + exact Hc.
    + rewrite H1. exact Hl.
    + intros lv n H. exact (Ht lv n (H2 lv n H)).
  - unfold thread_step.
    destruct (at_pc s) as [| |k socks|k socks m|pend| |e] eqn:Hpc.
    + destruct Hacc as [Hc Hl Ht].
      destruct (_running s); split; simpl; try assumption;
        intros lv n H; destruct (Ht lv n H) as [_ Hf];
        unfold finished in Hf; rewrite Hpc in Hf; discriminate.
    + destruct f as [e|].
      * apply accounted_raise; [exact Hacc|]. unfold finished. rewrite Hpc. reflexivity.
      * destruct Hacc as [Hc Hl Ht]. split; simpl; try assumption.
        intros lv n H; destruct (Ht lv n H) as [_ Hf];
        unfold finished in Hf; rewrite Hpc in Hf; discriminate.
    + assert (Hnf : forall lv n, (lv, MsgShuttingDown n) ∈ log s -> False).
      { intros lv n H. destruct (acc_total s Hacc lv n H) as [_ Hf].
        unfold finished in Hf. rewrite Hpc in Hf. discriminate. }
      destruct (subscribers s !! k) as [sub|].
      * destruct (default false (socks !! k)).
        -- destruct f as [e|].
           ++ apply accounted_raise; [exact Hacc|]. unfold finished. rewrite Hpc. reflexivity.
           ++ destruct (rx sub); [exact Hacc|].
              destruct Hacc as [Hc Hl Ht]. split; simpl; try assumption.
              intros lv n H. destruct (Hnf lv n H).
        -- destruct Hacc as [Hc Hl Ht]. split; simpl; try assumption.
           intros lv n H. destruct (Hnf lv n H).
      * destruct Hacc as [Hc Hl Ht]. split; simpl; try assumption.
        intros lv n H. destruct (Hnf lv n H).
    + assert (Hnf : forall lv n, (lv, MsgShuttingDown n) ∈ log s -> False).
      { intros lv n H. destruct (acc_total s Hacc lv n H) as [_ Hf].
        unfold finished in Hf. rewrite Hpc in Hf. discriminate. }
      destruct f as [e|].
      * apply accounted_raise; [exact Hacc|]. unfold finished. rewrite Hpc. reflexivity.
      * destruct Hacc as [Hc Hl Ht]. split; simpl.
        -- rewrite length_app. simpl. rewrite Hc. reflexivity.
        -- rewrite forward_lines_snoc, lines_for_snoc, Hl, Hc. simpl.
           rewrite Nat.add_1_r. reflexivity.
        -- intros lv n H. apply elem_of_app in H as [H|H]; [destruct (Hnf lv n H)|].
           apply list_elem_of_singleton in H. discriminate.
    + destruct Hacc as [Hc Hl Ht]. split; simpl.
      * exact Hc.
      * rewrite forward_lines_snoc. simpl. rewrite app_nil_r. exact Hl.
      * intros lv n H. split; [|destruct pend; reflexivity].
        apply elem_of_app in H as [H|H]; [exact (proj1 (Ht lv n H))|].
        apply list_elem_of_singleton in H. injection H as _ ->. exact Hc.
    + exact Hacc.
    + exact Hacc.
Qed.

Lemma accounted_run tr s : accounted s -> accounted (run tr s).
Proof.
  revert s. induction tr as [|e tr IH]; intros s H; [exact H|].
  rewrite run_cons. apply IH, accounted_step, H.
Qed.

(* sockets are closed by the finally block and by nothing else *)
Definition sockets_follow (s : state) : Prop :=
  if finished s then all_closed s else all_open s.

Lemma all_open_deliver s i m :
  all_open s -> all_open (with_subscribers (alter (deliver m) i (subscribers s)) s).
Proof.
  intros (Hs & Hp & Hc). split; [|split; assumption]. simpl.
  apply Forall_alter; [exact Hs|]. intros sub _ Hsub. unfold deliver.
  rewrite Hsub. case_match; simpl; first [exact Hsub|reflexivity].
Qed.

Lemma all_closed_deliver s i m :
  all_closed s -> all_closed (with_subscribers (alter (deliver m) i (subscribers s)) s).
Proof.
  intros (Hs & Hp & Hc). split; [|split; assumption]. simpl.
  apply Forall_alter; [exact Hs|]. intros sub _ Hsub. unfold deliver.
  rewrite Hsub. exact Hsub.
Qed.

Lemma sockets_follow_step e s : sockets_follow s -> sockets_follow (step e s).
Proof.
  unfold sockets_follow. intros H. destruct e as [i m d| |f]; simpl.
  - destruct d; [|exact H].
    change (finished (with_subscribers _ s)) with (finished s).
    destruct (finished s); [apply all_closed_deliver|apply all_open_deliver]; exact H.
  - change (finished (_signal_handler s)) with (finished s).
    destruct (finished s); exact H.
  - unfold thread_step, finished in *.
    destruct (at_pc s) as [| |k socks|k socks m|pend| |e] eqn:Hpc.
    + destruct (_running s); simpl; exact H.
    + destruct f as [[]|]; simpl; exact H.
    + destruct (subscribers s !! k) as [sub|] eqn:Hk; [|simpl; exact H].
      destruct (default false (socks !! k)); [|simpl; exact H].
      destruct f as [[]|]; simpl; try exact H.
      destruct (rx sub); simpl; [rewrite Hpc; exact H|].
      destruct H as (Hs & Hp & Hc). split; [|split; assumption]. simpl.
      apply Forall_insert; [exact Hs|].
      rewrite Forall_forall in Hs. apply (Hs sub). apply list_elem_of_lookup. eauto.
    + destruct f as [[]|]; simpl; exact H.
    + destruct pend; simpl; (split; [|split; reflexivity]); simpl;
        apply Forall_fmap, Forall_true; reflexivity.
    + rewrite Hpc. exact H.
    + rewrite Hpc. exact H.
Qed.

Lemma sockets_follow_run tr s : sockets_follow s -> sockets_follow (run tr s).
Proof.
  revert s. induction tr as [|e tr IH]; intros s H; [exact H|].
  rewrite run_cons. apply IH, sockets_follow_step, H.
Qed.

Lemma sockets_follow_initial : sockets_follow initial.
Proof.
  unfold sockets_follow, all_open. simpl. split; [|split; reflexivity].
  repeat constructor.
Qed.


(** *** Nothing is lost while the loop runs *)

Lemma looping_not_finished s : looping s = true -> finished s = false.
Proof. unfold looping, finished. destruct (at_pc s); congruence. Qed.

Lemma looping_before e s : looping (step e s) = true -> looping s = true.
Proof.
  destruct e as [i m d| |f]; simpl.
  - destruct d; intros H; exact H.
  - intros H; exact H.
  - unfold thread_step, looping.
    destruct (at_pc s) as [| |k socks|k socks m|pend| |e] eqn:Hpc; try reflexivity.
    + destruct pend; simpl; discriminate.
    + rewrite Hpc. discriminate.
    + rewrite Hpc. discriminate.
Qed.

Lemma looping_raise e s : looping (raise e s) = false.
Proof. destruct e; reflexivity. Qed.

Lemma running_thread_step f s : _running (thread_step f s) = _running s.
Proof.
  destruct s as [r subs p ct n pc0 lg]. unfold thread_step. simpl.
  destruct pc0 as [| |k socks|k socks m|pend| |e].
  - destruct r; reflexivity.
  - destruct f as [[]|]; reflexivity.
  - destruct (subs !! k) as [sub|]; [|reflexivity].
    destruct (default false (socks !! k)); [|reflexivity].
    destruct f as [[]|]; try reflexivity. destruct (rx sub); reflexivity.
  - destruct f as [[]|]; reflexivity.
  - destruct pend; reflexivity.
  - reflexivity.
  - reflexivity.
Qed.

Lemma running_quiet n s : _running (run (quiet n) s) = _running s.
Proof.
  revert s. induction n as [|n IH]; intros s; [reflexivity|].
  unfold quiet. simpl replicate. rewrite run_cons. fold (quiet n).
  rewrite IH. apply running_thread_step.
Qed.

(* a statement that leaves the thread in the loop moves frames along the
   chain and neither adds nor removes any *)
Lemma chain_thread_step_eq i f s :
  wf s -> i < length sensor_ports ->
  looping (thread_step f s) = true ->
  chain i (thread_step f s) = chain i s.
Proof.
  intros Hwf Hi. unfold thread_step.
  destruct (at_pc s) as [| |k socks|k socks m|pend| |e] eqn:Hpc.
  - intros _. destruct (_running s); unfold chain, downstream, inflight, queued; simpl;
      rewrite Hpc; reflexivity.
  - destruct f as [e|]; [rewrite looping_raise; discriminate|]. intros _.
    unfold chain, downstream, inflight, queued; simpl; rewrite Hpc; reflexivity.
  - destruct (subscribers s !! k) as [sub|] eqn:Hk.
    + destruct (default false (socks !! k)).
      * destruct f as [e|]; [rewrite looping_raise; discriminate|]. intros _.
        destruct (rx sub) as [|m rest] eqn:Hrx; [reflexivity|].
        pose proof (lookup_lt_Some _ _ _ Hk) as Hlt.
        unfold chain, downstream, inflight, queued; simpl; rewrite Hpc; simpl.
        f_equal.
        destruct (decide (k = i)) as [->|Hne].
        -- rewrite list_lookup_insert_eq by exact Hlt. rewrite Hk. simpl.
           rewrite Hrx. reflexivity.
        -- rewrite list_lookup_insert_ne by done. reflexivity.
      * intros _. unfold chain, downstream, inflight, queued; simpl; rewrite Hpc; reflexivity.
    + intros _. unfold chain, downstream, inflight, queued; simpl; rewrite Hpc; reflexivity.
  - destruct f as [e|]; [rewrite looping_raise; discriminate|]. intros _.
    destruct (wf_send _ Hwf _ _ _ Hpc) as [Hm Hk].
    unfold chain, downstream, inflight, queued; simpl; rewrite Hpc.
    rewrite filter_app, <- app_assoc. f_equal.
    change (filter (matches i) [m]) with (if decide (matches i m) then [m] else []).
    destruct (decide (k = i)) as [->|Hne].
    + rewrite decide_True by exact Hm. reflexivity.
    + rewrite decide_False by (eapply topics_exclusive; eauto). reflexivity.
  - destruct pend; discriminate.
  - unfold looping. rewrite Hpc. discriminate.
  - unfold looping. rewrite Hpc. discriminate.
Qed.

Lemma accepted_snoc i tr e : accepted i (tr ++ [e]) = accepted i tr ++ accepted i [e].
Proof. unfold accepted. apply omap_app. Qed.

(* a publication reaches the queue of its subscription, and only that one,
   when the transport delivers it and the frame starts with the topic *)
Lemma chain_publish i j m d s :
  wf s -> all_open s -> i < length sensor_ports ->
  chain i (step (EvPublish j m d) s) = chain i s ++ accepted i [EvPublish j m d].
Proof.
  intros Hwf (Hop & _ & _) Hi. simpl. destruct d; [|rewrite app_nil_r; reflexivity].
  unfold chain, downstream, inflight, queued; simpl.
  rewrite list_lookup_alter. destruct (decide (j = i)) as [->|Hne].
  - destruct (subscribers s !! i) as [sub|] eqn:Hsub; simpl.
    + assert (Hcl : sub_closed sub = false).
      { rewrite Forall_forall in Hop. apply Hop, list_elem_of_lookup. eauto. }
      pose proof (wf_subscription _ _ _ Hwf Hsub) as Hsb.
      unfold deliver. rewrite Hcl, Hsb.
      destruct (String.prefix (topic_of i) m) eqn:Hp; simpl.
      * rewrite decide_True by (split; [reflexivity|exact Hp]).
        rewrite <- !app_assoc. reflexivity.
      * rewrite decide_False; [rewrite app_nil_r; reflexivity|].
        intros [_ Hm]. unfold matches in Hm. congruence.
    + apply lookup_ge_None in Hsub. rewrite (wf_length _ Hwf) in Hsub. lia.
  - rewrite decide_False by (intros [? _]; congruence).
    rewrite !app_nil_r. reflexivity.
Qed.

(** *** Every queued frame gets forwarded *)

Lemma looping_thread_step s :
  _running s = true -> looping s = true -> looping (thread_step None s) = true.
Proof.
  intros Hr. unfold thread_step, looping.
  destruct (at_pc s) as [| |k socks|k socks m|pend| |e] eqn:Hpc; try discriminate; intros _.
  - rewrite Hr. reflexivity.
  - reflexivity.
  - destruct (subscribers s !! k) as [sub|]; [|reflexivity].
    destruct (default false (socks !! k)); [|reflexivity].
    destruct (rx sub); [rewrite Hpc|]; reflexivity.
  - reflexivity.
Qed.

Lemma quiet_keeps n : forall s i,
  wf s -> i < length sensor_ports -> _running s = true -> looping s = true ->
  looping (run (quiet n) s) = true /\ chain i (run (quiet n) s) = chain i s.
Proof.
  induction n as [|n IH]; intros s i Hwf Hi Hr Hl; [split; [exact Hl|reflexivity]|].
  unfold quiet. simpl replicate. rewrite run_cons. fold (quiet n).
  pose proof (looping_thread_step s Hr Hl) as Hl1.
  destruct (IH (step (EvStep None) s) i) as [H1 H2].
  - apply wf_step, Hwf.
  - exact Hi.
  - simpl. rewrite running_thread_step. exact Hr.
  - exact Hl1.
  - split; [exact H1|]. rewrite H2. apply chain_thread_step_eq; assumption.
Qed.

Lemma quiet_add n1 n2 s : run (quiet (n1 + n2)) s = run (quiet n2) (run (quiet n1) s).
Proof. unfold quiet. rewrite replicate_add. apply run_app. Qed.

(* the rest of the current pass *)
Lemma to_go_step s :
  wf s -> at_pc s <> AtWhile -> looping s = true ->
  at_pc (thread_step None s) = AtWhile \/ to_go (thread_step None s) < to_go s.
Proof.
  intros Hwf Hnw. unfold looping, thread_step, to_go.
  destruct (at_pc s) as [| |k socks|k socks m|pend| |e] eqn:Hpc; try discriminate;
    intros _.
  - congruence.
  - right. simpl. lia.
  - destruct (subscribers s !! k) as [sub|] eqn:Hk; [|left; reflexivity].
    pose proof (lookup_lt_Some _ _ _ Hk) as Hlt. right.
    destruct (default false (socks !! k)) eqn:Hso.
    + destruct (socks !! k) as [[]|] eqn:Hsk; try discriminate.
      destruct (rx sub) as [|m rest] eqn:Hrx.
      * exfalso. exact (wf_for _ Hwf k socks k sub Hpc (le_n k) Hsk Hk Hrx).
      * simpl. rewrite length_insert. lia.
    + simpl. lia.
  - destruct (wf_send _ Hwf _ _ _ Hpc) as [_ Hk].
    rewrite <- (wf_length _ Hwf) in Hk. right. simpl. lia.
Qed.

Lemma reach_while : forall g s,
  to_go s <= g -> wf s -> _running s = true -> looping s = true ->
  exists n, at_pc (run (quiet n) s) = AtWhile.
Proof.
  induction g as [|g IH]; intros s Hg Hwf Hr Hl.
  - exists 0. simpl. unfold to_go, looping in *.
    destruct (at_pc s) as [| |k socks|k socks m|pend| |e] eqn:Hpc; try discriminate;
      try reflexivity; try lia.
    destruct (wf_send _ Hwf _ _ _ Hpc) as [_ Hk].
    rewrite <- (wf_length _ Hwf) in Hk. lia.
  - assert (Hd : at_pc s = AtWhile \/ at_pc s <> AtWhile).
    { destruct (at_pc s); auto; right; discriminate. }
    destruct Hd as [Hw|Hnw]; [exists 0; exact Hw|].
    destruct (to_go_step s Hwf Hnw Hl) as [Hw|Hlt].
    + exists 1. exact Hw.
    + destruct (IH (thread_step None s)) as [n Hn].
      * lia.
      * apply wf_thread_step, Hwf.
      * rewrite running_thread_step. exact Hr.
      * apply looping_thread_step; assumption.
      * exists (S n). unfold quiet. simpl replicate. rewrite run_cons. exact Hn.
Qed.

(* one pass from the loop test, for the three subscriptions of the relay *)
Lemma std_pass s :
  at_pc s = AtWhile -> _running s = true ->
  length (subscribers s) = length sensor_ports ->
  let s' := run (quiet (3 + length (subscribers s) + ready_count s)) s in
  at_pc s' = AtWhile /\
  backlog s' + ready_count s = backlog s.
Proof.
  destruct s as [r subs p ct n pc0 lg]. simpl. intros -> -> Hlen.
  destruct subs as [|[t0 q0 c0] [|[t1 q1 c1] [|[t2 q2 c2] [|]]]]; try discriminate.
  destruct p as [sent pcl].
  destruct q0 as [|m0 q0], q1 as [|m1 q1], q2 as [|m2 q2]; cbn;
    split; try reflexivity; lia.
Qed.

Lemma ready_when_backlog s : 0 < backlog s -> 0 < ready_count s.
Proof.
  unfold backlog, ready_count. induction (subscribers s) as [|sub l IH].
  - simpl. lia.
  - rewrite !fmap_cons. cbn [sum_list sum_list_with]. unfold pollin at 1.
    destruct (rx sub); cbn [length]; unfold id in *; lia.
Qed.

Lemma drain_from_while : forall b s,
  backlog s <= b -> wf s -> _running s = true -> at_pc s = AtWhile ->
  exists n, at_pc (run (quiet n) s) = AtWhile /\ backlog (run (quiet n) s) = 0.
Proof.
  induction b as [|b IH]; intros s Hb Hwf Hr Hpc.
  - exists 0. split; [exact Hpc|]. simpl. lia.
  - destruct (decide (backlog s = 0)) as [H0|Hpos]; [exists 0; split; assumption|].
    pose proof (ready_when_backlog s ltac:(lia)) as Hrc.
    destruct (std_pass s Hpc Hr (wf_length _ Hwf)) as [Hpc' Hbl].
    set (k := 3 + length (subscribers s) + ready_count s) in *.
    destruct (IH (run (quiet k) s)) as [n [Hn1 Hn2]].
    + lia.
    + apply wf_run, Hwf.
    + rewrite running_quiet. exact Hr.
    + exact Hpc'.
    + exists (k + n). rewrite quiet_add. split; assumption.
Qed.

Lemma backlog_zero_queued i s : backlog s = 0 -> queued i s = [].
Proof.
  unfold backlog, queued. revert i.
  induction (subscribers s) as [|sub l IH]; intros i H; [destruct i; reflexivity|].
  rewrite fmap_cons in H. cbn [sum_list sum_list_with] in H. unfold id in *.
  destruct i as [|i]; simpl.
  - destruct (rx sub); [reflexivity|simpl in H; lia].
  - apply IH. lia.
Qed.


Lemma chain_exact_run tr i :
  i < length sensor_ports ->
  looping (run tr initial) = true ->
  chain i (run tr initial) = accepted i tr.
Proof.
  intros Hi. induction tr as [|e tr IH] using rev_ind.
  - intros _. destruct i as [|[|[|i]]]; simpl in Hi; try lia; reflexivity.
  - rewrite run_snoc. intros Hl. pose proof (looping_before _ _ Hl) as Hl0.
    specialize (IH Hl0). rewrite accepted_snoc, <- IH.
    pose proof (wf_run tr _ wf_initial) as Hwf.
    destruct e as [j m d| |f].
    + apply chain_publish; [exact Hwf| |exact Hi].
      pose proof (sockets_follow_run tr _ sockets_follow_initial) as Hsf.
      unfold sockets_follow in Hsf.
      rewrite (looping_not_finished _ Hl0) in Hsf. exact Hsf.
    + simpl. rewrite app_nil_r. reflexivity.
    + simpl. rewrite app_nil_r. apply chain_thread_step_eq; assumption.
Qed.

Lemma std_drain s :
  wf s -> looping s = true -> _running s = true ->
  exists n,
    at_pc (run (quiet n) s) = AtWhile /\ _running (run (quiet n) s) = true /\
    forall i, i < length sensor_ports ->
      downstream i (run (quiet n) s) = chain i s /\
      queued i (run (quiet n) s) = [].
Proof.
  intros Hwf Hl Hr.
  destruct (reach_while (to_go s) s (le_n _) Hwf Hr Hl) as [n1 Hn1].
  set (s1 := run (quiet n1) s) in *.
  assert (Hwf1 : wf s1) by apply wf_run, Hwf.
  assert (Hr1 : _running s1 = true) by (unfold s1; rewrite running_quiet; exact Hr).
  destruct (drain_from_while (backlog s1) s1 (le_n _) Hwf1 Hr1 Hn1) as (n2 & Hpc & Hb).
  exists (n1 + n2). rewrite quiet_add. fold s1.
  split; [exact Hpc|]. split; [rewrite running_quiet; exact Hr1|].
  intros i Hi.
  assert (Hl1 : looping s1 = true) by (unfold looping; rewrite Hn1; reflexivity).
  destruct (quiet_keeps n1 s i Hwf Hi Hr Hl) as [_ Hc1]. fold s1 in Hc1.
  destruct (quiet_keeps n2 s1 i Hwf1 Hi Hr1 Hl1) as [_ Hc2].
  pose proof (backlog_zero_queued i _ Hb) as Hq. split; [|exact Hq].
  rewrite <- Hc1, <- Hc2. unfold chain, inflight. rewrite Hpc, Hq.
  simpl. rewrite app_nil_r. reflexivity.
Qed.

Lemma accepted_quiet i n : accepted i (quiet n) = [].
Proof. induction n as [|n IH]; [reflexivity|exact IH]. Qed.

Lemma accepted_app i tr1 tr2 : accepted i (tr1 ++ tr2) = accepted i tr1 ++ accepted i tr2.
Proof. unfold accepted. apply omap_app. Qed.

End BrokerMoreFacts.

Module BrokerMoreTheorems.
Import Zmq ZmqFacts Broker BrokerFacts BrokerMore BrokerMoreFacts.

(** X5: in every run of the single-threaded relay the counter event_count
    equals the number of frames handed to the publisher; the log holds one
    FORWARD record per published frame, in the order of publication, numbered
    from 1 and carrying the frame's first token and its length; and a
    shutting-down record is written only on the way out and reports exactly
    the number of frames published. *)
Theorem forwarded_frames_counted_and_logged (tr : list event) :
  let s := run tr initial in
  event_count s = length (tx (publisher s)) /\
  forward_lines (log s) = lines_for (tx (publisher s)) /\
  (forall k m, tx (publisher s) !! k = Some m ->
     forward_lines (log s) !! k =
       Some (INFO, MsgForward (S k) (first_token m) (String.length m))) /\
  (forall lv n, (lv, MsgShuttingDown n) ∈ log s ->
     n = length (tx (publisher s)) /\ finished s = true).
Proof.
  cbv zeta. destruct (accounted_run tr initial accounted_initial) as [Hc Hl Ht].
  split; [exact Hc|]. split; [exact Hl|]. split; [|exact Ht].
  intros k m Hk. rewrite Hl. unfold lines_for. rewrite list_lookup_imap.
  unfold frame in *. rewrite Hk. reflexivity.
Qed.

(** X6: the sockets of the single-threaded relay are closed by its finally
    block and by nothing else: in every run, as long as run_broker_standard
    has not left, every subscriber, the publisher and the context are open;
    once it has left, normally or with an exception, all of them are closed
    and the context is terminated, and whatever happens afterwards nothing
    more is published. *)
Theorem sockets_closed_exactly_on_exit (tr tr' : list event) :
  let s := run tr initial in
  (finished s = false -> all_open s) /\
  (finished s = true ->
     all_closed s /\
     tx (publisher (run (tr ++ tr') initial)) = tx (publisher s)).
Proof.
  intros s. pose proof (sockets_follow_run tr _ sockets_follow_initial) as H.
  fold s in H. unfold sockets_follow in H. split.
  - intros Hf. rewrite Hf in H. exact H.
  - intros Hf. rewrite Hf in H. split; [exact H|].
    rewrite run_app. fold s. clear H. revert Hf. generalize s. clear s.
    induction tr' as [|e tr' IH]; intros s Hf; [reflexivity|].
    rewrite run_cons, IH by (apply finished_step; exact Hf).
    destruct e as [i m d| |f]; simpl.
    + destruct d; reflexivity.
    + reflexivity.
    + unfold thread_step. unfold finished in Hf.
      destruct (at_pc s); try discriminate; reflexivity.
Qed.

(** X7: while the single-threaded relay is inside its loop it has neither
    lost nor duplicated nor reordered a frame: for each sensor, the frames
    already published downstream, then the frame held in the variable
    message, then the frames waiting in the subscription queue are exactly
    the frames of that sensor that the transport delivered and that start
    with the subscribed topic, in the order of delivery. *)
Theorem no_frame_lost_inside_loop (tr : list event) (i : nat) :
  i < length sensor_ports ->
  looping (run tr initial) = true ->
  downstream i (run tr initial) ++ inflight i (run tr initial)
    ++ queued i (run tr initial) = accepted i tr.
Proof.
  intros Hi Hl. pose proof (chain_exact_run tr i Hi Hl) as H.
  unfold chain in H. exact H.
Qed.

Lemma no_frame_lost_inside_loop_witness :
  let tr := [EvPublish 0 "camara a" true; EvStep None; EvPublish 0 "gps b" true;
             EvPublish 0 "camara c" false; EvStep None; EvStep None;
             EvPublish 0 "camara d" true] in
  0 < length sensor_ports /\
  looping (run tr initial) = true /\
  downstream 0 (run tr initial) ++ inflight 0 (run tr initial)
    ++ queued 0 (run tr initial) = ["camara a"; "camara d"].
Proof.
  intros tr. split; [simpl; lia|]. split; [reflexivity|].
  apply (no_frame_lost_inside_loop tr 0); [simpl; lia|reflexivity].
Defined.

(** X8: the single-threaded relay gets every frame it has accepted out: from
    any state reached inside the loop with the running flag set, if no call
    raises and no signal arrives, the thread reaches after finitely many of
    its own statements a loop test where every subscription queue is empty
    and, for each sensor, what has been published downstream is what was
    published before followed by the frame in flight and the frames that
    were queued, in that order. *)
Theorem queued_frames_get_forwarded (tr : list event) :
  let s := run tr initial in
  looping s = true -> _running s = true ->
  exists n,
    let s' := run (quiet n) s in
    at_pc s' = AtWhile /\ _running s' = true /\
    forall i, i < length sensor_ports ->
      downstream i s' = downstream i s ++ inflight i s ++ queued i s /\
      queued i s' = [].
Proof.
  intros s Hl Hr.
  destruct (std_drain s (wf_run tr _ wf_initial) Hl Hr) as (n & Hpc & Hr' & H).
  exists n. cbv zeta. split; [exact Hpc|]. split; [exact Hr'|].
  intros i Hi. destruct (H i Hi) as [Hd Hq]. split; [|exact Hq].
  rewrite Hd. reflexivity.
Qed.

Lemma queued_frames_get_forwarded_witness :
  let tr := [EvPublish 0 "camara a" true; EvPublish 2 "gps b" true;
             EvPublish 0 "camara c" true; EvStep None; EvStep None] in
  looping (run tr initial) = true /\ _running (run tr initial) = true /\
  exists n,
    at_pc (run (quiet n) (run tr initial)) = AtWhile /\
    _running (run (quiet n) (run tr initial)) = true /\
    forall i, i < length sensor_ports ->
      downstream i (run (quiet n) (run tr initial)) =
        downstream i (run tr initial) ++ inflight i (run tr initial)
          ++ queued i (run tr initial) /\
      queued i (run (quiet n) (run tr initial)) = [].
Proof.
  intros tr. split; [reflexivity|]. split; [reflexivity|].
  apply (queued_frames_get_forwarded tr); reflexivity.
Defined.

End BrokerMoreTheorems.

Module SensorFacts.
Import Constants Zmq Py Sensor.

Section Loop.
Context (TOPIC : string) {draw : Type}
        (event_json : value -> value -> draw -> option string)
        (time_sleep : PrimFloat.float -> option exn)
        (sensors : list sensor_def) (interval_sec : PrimFloat.float).

Local Abbreviation thread_step := (thread_step TOPIC draw event_json time_sleep sensors interval_sec).
Local Abbreviation step := (step TOPIC draw event_json time_sleep sensors interval_sec).
Local Abbreviation run := (run TOPIC draw event_json time_sleep sensors interval_sec).
Local Abbreviation start := (start sensors).
Local Abbreviation frame_for := (frame_for TOPIC draw event_json).

Lemma sensor_run_snoc tr e s : run (tr ++ [e]) s = step e (run tr s).
Proof. unfold Sensor.run. rewrite foldl_snoc. reflexivity. Qed.

Lemma sensor_run_app tr1 tr2 s : run (tr1 ++ tr2) s = run tr2 (run tr1 s).
Proof. unfold Sensor.run. apply foldl_app. Qed.

Lemma sensor_run_cons e tr s : run (e :: tr) s = run tr (step e s).
Proof. reflexivity. Qed.

Lemma tx_raise e s : publisher (raise e s) = publisher s.
Proof. destruct e as [| | | |[]]; reflexivity. Qed.

Lemma sleeps_raise e s : sleeps (raise e s) = sleeps s.
Proof. destruct e as [| | | |[]]; reflexivity. Qed.

Lemma running_raise e s : _running (raise e s) = _running s.
Proof. destruct e as [| | | |[]]; reflexivity. Qed.

Lemma pc_raise e s : exists p, at_pc (raise e s) = AtFinally p.
Proof. destruct e as [| | | |[]]; eexists; reflexivity. Qed.

(** *** The loop serves the sensors in turn *)

(* how far the loop is in its current pass, against the frames sent *)
Definition in_step (s : state) : Prop :=
  let n := length sensors in
  let sent := length (tx (publisher s)) in
  match at_pc s with
  | AtWhile => _running s = true -> exists c, sent = c * n
  | AtFor k => k <= n /\ exists c, sent = c * n + k
  | AtGenerate k sd => sensors !! k = Some sd /\ exists c, sent = c * n + k
  | AtSend k _ _ m =>
      (exists sd d, sensors !! k = Some sd /\ frame_for sd d = Some m) /\
      exists c, sent = c * n + k
  | AtSleep k => k < n /\ exists c, sent = c * n + k + 1
  | _ => True
  end.

Definition sleeps_follow (s : state) : Prop :=
  let sent := length (tx (publisher s)) in
  match at_pc s with
  | AtWhile | AtFor _ | AtGenerate _ _ | AtSend _ _ _ _ => sleeps s = sent
  | AtSleep _ => S (sleeps s) = sent
  | _ => sleeps s <= sent <= S (sleeps s)
  end.

Record paced (s : state) : Prop := mkPaced {
  paced_pos : in_step s;
  paced_frames : forall j m, tx (publisher s) !! j = Some m ->
    exists sd d, sensors !! (j mod length sensors) = Some sd /\
                 frame_for sd d = Some m;
  paced_sleeps : sleeps_follow s
}.

Lemma paced_start : paced start.
Proof.
  unfold Sensor.start. destruct (sensor_ids sensors); split;
    unfold in_step, sleeps_follow; simpl; try lia; try done.
  intros _. exists 0. reflexivity.
Qed.

Lemma paced_raise e s :
  paced s -> sleeps s <= length (tx (publisher s)) <= S (sleeps s) ->
  paced (raise e s).
Proof.
  intros [Hp Hf Hs] Hle. destruct (pc_raise e s) as [p Hpc]. split.
  - unfold in_step. rewrite Hpc. exact I.
  - rewrite tx_raise. exact Hf.
  - unfold sleeps_follow. rewrite Hpc, tx_raise, sleeps_raise. exact Hle.
Qed.

Lemma paced_thread_step d f s : paced s -> paced (thread_step d f s).
Proof.
  intros Hpaced. pose proof Hpaced as [Hp Hf Hs].
  unfold Sensor.thread_step. unfold in_step, sleeps_follow in Hp, Hs.
  destruct (at_pc s) as [|k|k sd|k sid inter m|k|pend| |e] eqn:Hpc.
  - destruct (_running s) eqn:Hr.
    + destruct (Hp eq_refl) as [c Hc]. split; [|exact Hf|exact Hs].
      unfold in_step. simpl. split; [lia|]. exists c. lia.
    + split; [exact I|exact Hf|].
      unfold sleeps_follow. simpl. lia.
  - destruct Hp as [Hk [c Hc]].
    destruct (sensors !! k) as [sd|] eqn:Hsd.
    + destruct (_running s) eqn:Hr.
      * split; [|exact Hf|exact Hs].
        unfold in_step. simpl. split; [exact Hsd|]. exists c. exact Hc.
      * split; [|exact Hf|exact Hs].
        unfold in_step. simpl. rewrite Hr. discriminate.
    + apply lookup_ge_None in Hsd. split; [|exact Hf|exact Hs].
      unfold in_step. simpl. intros _. exists (S c). simpl. lia.
  - destruct Hp as [Hsd [c Hc]].
    destruct (sd !! "sensor_id") as [sid|] eqn:Hsid;
      [|apply paced_raise; [exact Hpaced|lia]].
    destruct (sd !! "interseccion") as [inter|] eqn:Hint;
      [|apply paced_raise; [exact Hpaced|lia]].
    destruct (event_json sid inter d) as [j|] eqn:Hj;
      [|apply paced_raise; [exact Hpaced|lia]].
    split; [|exact Hf|exact Hs].
    unfold in_step. simpl.
    split; [|exists c; exact Hc]. exists sd, d. split; [exact Hsd|].
    unfold Sensor.frame_for. rewrite Hsid, Hint. simpl. rewrite Hj. reflexivity.
  - destruct Hp as [(sd & d0 & Hsd & Hfr) [c Hc]].
    destruct f as [e|]; [apply paced_raise; [exact Hpaced|lia]|].
    pose proof (lookup_lt_Some _ _ _ Hsd) as Hlt.
    split.
    + unfold in_step. simpl. rewrite length_app. simpl.
      split; [exact Hlt|]. exists c. lia.
    + simpl. intros j m' Hj.
      destruct (decide (j < length (tx (publisher s)))) as [Hlt'|Hge].
      * rewrite lookup_app_l in Hj by exact Hlt'. exact (Hf j m' Hj).
      * pose proof (lookup_lt_Some _ _ _ Hj) as Hb. rewrite length_app in Hb.
        simpl in Hb. assert (j = length (tx (publisher s))) as -> by lia.
        rewrite lookup_app_r, Nat.sub_diag in Hj by lia. injection Hj as <-.
        exists sd, d0. split; [|exact Hfr].
        rewrite Hc, Nat.add_comm, Nat.Div0.mod_add, Nat.mod_small by exact Hlt.
        exact Hsd.
    + unfold sleeps_follow. simpl. rewrite length_app. simpl. lia.
  - destruct Hp as [Hk [c Hc]].
    destruct (time_sleep (per_sensor_delay sensors interval_sec));
      [apply paced_raise; [exact Hpaced|lia]|].
    split; [|exact Hf|].
    + unfold in_step. simpl. split; [lia|]. exists c. lia.
    + unfold sleeps_follow. simpl. lia.
  - split; [destruct pend; exact I|exact Hf|].
    unfold sleeps_follow. destruct pend; simpl; exact Hs.
  - exact Hpaced.
  - exact Hpaced.
Qed.

Lemma paced_step e s : paced s -> paced (step e s).
Proof.
  destruct e as [|d f]; [|apply paced_thread_step].
  intros [Hp Hf Hs]. split; [|exact Hf|exact Hs].
  unfold in_step in *. simpl. destruct (at_pc s); try exact Hp. discriminate.
Qed.

Lemma paced_run tr s : paced s -> paced (run tr s).
Proof.
  revert s. induction tr as [|e tr IH]; intros s H; [exact H|].
  rewrite sensor_run_cons. apply IH, paced_step, H.
Qed.

(** *** Once the flag is cleared *)

Lemma sensor_stays_stopped e s : _running s = false -> _running (step e s) = false.
Proof.
  intros Hr. destruct e as [|d f]; [reflexivity|]. simpl.
  unfold Sensor.thread_step.
  destruct (at_pc s) as [|k|k sd|k sid inter m|k|pend| |e];
    repeat case_match; rewrite ?running_raise; simpl; congruence.
Qed.

Lemma stop_thread_step d f s :
  _running s = false ->
  let s' := thread_step d f s in
  (rank s' < rank s \/ (rank s' = 0 /\ rank s = 0)) /\
  length (tx (publisher s')) + to_send s' <= length (tx (publisher s)) + to_send s /\
  sleeps s' + to_sleep s' <= sleeps s + to_sleep s.
Proof.
  intros Hr. cbv zeta. unfold Sensor.thread_step, rank, to_send, to_sleep.
  destruct (at_pc s) as [|k|k sd|k sid inter m|k|pend| |e] eqn:Hpc; rewrite ?Hr.
  - simpl. lia.
  - destruct (sensors !! k); simpl; lia.
  - destruct (sd !! "sensor_id") as [sid|]; [|simpl; lia].
    destruct (sd !! "interseccion") as [inter|]; [|simpl; lia].
    destruct (event_json sid inter d); simpl; lia.
  - destruct f as [e|].
    + destruct (pc_raise (Transport e) s) as [p Hp].
      rewrite Hp, tx_raise, sleeps_raise. lia.
    + simpl. rewrite length_app. simpl. lia.
  - destruct (time_sleep (per_sensor_delay sensors interval_sec)) as [e|].
    + destruct (pc_raise e s) as [p Hp].
      rewrite Hp, tx_raise, sleeps_raise. lia.
    + simpl. lia.
  - destruct pend; simpl; lia.
  - rewrite Hpc. lia.
  - rewrite Hpc. lia.
Qed.

Lemma sensor_steps_in_cons (e : event draw) tr :
  steps_in (e :: tr) = (if is_step e then 1 else 0) + steps_in tr.
Proof.
  unfold steps_in. rewrite filter_cons. destruct (is_step e).
  - rewrite decide_True by reflexivity. reflexivity.
  - rewrite decide_False by discriminate. reflexivity.
Qed.

Lemma stop_run tr : forall s,
  _running s = false ->
  rank (run tr s) + steps_in tr <= rank s \/ rank (run tr s) = 0.
Proof.
  induction tr as [|e tr IH]; intros s Hr.
  - left. change (steps_in (@nil (event draw))) with 0. simpl. lia.
  - rewrite sensor_run_cons, sensor_steps_in_cons.
    destruct (IH _ (sensor_stays_stopped e s Hr)) as [H|H]; [|right; exact H].
    destruct e as [|d f].
    + left. exact H.
    + pose proof (stop_thread_step d f s Hr) as Hst. cbv zeta in Hst.
      destruct Hst as [[Hlt|[H0 _]] _].
      * left. cbn [is_step Sensor.step] in *. lia.
      * right. cbn [is_step Sensor.step] in *. lia.
Qed.

Lemma stop_counts tr : forall s,
  _running s = false ->
  length (tx (publisher (run tr s))) + to_send (run tr s)
    <= length (tx (publisher s)) + to_send s /\
  sleeps (run tr s) + to_sleep (run tr s) <= sleeps s + to_sleep s.
Proof.
  induction tr as [|e tr IH]; intros s Hr; [simpl; lia|].
  rewrite sensor_run_cons.
  destruct (IH _ (sensor_stays_stopped e s Hr)) as [H1 H2].
  destruct e as [|d f]; [exact (conj H1 H2)|].
  pose proof (stop_thread_step d f s Hr) as Hst. cbv zeta in Hst.
  destruct Hst as (_ & H3 & H4). cbn [Sensor.step] in *. lia.
Qed.

(* the publisher is closed by the finally block only *)
Definition closed_on_exit (s : state) : Prop :=
  if finished s
  then pub_closed (publisher s) = true /\ context_terminated s = true
  else pub_closed (publisher s) = false /\ context_terminated s = false.

Lemma closed_on_exit_step e s : closed_on_exit s -> closed_on_exit (step e s).
Proof.
  unfold closed_on_exit, finished. destruct e as [|d f]; [intros H; exact H|].
  simpl. unfold Sensor.thread_step.
  destruct (at_pc s) as [|k|k sd|k sid inter m|k|pend| |e] eqn:Hpc; intros H;
    repeat case_match; simplify_eq;
    try (rewrite ?Hpc; exact H);
    try (simpl in *; first [exact H|split; reflexivity]);
    try (match goal with
         | Hm : context [raise ?x s] |- _ =>
             destruct (pc_raise x s) as [p Hp]; rewrite Hp in Hm; try discriminate;
             simplify_eq; rewrite tx_raise; destruct x as [| | | |[]]; exact H
         end).
Qed.

Lemma closed_on_exit_run tr s : closed_on_exit s -> closed_on_exit (run tr s).
Proof.
  revert s. induction tr as [|e tr IH]; intros s H; [exact H|].
  rewrite sensor_run_cons. apply IH, closed_on_exit_step, H.
Qed.

(* a finished thread does nothing more *)
Lemma sensor_finished_step e s :
  finished s = true ->
  at_pc (step e s) = at_pc s /\ publisher (step e s) = publisher s /\
  context_terminated (step e s) = context_terminated s /\
  sleeps (step e s) = sleeps s.
Proof.
  unfold finished. intros Hf. destruct e as [|d f]; simpl; [auto|].
  unfold Sensor.thread_step.
  destruct (at_pc s) eqn:Hpc; try discriminate; rewrite ?Hpc; auto.
Qed.

Lemma sensor_finished_run tr s :
  finished s = true ->
  at_pc (run tr s) = at_pc s /\ publisher (run tr s) = publisher s /\
  context_terminated (run tr s) = context_terminated s /\
  sleeps (run tr s) = sleeps s.
Proof.
  revert s. induction tr as [|e tr IH]; intros s Hf; [auto|].
  rewrite sensor_run_cons.
  destruct (sensor_finished_step e s Hf) as (H1 & H2 & H3 & H4).
  destruct (IH (step e s)) as (H5 & H6 & H7 & H8).
  - unfold finished in *. rewrite H1. exact Hf.
  - rewrite H5, H6, H7, H8. auto.
Qed.

End Loop.

(* every frame starts with the topic and a space *)
Lemma prefix_append (a b : string) : String.prefix a (a ++ b) = true.
Proof.
  induction a as [|c a IH]; simpl; [destruct b; reflexivity|].
  destruct (ascii_dec c c); [exact IH|congruence].
Qed.

Lemma first_token_topic (T : string) (j : string) :
  first_token T = T -> first_token (T ++ " " ++ j) = T.
Proof.
  induction T as [|c T IH]; simpl; [reflexivity|].
  destruct (Ascii.eqb c " ") eqn:Hc; [discriminate|].
  intros [= H]. rewrite (IH H). reflexivity.
Qed.

End SensorFacts.

Module SensorRunFacts.
Import Constants Zmq Py Sensor SensorFacts.

Section Loop.
Context (TOPIC : string) {draw : Type}
        (event_json : value -> value -> draw -> option string)
        (time_sleep : PrimFloat.float -> option exn)
        (sensors : list sensor_def) (interval_sec : PrimFloat.float).

Local Abbreviation thread_step := (thread_step TOPIC draw event_json time_sleep sensors interval_sec).
Local Abbreviation step := (step TOPIC draw event_json time_sleep sensors interval_sec).
Local Abbreviation run := (run TOPIC draw event_json time_sleep sensors interval_sec).
Local Abbreviation start := (start sensors).

Lemma run_undisturbed_cons d ds s :
  run (undisturbed (d :: ds)) s = run (undisturbed ds) (thread_step d None s).
Proof. reflexivity. Qed.

Lemma step_for d s j sd :
  at_pc s = AtFor j -> _running s = true -> sensors !! j = Some sd ->
  thread_step d None s = goto (AtGenerate j sd) s.
Proof. intros Hpc Hr Hsd. unfold Sensor.thread_step. rewrite Hpc, Hsd, Hr. reflexivity. Qed.

Lemma step_generate d s j sd sid inter js :
  at_pc s = AtGenerate j sd ->
  sd !! "sensor_id" = Some sid -> sd !! "interseccion" = Some inter ->
  event_json sid inter d = Some js ->
  thread_step d None s = goto (AtSend j sid inter (TOPIC ++ " " ++ js)%string) s.
Proof.
  intros Hpc Hsid Hint Hjs. unfold Sensor.thread_step.
  rewrite Hpc, Hsid, Hint, Hjs. reflexivity.
Qed.

Lemma step_send d s j sid inter m :
  at_pc s = AtSend j sid inter m ->
  thread_step d None s =
    goto (AtSleep j)
         (logger (MsgEvent sid inter) (with_publisher (send m (publisher s)) s)).
Proof. intros Hpc. unfold Sensor.thread_step. rewrite Hpc. reflexivity. Qed.

Lemma step_sleep d f s j :
  at_pc s = AtSleep j ->
  thread_step d f s =
    match time_sleep (per_sensor_delay sensors interval_sec) with
    | None => goto (AtFor (S j)) (with_sleeps (S (sleeps s)) s)
    | Some e => raise e s
    end.
Proof. intros Hpc. unfold Sensor.thread_step. rewrite Hpc. reflexivity. Qed.

(* one sensor served: four statements, one frame, one sleep *)
Lemma serve_one s j sd sid inter d1 d2 d3 d4 :
  time_sleep (per_sensor_delay sensors interval_sec) = None ->
  (forall a b d, is_Some (event_json a b d)) ->
  at_pc s = AtFor j -> _running s = true ->
  sensors !! j = Some sd ->
  sd !! "sensor_id" = Some sid -> sd !! "interseccion" = Some inter ->
  exists m,
    run (undisturbed [d1; d2; d3; d4]) s =
      mkState true (send m (publisher s)) (context_terminated s) (S (sleeps s))
              (AtFor (S j)) (log s ++ [MsgEvent sid inter]).
Proof.
  intros Hi Htot Hpc Hr Hsd Hsid Hint.
  destruct (Htot sid inter d2) as [js Hjs].
  exists (TOPIC ++ " " ++ js)%string.
  rewrite !run_undisturbed_cons.
  rewrite (step_for d1 s j sd Hpc Hr Hsd).
  rewrite (step_generate d2 (goto (AtGenerate j sd) s) j sd sid inter js
             eq_refl Hsid Hint Hjs).
  rewrite (step_send d3 (goto _ (goto _ s)) j sid inter _ eq_refl).
  rewrite (step_sleep d4 None (goto _ (logger _ (with_publisher _ (goto _ (goto _ s)))))
             j eq_refl).
  rewrite Hi.
  destruct s as [r p ct sl pc0 lg]. simpl in Hr. subst r. reflexivity.
Qed.

End Loop.

End SensorRunFacts.

(* What the examples run the sensor loop on. *)
Module SensorExamples.
Import Py Sensor PrimFloat.

(* a generator that cannot fail and a one-sensor list *)
Definition plain_json (sensor_id intersection : value) (d : nat) : option string :=
  Some "{}".

Definition one_gps : list sensor_def :=
  [ {[ "sensor_id" := VStr "GPS-A1"; "interseccion" := VStr "INT-A1" ]} ].

(* time.sleep of a float as CPython has it: the length is converted to
   nanoseconds; NaN is a ValueError, a length outside the 64-bit range of
   nanoseconds an OverflowError, a negative length a ValueError *)
Definition sleep_float (secs : float) : option exn :=
  let ns := (secs * 1e9)%float in
  if is_nan secs then Some ValueError
  else if negb ((-0x1p63 <=? ns)%float && (ns <? 0x1p63)%float)
       then Some OverflowError
       else if (ns <? 0)%float then Some ValueError else None.

(* intervals: ten seconds, minus one second, 1e10 seconds, and the
   negative float closest to zero *)
Definition ten : float := 10%float.
Definition minus_one : float := (-1)%float.
Definition ten_billion : float := 1e10%float.
Definition minus_tiny : float := (-0x1p-1074)%float.

End SensorExamples.

Module SensorTheorems.
Import Constants Zmq ZmqFacts Py Sensor SensorFacts SensorRunFacts SensorExamples.

(** X9: whatever the sensors list, the interval, the random draws, the
    signals and the faults, every frame a sensor process publishes is its
    topic, a space and the serialised event: the k-th frame is the topic, a
    space and the JSON text of the event generated, from some draw, for the
    sensor_id and the interseccion of the entry at position k mod
    len(sensors) of the sensors list.  For the i-th topic of
    ALL_SENSOR_TOPICS such a frame is queued by a SUB socket subscribed to
    that topic, is accepted by the i-th subscription of both relays and by
    none of the other two, and its first token, which the relays log, is the
    topic. *)
Theorem sensor_frames_reach_their_subscription
    (i : nat) (T : string) {draw : Type}
    (event_json : value -> value -> draw -> option string)
    (time_sleep : PrimFloat.float -> option exn)
    (sensors : list sensor_def) (interval_sec : PrimFloat.float)
    (tr : list (event draw)) (k : nat) (m : frame) :
  ALL_SENSOR_TOPICS !! i = Some T ->
  tx (publisher (run T draw event_json time_sleep sensors interval_sec tr (start sensors)))
    !! k = Some m ->
  (exists sd d sid inter js,
     sensors !! (k mod length sensors) = Some sd /\
     sd !! "sensor_id" = Some sid /\ sd !! "interseccion" = Some inter /\
     event_json sid inter d = Some js /\
     m = (T ++ " " ++ js)%string) /\
  rx (deliver m (connect_sub T)) = [m] /\
  first_token m = T /\
  Broker.matches i m /\ BrokerThreaded.matches i m /\
  (forall j, j < 3 -> j <> i ->
     ~ Broker.matches j m /\ ~ BrokerThreaded.matches j m).
Proof.
  intros HT Hk.
  destruct (paced_run T event_json time_sleep sensors interval_sec tr _
              (paced_start T event_json sensors)) as [_ Hf _].
  destruct (Hf k m Hk) as (sd & d & Hsd & Hfr).
  unfold frame_for in Hfr.
  destruct (sd !! "sensor_id") as [sid|] eqn:Hsid; [|discriminate].
  destruct (sd !! "interseccion") as [inter|] eqn:Hint; [|discriminate].
  simpl in Hfr. destruct (event_json sid inter d) as [js|] eqn:Hjs; [|discriminate].
  injection Hfr as <-.
  assert (Hi : i < 3) by (apply lookup_lt_Some in HT; exact HT).
  assert (Hb : Broker.matches i (T ++ " " ++ js)%string).
  { unfold Broker.matches.
    destruct i as [|[|[|i]]]; try lia; injection HT as <-; apply prefix_append. }
  assert (Hm : BrokerThreaded.matches i (T ++ " " ++ js)%string).
  { unfold BrokerThreaded.matches.
    destruct i as [|[|[|i]]]; try lia; injection HT as <-; apply prefix_append. }
  split; [exists sd, d, sid, inter, js; auto|].
  split; [|split; [|split; [exact Hb|split; [exact Hm|]]]].
  - unfold deliver, connect_sub. simpl. rewrite prefix_append. reflexivity.
  - apply first_token_topic.
    destruct i as [|[|[|i]]]; try lia; injection HT as <-; reflexivity.
  - intros j Hj Hne. split.
    + apply (BrokerFacts.topics_exclusive i j); try assumption; congruence.
    + apply (BrokerThreadedFacts.mt_topics_exclusive i j); try assumption; congruence.
Qed.

Lemma sensor_frames_reach_their_subscription_witness :
  let m := "gps {}" in
  (exists sd d sid inter js,
     one_gps !! (0 mod length one_gps) = Some sd /\
     sd !! "sensor_id" = Some sid /\ sd !! "interseccion" = Some inter /\
     plain_json sid inter d = Some js /\
     m = (TOPIC_GPS ++ " " ++ js)%string) /\
  rx (deliver m (connect_sub TOPIC_GPS)) = [m] /\
  first_token m = TOPIC_GPS /\
  Broker.matches 2 m /\ ~ Broker.matches 0 m.
Proof.
  intros m.
  destruct (sensor_frames_reach_their_subscription 2 TOPIC_GPS plain_json sleep_float one_gps ten
              (undisturbed [0; 0; 0; 0]) 0 m eq_refl eq_refl)
    as (H0 & H1 & H2 & H3 & _ & H4).
  split; [exact H0|]. split; [exact H1|]. split; [exact H2|]. split; [exact H3|].
  apply (H4 0); lia.
Defined.

(** X10: a sensor process serves its sensors in turn: under any schedule
    of signals and faults, the j-th frame it has published (counting from 0)
    was built for the sensor at position j mod len(sensors) of the list, and
    it has slept once after each frame except possibly the last. *)
Theorem sensors_served_in_turn
    (T : string) {draw : Type}
    (event_json : value -> value -> draw -> option string)
    (time_sleep : PrimFloat.float -> option exn)
    (sensors : list sensor_def) (interval_sec : PrimFloat.float) (tr : list (event draw)) :
  let s := run T draw event_json time_sleep sensors interval_sec tr (start sensors) in
  (forall j m, tx (publisher s) !! j = Some m ->
     exists sd d, sensors !! (j mod length sensors) = Some sd /\
                  frame_for T draw event_json sd d = Some m) /\
  sleeps s <= length (tx (publisher s)) <= S (sleeps s).
Proof.
  intros s.
  destruct (paced_run T event_json time_sleep sensors interval_sec tr _
              (paced_start T event_json sensors)) as [Hp Hf Hs].
  fold s in Hp, Hf, Hs. split; [exact Hf|].
  unfold sleeps_follow in Hs. destruct (at_pc s); lia.
Qed.

(** X11: once the running flag of a sensor process is cleared, the process
    publishes at most one more frame and sleeps at most once more, and after
    at most six more of its own statements run_..._sensor has left with the
    publisher closed and the context terminated. *)
Theorem sensor_stops_after_signal
    (T : string) {draw : Type}
    (event_json : value -> value -> draw -> option string)
    (time_sleep : PrimFloat.float -> option exn)
    (sensors : list sensor_def) (interval_sec : PrimFloat.float)
    (tr0 tr : list (event draw)) :
  let s := run T draw event_json time_sleep sensors interval_sec tr0 (start sensors) in
  let s' := run T draw event_json time_sleep sensors interval_sec tr s in
  is_Some (sensor_ids sensors) ->
  _running s = false ->
  length (tx (publisher s')) <= length (tx (publisher s)) + 1 /\
  sleeps s' <= sleeps s + 1 /\
  (6 <= steps_in tr ->
   finished s' = true /\ pub_closed (publisher s') = true /\
   context_terminated s' = true).
Proof.
  intros s s' Hids Hr.
  destruct (stop_counts T event_json time_sleep sensors interval_sec tr s Hr) as [H1 H2].
  fold s' in H1, H2.
  assert (Hts : to_send s <= 1) by (unfold to_send; destruct (at_pc s); lia).
  assert (Htl : to_sleep s <= 1) by (unfold to_sleep; destruct (at_pc s); lia).
  split; [lia|]. split; [lia|]. intros Hsteps.
  assert (Hfin : finished s' = true).
  { destruct (stop_run T event_json time_sleep sensors interval_sec tr s Hr) as [H|H];
      fold s' in H.
    - assert (rank s <= 6) by (unfold rank; destruct (at_pc s); lia).
      unfold finished, rank in *. destruct (at_pc s'); try reflexivity; lia.
    - unfold finished, rank in *. destruct (at_pc s'); try reflexivity; lia. }
  split; [exact Hfin|].
  assert (Hc : closed_on_exit s').
  { unfold s', s. rewrite <- sensor_run_app. apply closed_on_exit_run.
    unfold closed_on_exit, start. destruct Hids as [ids ->]. simpl. auto. }
  unfold closed_on_exit in Hc. rewrite Hfin in Hc. exact Hc.
Qed.

Lemma sensor_stops_after_signal_witness :
  let s := run TOPIC_GPS nat plain_json sleep_float one_gps ten
               [EvStep 0 None; EvStep 0 None; EvSignal] (start one_gps) in
  let s' := run TOPIC_GPS nat plain_json sleep_float one_gps ten (undisturbed (replicate 6 0)) s in
  length (tx (publisher s)) = 0 /\ length (tx (publisher s')) = 1 /\
  finished s' = true /\ pub_closed (publisher s') = true.
Proof.
  intros s s'.
  destruct (sensor_stops_after_signal TOPIC_GPS plain_json sleep_float one_gps ten
              [EvStep 0 None; EvStep 0 None; EvSignal] (undisturbed (replicate 6 0))
              ltac:(vm_compute; eauto) eq_refl) as (_ & _ & H).
  destruct (H ltac:(vm_compute; lia)) as (H1 & H2 & _).
  split; [reflexivity|]. split; [reflexivity|]. split; [exact H1|exact H2].
Defined.

(** X12: with an empty sensors list a sensor process never publishes and
    never sleeps: while the flag is set the loop only alternates between the
    loop test and the exhausted for statement, no statement can raise, and
    the only way out is a signal, after which the function returns normally. *)
Theorem empty_sensor_list_spins
    (T : string) {draw : Type}
    (event_json : value -> value -> draw -> option string)
    (time_sleep : PrimFloat.float -> option exn)
    (interval_sec : PrimFloat.float) (tr : list (event draw)) :
  let s := run T draw event_json time_sleep [] interval_sec tr (start []) in
  tx (publisher s) = [] /\ sleeps s = 0 /\
  (at_pc s = AtWhile \/ at_pc s = AtFor 0 \/
   (_running s = false /\ (at_pc s = AtFinally None \/ at_pc s = Returned))).
Proof.
  induction tr as [|e tr IH] using rev_ind.
  - simpl. auto.
  - rewrite sensor_run_snoc. cbv zeta in IH.
    set (s := run T draw event_json time_sleep [] interval_sec tr (start [])) in *.
    destruct IH as (Htx & Hsl & Hpc). destruct e as [|d f].
    + simpl. split; [exact Htx|]. split; [exact Hsl|].
      destruct Hpc as [H|[H|[_ H]]]; auto.
    + simpl. unfold thread_step.
      destruct Hpc as [H|[H|[Hr [H|H]]]]; rewrite H.
      * destruct (_running s) eqn:Hr; simpl; auto 10.
      * simpl. auto.
      * simpl. auto 10.
      * rewrite H. auto 10.
Qed.

(** X13: a sensors list with an entry that has no sensor_id makes
    run_..._sensor raise KeyError while it builds the list of ids, before
    the try block: nothing is ever published, and the publisher, already
    bound, is never closed nor the context terminated, whatever happens
    afterwards. *)
Theorem missing_sensor_id_leaves_socket_open
    (T : string) {draw : Type}
    (event_json : value -> value -> draw -> option string)
    (time_sleep : PrimFloat.float -> option exn)
    (sensors : list sensor_def) (interval_sec : PrimFloat.float) (tr : list (event draw))
    (k : nat) (sd : sensor_def) :
  sensors !! k = Some sd -> sd !! "sensor_id" = None ->
  let s := run T draw event_json time_sleep sensors interval_sec tr (start sensors) in
  at_pc s = Raised (KeyError "sensor_id") /\
  tx (publisher s) = [] /\
  pub_closed (publisher s) = false /\ context_terminated s = false.
Proof.
  intros Hk Hsd s.
  assert (Hids : sensor_ids sensors = None).
  { apply mapM_None. apply Exists_exists. exists sd. split; [|exact Hsd].
    apply list_elem_of_lookup. eauto. }
  assert (Hst : start sensors =
                mkState true bind_pub false 0 (Raised (KeyError "sensor_id")) []).
  { unfold start. rewrite Hids. reflexivity. }
  destruct (sensor_finished_run T event_json time_sleep sensors interval_sec tr (start sensors))
    as (H1 & H2 & H3 & _).
  { rewrite Hst. reflexivity. }
  fold s in H1, H2, H3. rewrite H1, H2, H3, Hst. simpl. auto.
Qed.

Lemma missing_sensor_id_leaves_socket_open_witness :
  let sensors := [ {[ "interseccion" := VStr "INT-A1" ]} ] : list sensor_def in
  let s := run TOPIC_GPS nat plain_json sleep_float sensors ten
               [EvStep 0 None; EvSignal; EvStep 0 None] (start sensors) in
  at_pc s = Raised (KeyError "sensor_id") /\ pub_closed (publisher s) = false.
Proof.
  intros sensors s.
  destruct (missing_sensor_id_leaves_socket_open TOPIC_GPS plain_json sleep_float sensors ten
              [EvStep 0 None; EvSignal; EvStep 0 None] 0
              {[ "interseccion" := VStr "INT-A1" ]} eq_refl eq_refl)
    as (H1 & _ & H2 & _).
  split; [exact H1|exact H2].
Defined.

(** X14: when every entry of the sensors list has a sensor_id and the first
    entry without interseccion is at position k, a sensor process that is
    left undisturbed (a delay that time.sleep accepts, a generator that does
    not raise, no signal, no fault) publishes one frame for each of the k
    sensors before it, sleeping after each, and then raises KeyError for
    interseccion; the finally block has closed the publisher and terminated
    the context.  This takes 4k + 4 statements. *)
Theorem missing_interseccion_ends_the_process
    (T : string) {draw : Type}
    (event_json : value -> value -> draw -> option string)
    (time_sleep : PrimFloat.float -> option exn)
    (sensors : list sensor_def) (interval_sec : PrimFloat.float) (ds : list draw)
    (k : nat) (sdk : sensor_def) :
  time_sleep (per_sensor_delay sensors interval_sec) = None ->
  (forall a b d, is_Some (event_json a b d)) ->
  Forall (fun sd : sensor_def => is_Some (sd !! "sensor_id")) sensors ->
  (forall j sd, j < k -> sensors !! j = Some sd -> is_Some (sd !! "interseccion")) ->
  sensors !! k = Some sdk -> sdk !! "interseccion" = None ->
  4 * k + 4 <= length ds ->
  let s := run T draw event_json time_sleep sensors interval_sec (undisturbed ds)
               (start sensors) in
  at_pc s = Raised (KeyError "interseccion") /\
  length (tx (publisher s)) = k /\ sleeps s = k /\
  pub_closed (publisher s) = true /\ context_terminated s = true.
Proof.
  intros Hi Htot Hids Hbefore Hk Hnone Hlen.
  assert (Hstart : exists ids, start sensors =
                     mkState true bind_pub false 0 AtWhile [MsgStarted ids]).
  { unfold start. destruct (sensor_ids sensors) as [ids|] eqn:E; [eauto|].
    apply mapM_None in E. apply Exists_exists in E as (sd & Hin & Hn).
    rewrite Forall_forall in Hids. destruct (Hids sd Hin) as [? ?]. congruence. }
  destruct Hstart as [ids Hst]. rewrite Hst.
  destruct ds as [|d0 ds]; [simpl in Hlen; lia|]. simpl in Hlen.
  rewrite run_undisturbed_cons.
  change (thread_step T draw event_json time_sleep sensors interval_sec d0 None
            (mkState true bind_pub false 0 AtWhile [MsgStarted ids]))
    with (mkState true bind_pub false 0 (AtFor 0) [MsgStarted ids]).
  (* from the for statement at position j, with j frames sent *)
  assert (Hgo : forall n j ds0 s0,
            j + n = k -> at_pc s0 = AtFor j -> _running s0 = true ->
            length (tx (publisher s0)) = j -> sleeps s0 = j ->
            pub_closed (publisher s0) = false ->
            4 * n + 3 <= length ds0 ->
            let s1 := run T draw event_json time_sleep sensors interval_sec
                          (undisturbed ds0) s0 in
            at_pc s1 = Raised (KeyError "interseccion") /\
            length (tx (publisher s1)) = k /\ sleeps s1 = k /\
            pub_closed (publisher s1) = true /\ context_terminated s1 = true).
  { induction n as [|n IH]; intros j ds0 s0 Hjk Hpc Hr Htx Hsl Hcl Hl.
    - assert (Hj : j = k) by lia. rewrite Hj in Hpc, Htx, Hsl. clear Hj Hjk.
      destruct ds0 as [|d1 [|d2 [|d3 ds1]]]; simpl in Hl; try lia.
      cbv zeta. rewrite !run_undisturbed_cons.
      rewrite (step_for T event_json time_sleep sensors interval_sec d1 s0 k sdk Hpc Hr Hk).
      assert (H2 : thread_step T draw event_json time_sleep sensors interval_sec d2 None
                     (goto (AtGenerate k sdk) s0)
                   = goto (AtFinally (Some (KeyError "interseccion"))) s0).
      { unfold thread_step. simpl. rewrite Hnone.
        rewrite Forall_forall in Hids.
        destruct (Hids sdk) as [sid ->]; [apply list_elem_of_lookup; eauto|].
        reflexivity. }
      rewrite H2.
      destruct (sensor_finished_run T event_json time_sleep sensors interval_sec (undisturbed ds1)
                  (thread_step T draw event_json time_sleep sensors interval_sec d3 None
                     (goto (AtFinally (Some (KeyError "interseccion"))) s0)))
        as (H5 & H6 & H7 & H8); [reflexivity|].
      rewrite H5, H6, H7, H8. simpl. auto.
    - assert (Hjlt : j < k) by lia.
      destruct (lookup_lt_is_Some_2 sensors j) as [sd Hsd].
      { apply lookup_lt_Some in Hk. lia. }
      rewrite Forall_forall in Hids.
      destruct (Hids sd) as [sid Hsid]; [apply list_elem_of_lookup; eauto|].
      destruct (Hbefore j sd Hjlt Hsd) as [inter Hint].
      destruct ds0 as [|d1 [|d2 [|d3 [|d4 ds1]]]]; simpl in Hl; try lia.
      destruct (serve_one T event_json time_sleep sensors interval_sec s0 j sd sid inter
                  d1 d2 d3 d4 Hi Htot Hpc Hr Hsd Hsid Hint) as [m Hm].
      cbv zeta.
      change (undisturbed (d1 :: d2 :: d3 :: d4 :: ds1))
        with (undisturbed [d1; d2; d3; d4] ++ undisturbed ds1).
      rewrite sensor_run_app, Hm.
      apply (IH (S j)); simpl; rewrite ?length_app; simpl; try lia; auto. }
  apply (Hgo k 0); simpl; try reflexivity; lia.
Qed.

Lemma missing_interseccion_ends_the_process_witness :
  let sensors := [ {[ "sensor_id" := VStr "GPS-A1"; "interseccion" := VStr "INT-A1" ]};
                   {[ "sensor_id" := VStr "GPS-A2" ]} ] : list sensor_def in
  let s := run TOPIC_GPS nat plain_json sleep_float sensors minus_tiny
               (undisturbed (replicate 8 0)) (start sensors) in
  per_sensor_delay sensors minus_tiny = PrimFloat.opp PrimFloat.zero /\
  at_pc s = Raised (KeyError "interseccion") /\
  tx (publisher s) = ["gps {}"] /\ pub_closed (publisher s) = true.
Proof.
  intros sensors s. split; [reflexivity|].
  destruct (missing_interseccion_ends_the_process TOPIC_GPS plain_json sleep_float sensors
              minus_tiny (replicate 8 0) 1 {[ "sensor_id" := VStr "GPS-A2" ]})
    as (H1 & _ & _ & H2 & _).
  - reflexivity.
  - intros a b d. eexists. reflexivity.
  - repeat constructor; eexists; reflexivity.
  - intros j sd Hj Hsd. destruct j; [|lia]. injection Hsd as <-.
    eexists. reflexivity.
  - reflexivity.
  - reflexivity.
  - simpl. lia.
  - split; [exact H1|]. split; [reflexivity|exact H2].
Defined.

(** X15: when time.sleep rejects the delay (ValueError for a negative
    length or NaN, OverflowError for a length beyond the range of the clock),
    a sensor process that has a usable first sensor publishes exactly one
    frame: the sleep that follows it raises, the finally block closes the
    publisher and terminates the context, and the error leaves
    run_..._sensor.  This takes six statements. *)
Theorem rejected_delay_ends_the_process
    (T : string) {draw : Type}
    (event_json : value -> value -> draw -> option string)
    (time_sleep : PrimFloat.float -> option exn)
    (sensors : list sensor_def) (interval_sec : PrimFloat.float) (ds : list draw)
    (sd : sensor_def) (sid inter : value) (e : exn) :
  time_sleep (per_sensor_delay sensors interval_sec) = Some e ->
  e = ValueError \/ e = OverflowError ->
  (forall a b d, is_Some (event_json a b d)) ->
  Forall (fun sd : sensor_def => is_Some (sd !! "sensor_id")) sensors ->
  sensors !! 0 = Some sd ->
  sd !! "sensor_id" = Some sid -> sd !! "interseccion" = Some inter ->
  6 <= length ds ->
  let s := run T draw event_json time_sleep sensors interval_sec (undisturbed ds)
               (start sensors) in
  at_pc s = Raised e /\
  length (tx (publisher s)) = 1 /\ sleeps s = 0 /\
  pub_closed (publisher s) = true /\ context_terminated s = true.
Proof.
  intros Hsleep He Htot Hids Hsd Hsid Hint Hlen.
  assert (Hstart : exists ids, start sensors =
                     mkState true bind_pub false 0 AtWhile [MsgStarted ids]).
  { unfold start. destruct (sensor_ids sensors) as [ids|] eqn:E; [eauto|].
    apply mapM_None in E. apply Exists_exists in E as (sd' & Hin & Hn).
    rewrite Forall_forall in Hids. destruct (Hids sd' Hin) as [? ?]. congruence. }
  destruct Hstart as [ids Hst]. rewrite Hst.
  destruct ds as [|d0 [|d1 [|d2 [|d3 [|d4 [|d5 ds]]]]]]; simpl in Hlen; try lia.
  destruct (Htot sid inter d2) as [js Hjs].
  cbv zeta. rewrite !run_undisturbed_cons.
  change (thread_step T draw event_json time_sleep sensors interval_sec d0 None
            (mkState true bind_pub false 0 AtWhile [MsgStarted ids]))
    with (mkState true bind_pub false 0 (AtFor 0) [MsgStarted ids]).
  set (s1 := mkState true bind_pub false 0 (AtFor 0) [MsgStarted ids]).
  rewrite (step_for T event_json time_sleep sensors interval_sec d1 s1 0 sd
             eq_refl eq_refl Hsd).
  set (s2 := goto (AtGenerate 0 sd) s1).
  rewrite (step_generate T event_json time_sleep sensors interval_sec d2 s2 0 sd sid
             inter js eq_refl Hsid Hint Hjs).
  set (s3 := goto (AtSend 0 sid inter (T ++ " " ++ js)%string) s2).
  rewrite (step_send T event_json time_sleep sensors interval_sec d3 s3 0 sid inter _
             eq_refl).
  set (s4 := goto (AtSleep 0) _).
  rewrite (step_sleep T event_json time_sleep sensors interval_sec d4 None s4 0 eq_refl).
  rewrite Hsleep.
  match goal with
  | |- context [run _ _ _ _ _ _ (undisturbed ds) ?s0] =>
      destruct (sensor_finished_run T event_json time_sleep sensors interval_sec
                  (undisturbed ds) s0) as (H5 & H6 & H7 & H8);
        [destruct He as [-> | ->]; reflexivity|]
  end.
  rewrite H5, H6, H7, H8. destruct He as [-> | ->]; simpl; auto.
Qed.

Lemma rejected_delay_ends_the_process_witness :
  let s := run TOPIC_GPS nat plain_json sleep_float one_gps minus_one
               (undisturbed (replicate 6 0)) (start one_gps) in
  let s' := run TOPIC_GPS nat plain_json sleep_float one_gps ten_billion
               (undisturbed (replicate 6 0)) (start one_gps) in
  (at_pc s = Raised ValueError /\ tx (publisher s) = ["gps {}"] /\
   pub_closed (publisher s) = true) /\
  (at_pc s' = Raised OverflowError /\ tx (publisher s') = ["gps {}"] /\
   pub_closed (publisher s') = true).
Proof.
  intros s s'. split.
  - destruct (rejected_delay_ends_the_process TOPIC_GPS plain_json sleep_float one_gps
                minus_one (replicate 6 0)
                {[ "sensor_id" := VStr "GPS-A1"; "interseccion" := VStr "INT-A1" ]}
                (VStr "GPS-A1") (VStr "INT-A1") ValueError) as (H1 & _ & _ & H2 & _).
    + reflexivity.
    + left. reflexivity.
    + intros a b d. eexists. reflexivity.
    + repeat constructor; eexists; reflexivity.
    + reflexivity.
    + reflexivity.
    + reflexivity.
    + simpl. lia.
    + split; [exact H1|]. split; [reflexivity|exact H2].
  - destruct (rejected_delay_ends_the_process TOPIC_GPS plain_json sleep_float one_gps
                ten_billion (replicate 6 0)
                {[ "sensor_id" := VStr "GPS-A1"; "interseccion" := VStr "INT-A1" ]}
                (VStr "GPS-A1") (VStr "INT-A1") OverflowError) as (H1 & _ & _ & H2 & _).
    + reflexivity.
    + right. reflexivity.
    + intros a b d. eexists. reflexivity.
    + repeat constructor; eexists; reflexivity.
    + reflexivity.
    + reflexivity.
    + reflexivity.
    + simpl. lia.
    + split; [exact H1|]. split; [reflexivity|exact H2].
Defined.



End SensorTheorems.

Module GpsSensorTheorems.
Import Constants Py Models ModelsFacts ModelsMore GpsSensor.

(** X16: generate_gps_event never raises, whatever the sensor id and the
    intersection are: the event carries them unchanged, the drawn speed, the
    clock reading and the GPS sensor type, its congestion level is the one
    get_congestion_level gives for the speed, it can be serialised, and
    from_dict rebuilds the same event from the serialised dictionary. *)
Theorem generate_gps_event_total
    (dumps : gmap string value -> string)
    (now now' : string) (velocidad : Q) (sid inter : value) :
  exists e level,
    generate_gps_event now velocidad sid inter = Some e /\
    get_congestion_level (VNum (Fin velocidad)) = Some level /\
    e = mkGPSEvent sid (VStr SENSOR_TYPE_GPS) inter (VStr level)
                   (VNum (Fin velocidad)) (VStr now) /\
    gps_event_json dumps sid inter (now, velocidad)
      = Some (dumps (GPSEvent_asdict e)) /\
    from_dict now' (GPSEvent_asdict e) = Some e.
Proof.
  assert (Hl : exists level, get_congestion_level (VNum (Fin velocidad)) = Some level).
  { rewrite ModelsTheorems.congestion_of_finite. repeat case_match; eauto. }
  destruct Hl as [level Hl].
  assert (He : generate_gps_event now velocidad sid inter =
               Some (mkGPSEvent sid (VStr SENSOR_TYPE_GPS) inter (VStr level)
                                (VNum (Fin velocidad)) (VStr now))).
  { unfold generate_gps_event, GPSEvent_init, __post_init__. simpl.
    rewrite Hl. reflexivity. }
  eexists _, level. split; [exact He|]. split; [exact Hl|]. split; [reflexivity|].
  split.
  - unfold gps_event_json. simpl. rewrite He. reflexivity.
  - rewrite ModelsMoreTheorems.from_dict_asdict. unfold __post_init__. simpl.
    rewrite Hl. reflexivity.
Qed.

End GpsSensorTheorems.

Module ConfigLoaderMoreTheorems.
Import ConfigLoader.

Lemma get_config_failed {json : Type} (read_json : string -> option json)
    (dflt : string) (st : module_state json) (p : option string) :
  _config_instance st = None -> read_json (default dflt p) = None ->
  get_config read_json dflt p st = (None, st).
Proof.
  intros Hc Hr. unfold get_config, CityConfig_new. rewrite Hc, Hr. reflexivity.
Qed.

(** X17: get_config caches only a successful load.  In a sequence of calls
    made from a fresh module, every call before the first one whose path can
    be loaded raises and leaves the module as it was; that call creates the
    one CityConfig object the module ever holds, from its own path; it and
    all later calls return that object.  If no path can be loaded every call
    raises and nothing is cached. *)
Theorem get_config_retries_until_loaded
    {json : Type} (read_json : string -> option json) (dflt : string)
    (paths : list (option string)) :
  match list_find (fun p => is_Some (read_json (default dflt p))) paths with
  | None =>
      get_config_calls read_json dflt paths initial
        = (replicate (length paths) None, initial)
  | Some (k, p) =>
      exists j, read_json (default dflt p) = Some j /\
        get_config_calls read_json dflt paths initial
          = (replicate k None ++ replicate (length paths - k) (Some 0),
             mkModuleState json [mkCityConfig json j] (Some 0))
  end.
Proof.
  induction paths as [|p ps IH]; [reflexivity|].
  cbn [list_find]. destruct (decide (is_Some (read_json (default dflt p)))) as [Hy|Hn].
  - destruct Hy as [j Hj]. exists j. split; [exact Hj|].
    cbn [get_config_calls]. unfold get_config, CityConfig_new. simpl.
    rewrite Hj. simpl.
    rewrite (ConfigLoaderTheorems.get_config_calls_cached read_json dflt
               (mkModuleState json [mkCityConfig json j] (Some 0)) 0 ps eq_refl).
    reflexivity.
  - assert (Hnone : read_json (default dflt p) = None).
    { destruct (read_json (default dflt p)); [exfalso; apply Hn; eauto|reflexivity]. }
    cbn [get_config_calls].
    rewrite (get_config_failed read_json dflt initial p eq_refl Hnone).
    destruct (list_find _ ps) as [[k q]|]; simpl.
    + destruct IH as (j & Hj & ->). exists j. split; [exact Hj|]. reflexivity.
    + rewrite IH. reflexivity.
Qed.

End ConfigLoaderMoreTheorems.

Module DbUtilsTheorems.
Import DbUtils.

(** X18: the statement query_congestion_history hands to SQLite always has
    as many ? placeholders as bound parameters; the parameters are the
    filters in force, in the order start, end, intersection, followed by the
    limit; a filter that is None or the empty string is not in force; and
    the query text depends only on which filters are in force, never on
    their values. *)
Theorem query_congestion_history_binds_every_placeholder
    (ti tf inter : option string) (limit : Z) :
  let '(query, params) := query_congestion_history ti tf inter limit in
  placeholders query = length params /\
  params = ((PText <$> filters ti tf inter) ++ [PInt limit])%list /\
  (forall ti' tf' inter' limit',
     truthy ti' = truthy ti -> truthy tf' = truthy tf ->
     truthy inter' = truthy inter ->
     (query_congestion_history ti' tf' inter' limit').1 = query).
Proof.
  unfold query_congestion_history, filters.
  destruct (truthy ti) eqn:H1, (truthy tf) eqn:H2, (truthy inter) eqn:H3;
    (split; [reflexivity|split; [reflexivity|]]);
    intros ti' tf' inter' limit' -> -> ->; reflexivity.
Qed.

End DbUtilsTheorems.

Module BrokerThreadedMoreFacts.
Import Zmq ZmqFacts BrokerThreaded BrokerThreadedFacts BrokerThreadedMore.

Lemma mt_accepted_snoc i tr e : accepted i (tr ++ [e]) = accepted i tr ++ accepted i [e].
Proof. unfold accepted. apply omap_app. Qed.

Lemma in_loop_raise e : in_loop (raise e) = false.
Proof. destruct e; reflexivity. Qed.

Lemma in_loop_leave p : in_loop (leave p) = false.
Proof. destruct p; reflexivity. Qed.

(* a worker statement that leaves the worker inside its loop *)
Lemma worker_step_in_loop r f w :
  (w_pc w = AtRecv -> rx (sub w) <> []) ->
  in_loop (w_pc (worker_step r f w).1) = true ->
  in_loop (w_pc w) = true /\
  w_chain (worker_step r f w).1 = w_chain w /\
  length (pipe (push (worker_step r f w).1)) + count w
    = length (pipe (push w)) + count (worker_step r f w).1.
Proof.
  intros Hrecv. unfold worker_step, w_chain.
  destruct (w_pc w) as [| | |m|e|pend| |e] eqn:Hpc; simpl.
  - destruct r; simpl; [auto|discriminate].
  - destruct f as [e|]; simpl; [rewrite in_loop_raise; discriminate|].
    intros _. rewrite ?Hpc. destruct (pollin (sub w)); auto.
  - destruct f as [e|]; simpl; [rewrite in_loop_raise; discriminate|].
    intros _. destruct (rx (sub w)) as [|m rest] eqn:Hrx; simpl.
    + exfalso. exact (Hrecv eq_refl eq_refl).
    + rewrite ?Hrx. simpl. auto.
  - destruct f as [e|]; simpl; [rewrite in_loop_raise; discriminate|].
    intros _. rewrite <- app_assoc. rewrite length_app. simpl. split; [auto|].
    split; [reflexivity|lia].
  - discriminate.
  - rewrite in_loop_leave. discriminate.
  - rewrite ?Hpc. discriminate.
  - rewrite ?Hpc. discriminate.
Qed.

(* any worker statement: the pipe and the counter move together *)
Lemma worker_step_count r f w :
  length (pipe (push (worker_step r f w).1)) + count w
    = length (pipe (push w)) + count (worker_step r f w).1.
Proof.
  unfold worker_step.
  destruct (w_pc w) as [| | |m|e|pend| |e]; simpl; try reflexivity.
  - destruct f; reflexivity.
  - destruct f; [reflexivity|]. destruct (rx (sub w)); reflexivity.
  - destruct f; [reflexivity|]. simpl. rewrite length_app. simpl. lia.
Qed.

Lemma lookup_workers_step_worker i j f s :
  workers (step (EvWorker j f) s) !! i =
  if decide (j = i)
  then (fun w => (worker_step (_running s) f w).1) <$> workers s !! i
  else workers s !! i.
Proof.
  simpl. destruct (decide (j = i)) as [->|Hne].
  - destruct (workers s !! i) as [w|] eqn:Hi; simpl.
    + destruct (worker_step (_running s) f w) as [w' out] eqn:Hs. simpl.
      rewrite list_lookup_insert_eq by (eapply lookup_lt_Some; eauto). reflexivity.
    + exact Hi.
  - destruct (workers s !! j) as [w|] eqn:Hj; [|reflexivity].
    destruct (worker_step (_running s) f w) as [w' out]. simpl.
    apply list_lookup_insert_ne. exact Hne.
Qed.

Lemma collector_step_worker_step j f s :
  collector (step (EvWorker j f) s) = collector s.
Proof.
  simpl. destruct (workers s !! j) as [w|]; [|reflexivity].
  destruct (worker_step (_running s) f w). reflexivity.
Qed.

(* what a collector statement does to the workers: it takes the head of at
   most one pipe *)
Lemma collector_step_workers r choice f ws c :
  (collector_step r choice f ws c).1.1 = ws \/
  exists j w m rest, ws !! j = Some w /\ pipe (push w) = m :: rest /\
    c_pc c = AtRecv /\ f = None /\
    (collector_step r choice f ws c).1.1 = alter take j ws /\
    (collector_step r choice f ws c).1.2 = c_goto (AtSend m) c.
Proof.
  unfold collector_step.
  destruct (c_pc c) as [| | |m|e|pend| |e] eqn:Hpc; simpl; auto.
  - destruct f; auto.
  - destruct f as [e|]; [auto|].
    destruct (pick choice ws) as [j|] eqn:Hpick; [|auto].
    destruct (pick_Some _ _ _ Hpick) as (w & Hj & Hf).
    apply has_frames_pipe in Hf as (m & rest & Hp).
    rewrite Hj. simpl. rewrite Hp. simpl. right. exists j, w, m, rest. auto 10.
  - destruct f; auto.
Qed.

Lemma take_fields w :
  sub (take w) = sub w /\ w_pc (take w) = w_pc w /\ count (take w) = count w /\
  pipe (push (take w)) = tail (pipe (push w)).
Proof. auto. Qed.

(* a collector statement that leaves the collector inside its loop moves
   frames along the chain and neither adds nor removes any *)
Lemma collector_step_in_loop i choice f s :
  wf s -> i < length sensor_ports ->
  in_loop (c_pc (collector (step (EvCollector choice f) s))) = true ->
  in_loop (c_pc (collector s)) = true /\
  chain i (step (EvCollector choice f) s) = chain i s /\
  length (collected i (step (EvCollector choice f) s))
    + length (pipe_of i (step (EvCollector choice f) s))
    = length (collected i s) + length (pipe_of i s).
Proof.
  intros Hwf Hi. unfold chain, collected, pipe_of, downstream. simpl.
  unfold collector_step.
  destruct (c_pc (collector s)) as [| | |m|e|pend| |e] eqn:Hpc; simpl.
  - destruct (_running s); simpl; [auto|discriminate].
  - destruct f as [e|]; simpl; [rewrite in_loop_raise; discriminate|].
    intros _. destruct (pull_ready (workers s)); simpl; auto.
  - destruct f as [e|]; simpl; [rewrite in_loop_raise; discriminate|].
    intros _.
    destruct (pick choice (workers s)) as [j|] eqn:Hpick; simpl;
      [|rewrite ?Hpc; simpl; auto].
    destruct (pick_Some _ _ _ Hpick) as (w & Hj & Hf).
    apply has_frames_pipe in Hf as (m & rest & Hp).
    rewrite Hj. simpl. rewrite Hp. simpl.
    pose proof (lookup_lt_Some _ _ _ Hj) as Hlt.
    pose proof (wf_len _ Hwf) as Hlen.
    pose proof (wfw_chain _ _ (wf_workers _ Hwf _ _ Hj)) as Hc. unfold w_chain in Hc.
    rewrite Hp in Hc. simpl in Hc. apply Forall_cons in Hc as [Hm _].
    change (filter (matches i) [m]) with (if decide (matches i m) then [m] else []).
    rewrite list_lookup_alter. destruct (decide (j = i)) as [->|Hne].
    + rewrite decide_True by exact Hm. rewrite Hj. simpl.
      unfold w_chain; simpl. rewrite Hp. simpl.
      split; [reflexivity|]. split; [reflexivity|].
      rewrite !length_app. simpl. lia.
    + rewrite decide_False by (eapply (mt_topics_exclusive j i); eauto; lia).
      auto.
  - destruct f as [e|]; simpl; [rewrite in_loop_raise; discriminate|].
    intros _. rewrite filter_app, <- app_assoc.
    split; [reflexivity|]. split; [reflexivity|].
    rewrite !app_nil_r. reflexivity.
  - discriminate.
  - rewrite in_loop_leave. discriminate.
  - rewrite ?Hpc. discriminate.
  - rewrite ?Hpc. discriminate.
Qed.

(* any collector statement: it never holds or publishes more than it took *)
Lemma collector_step_collected i choice f s :
  wf s -> i < length sensor_ports ->
  length (collected i (step (EvCollector choice f) s))
    + length (pipe_of i (step (EvCollector choice f) s))
    <= length (collected i s) + length (pipe_of i s) /\
  count_of i (step (EvCollector choice f) s) = count_of i s.
Proof.
  intros Hwf Hi.
  assert (Hcount : count_of i (step (EvCollector choice f) s) = count_of i s).
  { unfold count_of. simpl.
    destruct (collector_step_workers (_running s) choice f (workers s) (collector s))
      as [Heq|(j & w & m & rest & Hj & Hp & _ & _ & Heq & _)];
      destruct (collector_step (_running s) choice f (workers s) (collector s))
        as [[ws c] out]; simpl in *; subst ws; [reflexivity|].
    rewrite list_lookup_alter. destruct (decide (j = i)) as [->|]; [|reflexivity].
    rewrite Hj. reflexivity. }
  split; [|exact Hcount].
  destruct (in_loop (c_pc (collector (step (EvCollector choice f) s)))) eqn:Hl.
  - destruct (collector_step_in_loop i choice f s Hwf Hi Hl) as (_ & _ & H). lia.
  - revert Hl. unfold collected, pipe_of, downstream. simpl. unfold collector_step.
    destruct (c_pc (collector s)) as [| | |m|e|pend| |e] eqn:Hpc; simpl.
    + destruct (_running s); simpl; intros; lia.
    + destruct f as [e|]; simpl; rewrite ?held_raise; [intros; simpl; lia|].
      destruct (pull_ready (workers s)); simpl; intros; lia.
    + destruct f as [e|]; simpl; rewrite ?held_raise; [intros; simpl; lia|].
      destruct (pick choice (workers s)) as [j|] eqn:Hpick; simpl;
        [|rewrite ?Hpc; simpl; intros; lia].
      destruct (pick_Some _ _ _ Hpick) as (w & Hj & Hf).
      apply has_frames_pipe in Hf as (m & rest & Hp).
      rewrite Hj. simpl. rewrite Hp. simpl. discriminate.
    + destruct f as [e|]; simpl; rewrite ?held_raise; [|discriminate].
      intros _. rewrite !length_app. simpl. lia.
    + intros _. lia.
    + rewrite held_leave. intros _. simpl. lia.
    + rewrite ?Hpc. simpl. intros; lia.
    + rewrite ?Hpc. simpl. intros; lia.
Qed.


Lemma lookup_workers_publish i j m s :
  workers (step (EvPublish j m true) s) !! i =
  if decide (j = i) then deliver_to m <$> workers s !! i else workers s !! i.
Proof.
  simpl. rewrite list_lookup_alter. destruct (decide (j = i)) as [->|]; reflexivity.
Qed.

Lemma in_loops_before i e s : in_loops i (step e s) = true -> in_loops i s = true.
Proof.
  unfold in_loops. intros [Hc Hw]%andb_true_iff. apply andb_true_iff.
  destruct e as [j m d| |j f|choice f].
  - destruct d; [|auto]. split; [exact Hc|].
    rewrite lookup_workers_publish in Hw.
    destruct (decide (j = i)); [|exact Hw].
    destruct (workers s !! i); [exact Hw|discriminate].
  - auto.
  - rewrite collector_step_worker_step in Hc. split; [exact Hc|].
    rewrite lookup_workers_step_worker in Hw.
    destruct (decide (j = i)); [|exact Hw].
    destruct (workers s !! i) as [w|]; [|discriminate]. simpl in *.
    unfold worker_step in Hw.
    destruct (w_pc w) as [| | |m0|e0|pend| |e0] eqn:Hpc; try reflexivity; simpl in Hw;
      rewrite ?Hpc, ?in_loop_leave in Hw; discriminate.
  - split.
    + revert Hc. simpl. unfold collector_step.
      destruct (c_pc (collector s)) as [| | |m0|e0|pend| |e0] eqn:Hpc; try reflexivity;
        simpl; rewrite ?Hpc, ?in_loop_leave; discriminate.
    + revert Hw. simpl.
      destruct (collector_step_workers (_running s) choice f (workers s) (collector s))
        as [Heq|(j & w & m & rest & Hj & Hp & _ & _ & Heq & _)];
        destruct (collector_step (_running s) choice f (workers s) (collector s))
          as [[ws c] out]; simpl in *; subst ws; [auto|].
      rewrite list_lookup_alter. destruct (decide (j = i)) as [->|]; [|auto].
      rewrite Hj. auto.
Qed.

Lemma mt_chain_step_eq i e s :
  wf s -> i < length sensor_ports ->
  in_loops i (step e s) = true ->
  chain i (step e s) = chain i s ++ accepted i [e].
Proof.
  intros Hwf Hi Hl. pose proof (in_loops_before i e s Hl) as Hl0.
  unfold in_loops in Hl, Hl0.
  apply andb_true_iff in Hl as [Hc Hw]. apply andb_true_iff in Hl0 as [Hc0 Hw0].
  destruct e as [j m d| |j f|choice f].
  - destruct d; [|simpl; rewrite app_nil_r; reflexivity].
    unfold chain, downstream. rewrite lookup_workers_publish.
    change (collector (step (EvPublish j m true) s)) with (collector s).
    destruct (decide (j = i)) as [->|Hne].
    + destruct (workers s !! i) as [w|] eqn:Hwi; [|discriminate]. simpl in *.
      pose proof (wf_workers _ Hwf _ _ Hwi) as Hww.
      assert (Hopen : sub_closed (sub w) = false).
      { apply (wfw_open i w Hww). destruct (w_pc w); try discriminate; reflexivity. }
      unfold w_chain, deliver_to, deliver. simpl.
      rewrite Hopen, (wfw_topic i w Hww).
      destruct (String.prefix (topic_of i) m) eqn:Hp; simpl.
      * rewrite decide_True by (split; [reflexivity|exact Hp]).
        rewrite <- !app_assoc. reflexivity.
      * rewrite decide_False; [rewrite app_nil_r; reflexivity|].
        intros [_ Hm]. unfold matches in Hm. congruence.
    + simpl. rewrite decide_False by (intros [? _]; congruence).
      rewrite app_nil_r. reflexivity.
  - simpl. rewrite app_nil_r. reflexivity.
  - simpl accepted. rewrite app_nil_r. unfold chain, downstream.
    rewrite collector_step_worker_step, lookup_workers_step_worker.
    destruct (decide (j = i)) as [->|Hne]; [|reflexivity].
    destruct (workers s !! i) as [w|] eqn:Hwi; [|reflexivity]. simpl.
    rewrite lookup_workers_step_worker, decide_True, Hwi in Hw by reflexivity.
    simpl in Hw.
    destruct (worker_step_in_loop (_running s) f w
                (wfw_recv i w (wf_workers _ Hwf _ _ Hwi)) Hw) as (_ & -> & _).
    reflexivity.
  - simpl accepted. rewrite app_nil_r.
    apply (collector_step_in_loop i choice f s Hwf Hi Hc).
Qed.

(** *** What the counters count *)

Record mt_accounted (i : nat) (s : state) : Prop := mkMtAccounted {
  mta_total : event_count (collector s) = length (tx (pub (collector s)));
  mta_le : length (collected i s) + length (pipe_of i s) <= count_of i s;
  mta_eq : in_loop (c_pc (collector s)) = true ->
           length (collected i s) + length (pipe_of i s) = count_of i s
}.

Lemma mt_accounted_initial i : mt_accounted i initial.
Proof.
  split; unfold collected, pipe_of, count_of; simpl.
  - reflexivity.
  - destruct i as [|[|[|i]]]; simpl; lia.
  - intros _. destruct i as [|[|[|i]]]; simpl; lia.
Qed.

Lemma event_count_step e s :
  event_count (collector s) = length (tx (pub (collector s))) ->
  event_count (collector (step e s)) = length (tx (pub (collector (step e s)))).
Proof.
  intros H. destruct e as [j m d| |j f|choice f].
  - destruct d; exact H.
  - exact H.
  - rewrite collector_step_worker_step. exact H.
  - simpl. unfold collector_step.
    destruct (c_pc (collector s)) as [| | |m0|e0|pend| |e0]; simpl; try exact H.
    + destruct f; exact H.
    + destruct f; [exact H|].
      destruct (pick choice (workers s)) as [j|]; [|exact H].
      destruct (head _); exact H.
    + destruct f; [exact H|]. simpl. rewrite length_app. simpl. lia.
Qed.

Lemma mt_accounted_step i e s :
  wf s -> i < length sensor_ports -> mt_accounted i s -> mt_accounted i (step e s).
Proof.
  intros Hwf Hi [Ht Hle Heq]. destruct e as [j m d| |j f|choice f].
  - destruct d; [|split; assumption].
    assert (Hsame : collected i (step (EvPublish j m true) s) = collected i s /\
                    pipe_of i (step (EvPublish j m true) s) = pipe_of i s /\
                    count_of i (step (EvPublish j m true) s) = count_of i s).
    { unfold collected, pipe_of, count_of, downstream.
      rewrite lookup_workers_publish. destruct (decide (j = i)); [|auto].
      destruct (workers s !! i); auto. }
    destruct Hsame as (H1 & H2 & H3). split; rewrite ?H1, ?H2, ?H3; assumption.
  - split; assumption.
  - assert (Hsame : collected i (step (EvWorker j f) s) = collected i s /\
                    length (pipe_of i (step (EvWorker j f) s)) + count_of i s
                      = length (pipe_of i s) + count_of i (step (EvWorker j f) s)).
    { unfold collected, pipe_of, count_of, downstream.
      rewrite collector_step_worker_step, lookup_workers_step_worker.
      split; [reflexivity|]. destruct (decide (j = i)); [|reflexivity].
      destruct (workers s !! i) as [w|]; [|reflexivity]. simpl.
      apply worker_step_count. }
    destruct Hsame as (H1 & H2). split.
    + apply event_count_step, Ht.
    + rewrite H1. lia.
    + rewrite collector_step_worker_step, H1. intros Hc. specialize (Heq Hc). lia.
  - destruct (collector_step_collected i choice f s Hwf Hi) as [H1 H2]. split.
    + apply event_count_step, Ht.
    + lia.
    + intros Hc.
      destruct (collector_step_in_loop i choice f s Hwf Hi Hc) as (Hc0 & _ & H3).
      specialize (Heq Hc0). lia.
Qed.

Lemma mt_accounted_run i tr :
  i < length sensor_ports -> mt_accounted i (run tr initial).
Proof.
  intros Hi. induction tr as [|e tr IH] using rev_ind; [apply mt_accounted_initial|].
  rewrite mt_run_snoc. apply mt_accounted_step; [apply mt_wf_run, mt_wf_initial|exact Hi|exact IH].
Qed.


(** *** Every queued frame gets forwarded *)

Lemma worker_step_stays r w :
  r = true -> (w_pc w = AtRecv -> rx (sub w) <> []) ->
  in_loop (w_pc w) = true -> in_loop (w_pc (worker_step r None w).1) = true.
Proof.
  intros -> Hrecv. unfold worker_step.
  destruct (w_pc w) as [| | |m0|e0|pend| |e0] eqn:Hpc; try discriminate; intros _; simpl.
  - reflexivity.
  - destruct (pollin (sub w)); reflexivity.
  - destruct (rx (sub w)); simpl; rewrite ?Hpc; reflexivity.
  - reflexivity.
Qed.

Lemma collector_step_stays r choice ws c :
  r = true -> in_loop (c_pc c) = true ->
  in_loop (c_pc (collector_step r choice None ws c).1.2) = true.
Proof.
  intros ->. unfold collector_step.
  destruct (c_pc c) as [| | |m0|e0|pend| |e0] eqn:Hpc; try discriminate; intros _; simpl.
  - reflexivity.
  - destruct (pull_ready ws); reflexivity.
  - destruct (pick choice ws) as [k|]; [|simpl; rewrite ?Hpc; reflexivity].
    destruct (head _); simpl; rewrite ?Hpc; reflexivity.
  - reflexivity.
Qed.

Lemma mt_running_step_thread e s :
  e <> EvSignal -> _running (step e s) = _running s.
Proof.
  intros Hne. destruct e as [j m d| |j f|choice f]; simpl.
  - destruct d; reflexivity.
  - congruence.
  - destruct (workers s !! j) as [w|]; [|reflexivity].
    destruct (worker_step (_running s) f w); reflexivity.
  - destruct (collector_step (_running s) choice f (workers s) (collector s)) as [[ws c] out].
    reflexivity.
Qed.

(* statements of worker j and of the collector that do not raise keep
   worker i and the collector in their loops and keep the chain of topic i *)
Lemma only_threads_keep i j tr : forall s,
  wf s -> i < length sensor_ports -> _running s = true -> in_loops i s = true ->
  only_threads j tr ->
  _running (run tr s) = true /\ in_loops i (run tr s) = true /\
  chain i (run tr s) = chain i s.
Proof.
  induction tr as [|e tr IH]; intros s Hwf Hi Hr Hl Hall; [auto|].
  rewrite mt_run_cons. apply Forall_cons in Hall as [He Hall].
  assert (Hr1 : _running (step e s) = true).
  { rewrite mt_running_step_thread; [exact Hr|]. destruct He as [-> | ->]; discriminate. }
  assert (Hl1 : in_loops i (step e s) = true).
  { unfold in_loops in *. apply andb_true_iff in Hl as [Hc Hw].
    apply andb_true_iff. destruct He as [-> | ->].
    - rewrite collector_step_worker_step, lookup_workers_step_worker.
      split; [exact Hc|]. destruct (decide (j = i)) as [->|]; [|exact Hw].
      destruct (workers s !! i) as [w|] eqn:Hwi; [|discriminate]. simpl in *.
      apply worker_step_stays; [exact Hr| |exact Hw].
      exact (wfw_recv i w (wf_workers _ Hwf _ _ Hwi)).
    - simpl.
      pose proof (collector_step_stays (_running s) j (workers s) (collector s) Hr Hc) as Hc'.
      destruct (collector_step_workers (_running s) j None (workers s) (collector s))
        as [Heq|(k & w & m & rest & Hk & Hp & _ & _ & Heq & _)];
        destruct (collector_step (_running s) j None (workers s) (collector s))
          as [[ws c] out]; simpl in *; subst ws; split; try exact Hc'; try exact Hw.
      rewrite list_lookup_alter. destruct (decide (k = i)) as [->|]; [|exact Hw].
      rewrite Hk in *. exact Hw. }
  destruct (IH (step e s) (mt_wf_step e s Hwf) Hi Hr1 Hl1 Hall) as (H1 & H2 & H3).
  split; [exact H1|]. split; [exact H2|].
  rewrite H3, (mt_chain_step_eq i e s Hwf Hi Hl1).
  destruct He as [-> | ->]; simpl; apply app_nil_r.
Qed.

(* the statements of another worker and of the collector leave it so *)
Lemma idle_keep i j tr : forall s,
  i <> j -> idle i s -> only_threads j tr -> idle i (run tr s).
Proof.
  induction tr as [|e tr IH]; intros s Hne Hid Hall; [exact Hid|].
  rewrite mt_run_cons. apply Forall_cons in Hall as [He Hall].
  apply IH; [exact Hne| |exact Hall]. unfold idle in *. destruct He as [-> | ->].
  - rewrite lookup_workers_step_worker, decide_False by congruence. exact Hid.
  - simpl.
    destruct (collector_step_workers (_running s) j None (workers s) (collector s))
      as [Heq|(k & w & m & rest & Hk & Hp & _ & _ & Heq & _)];
      destruct (collector_step (_running s) j None (workers s) (collector s))
        as [[ws c] out]; simpl in *; subst ws; [exact Hid|].
    rewrite list_lookup_alter. destruct (decide (k = i)) as [->|]; [|exact Hid].
    rewrite Hk in *. simpl in *. unfold w_chain in Hid. rewrite Hp in Hid. discriminate.
Qed.

(* the collector gets back to its loop test, taking at most one frame *)
Lemma c_reach_while j : forall g (ws : list worker) c w,
  c_to_go (c_pc c) <= g ->
  in_loop (c_pc c) = true -> (c_pc c = AtRecv -> pull_ready ws = true) ->
  ws !! j = Some w ->
  exists n w',
    c_pc (c_run j n (ws, c)).2 = AtWhile /\
    (c_run j n (ws, c)).1 !! j = Some w' /\
    sub w' = sub w /\ w_pc w' = w_pc w /\
    length (pipe (push w')) <= length (pipe (push w)).
Proof.
  induction g as [|g IH]; intros ws c w Hg Hl Hrecv Hj.
  - exists 0, w. simpl. split; [|auto].
    destruct (c_pc c); try discriminate; simpl in Hg; try lia; reflexivity.
  - destruct (c_pc c) as [| | |m0|e0|pend| |e0] eqn:Hpc; try discriminate.
    + exists 0, w. simpl. auto.
    + (* AtPoll *)
      destruct (pull_ready ws) eqn:Hrdy.
      * assert (Hg' : c_to_go (c_pc (c_goto AtRecv c)) <= g) by (simpl in *; lia).
        destruct (IH ws (c_goto AtRecv c) w Hg' eq_refl (fun _ => Hrdy) Hj)
          as (n & w' & H).
        exists (S n), w'. rewrite c_run_S. simpl. unfold collector_step.
        rewrite Hpc, Hrdy. exact H.
      * exists 1, w. rewrite c_run_S. simpl. unfold collector_step.
        rewrite Hpc, Hrdy. simpl. auto.
    + (* AtRecv *)
      destruct (pick_ready j ws (Hrecv eq_refl)) as [k Hk].
      destruct (pick_Some _ _ _ Hk) as (wk & Hwk & Hf).
      apply has_frames_pipe in Hf as (mk & rest & Hpk).
      assert (Hg' : c_to_go (c_pc (c_goto (AtSend mk) c)) <= g) by (simpl in *; lia).
      assert (Hj' : alter take k ws !! j = Some (if decide (k = j) then take w else w)).
      { rewrite list_lookup_alter. destruct (decide (k = j)) as [->|]; [|exact Hj].
        rewrite Hj. reflexivity. }
      assert (Hnr : c_pc (c_goto (AtSend mk) c) = AtRecv ->
                    pull_ready (alter take k ws) = true) by discriminate.
      destruct (IH (alter take k ws) (c_goto (AtSend mk) c) _ Hg' eq_refl Hnr Hj')
        as (n & w' & H1 & H2 & H3 & H4 & H5).
      exists (S n), w'. rewrite c_run_S. simpl. unfold collector_step.
      rewrite Hpc, Hk, Hwk. simpl. rewrite Hpk. simpl.
      split; [exact H1|]. split; [exact H2|].
      destruct (decide (k = j)); simpl in *; repeat split; try assumption.
      etrans; [exact H5|]. destruct (pipe (push w)); simpl; lia.
    + (* AtSend *)
      exists 1, w. rewrite c_run_S. simpl. unfold collector_step.
      rewrite Hpc. simpl. auto.
Qed.

(* standing at its loop test, the collector empties pipe j *)
Lemma c_empties j : forall q (ws : list worker) c w,
  length (pipe (push w)) <= q ->
  c_pc c = AtWhile -> ws !! j = Some w ->
  exists n w',
    c_pc (c_run j n (ws, c)).2 = AtWhile /\
    (c_run j n (ws, c)).1 !! j = Some w' /\
    sub w' = sub w /\ w_pc w' = w_pc w /\ pipe (push w') = [].
Proof.
  induction q as [|q IH]; intros ws c w Hq Hpc Hj.
  - exists 0, w. simpl. split; [exact Hpc|]. split; [exact Hj|].
    destruct (pipe (push w)); [auto|simpl in Hq; lia].
  - destruct (pipe (push w)) as [|m rest] eqn:Hp.
    + exists 0, w. simpl. auto.
    + destruct (IH (alter take j ws)
                   (mkCollector (pull_closed c) (send m (pub c)) (event_count c + 1) AtWhile)
                   (take w)) as (n & w' & H1 & H2 & H3 & H4 & H5).
      * simpl. rewrite Hp. simpl in *. lia.
      * reflexivity.
      * rewrite list_lookup_alter, decide_True by reflexivity. rewrite Hj. reflexivity.
      * exists (4 + n), w'. rewrite c_run_add.
        rewrite (c_take_from_while j ws c w m rest Hpc Hj Hp). auto.
Qed.


Lemma mt_chain_exact_run tr i :
  i < length sensor_ports ->
  in_loops i (run tr initial) = true ->
  chain i (run tr initial) = accepted i tr.
Proof.
  intros Hi. induction tr as [|e tr IH] using rev_ind.
  - intros _. destruct i as [|[|[|i]]]; simpl in Hi; try lia; reflexivity.
  - rewrite mt_run_snoc. intros Hl.
    rewrite mt_accepted_snoc, <- (IH (in_loops_before _ _ _ Hl)).
    apply mt_chain_step_eq; [apply mt_wf_run, mt_wf_initial|exact Hi|exact Hl].
Qed.

(* worker j and the collector, left to run, move everything of topic j
   downstream *)
Lemma mt_drain j s :
  wf s -> j < length sensor_ports ->
  _running s = true -> in_loops j s = true ->
  exists tr,
    only_threads j tr /\ idle j (run tr s) /\
    c_pc (collector (run tr s)) = AtWhile /\
    worker_pc j (run tr s) = Some AtWhile.
Proof.
  intros Hwf Hj Hr Hl.
  pose proof Hl as Hl'. unfold in_loops in Hl'.
  apply andb_true_iff in Hl' as [Hcl Hwl].
  destruct (workers s !! j) as [w|] eqn:Hwj; [|discriminate]. simpl in Hwl.
  (* the worker moves its queue into the pipe *)
  destruct (w_drain j w (wf_workers _ Hwf _ _ Hwj) Hwl) as (n1 & Hw1 & Hw2 & Hw3).
  destruct (run_worker_steps n1 s j w Hr Hwj) as (Hws1 & Hc1 & Hr1).
  set (tr1 := replicate n1 (EvWorker j None)) in *.
  set (s1 := run tr1 s) in *.
  assert (Hwf1 : wf s1) by apply mt_wf_run, Hwf.
  assert (Hj1 : workers s1 !! j = Some (w_run n1 w)).
  { rewrite Hws1. apply list_lookup_insert_eq. eapply lookup_lt_Some; eauto. }
  (* the collector finishes its pass and empties the pipe *)
  destruct (c_reach_while j (c_to_go (c_pc (collector s1))) (workers s1) (collector s1)
              (w_run n1 w) (le_n _) ltac:(rewrite Hc1; exact Hcl)
              (wf_recv s1 Hwf1) Hj1)
    as (n2 & w2 & Hc2 & Hj2 & Hsub2 & Hpc2 & _).
  destruct (c_run j n2 (workers s1, collector s1)) as [ws2 c2] eqn:Hrun2.
  simpl in Hc2, Hj2.
  destruct (c_empties j (length (pipe (push w2))) ws2 c2 w2 (le_n _) Hc2 Hj2)
    as (n3 & w3 & Hc3 & Hj3 & Hsub3 & Hpc3 & Hp3).
  destruct (run_collector_steps j (n2 + n3) s1 Hr1) as (Hrc & _).
  rewrite c_run_add, Hrun2 in Hrc.
  set (tr2 := replicate (n2 + n3) (EvCollector j None)) in *.
  set (s2 := run tr2 s1) in *.
  assert (Hws : workers s2 = (c_run j n3 (ws2, c2)).1) by (rewrite <- Hrc; reflexivity).
  assert (Hcs : collector s2 = (c_run j n3 (ws2, c2)).2) by (rewrite <- Hrc; reflexivity).
  exists (tr1 ++ tr2). rewrite mt_run_app. fold s1. fold s2.
  split; [apply Forall_app; split; apply Forall_replicate; auto|].
  split; [|split].
  - unfold idle. rewrite Hws, Hj3. simpl. unfold w_chain.
    rewrite Hp3, Hpc3, Hpc2, Hw1, Hsub3, Hsub2, Hw2. reflexivity.
  - rewrite Hcs. exact Hc3.
  - unfold worker_pc. rewrite Hws, Hj3. simpl. rewrite Hpc3, Hpc2, Hw1. reflexivity.
Qed.

Lemma mt_accepted_app i tr1 tr2 :
  accepted i (tr1 ++ tr2) = accepted i tr1 ++ accepted i tr2.
Proof. unfold accepted. apply omap_app. Qed.

Lemma mt_accepted_threads i j tr : only_threads j tr -> accepted i tr = [].
Proof.
  induction tr as [|e tr IH]; [reflexivity|]. intros [He Hall]%Forall_cons.
  destruct He as [-> | ->]; simpl; apply IH, Hall.
Qed.

End BrokerThreadedMoreFacts.

Module BrokerThreadedMoreTheorems.
Import Zmq ZmqFacts BrokerThreaded BrokerThreadedFacts BrokerThreadedMore
       BrokerThreadedMoreFacts.

(** X19: while a worker of the multi-threaded relay and the collector are
    inside their loops, no frame of that worker's sensor has been lost,
    duplicated or reordered: the frames of its topic already published
    downstream, then the one the collector holds, then the worker's inproc
    pipe, the frame the worker holds and its subscription queue are exactly
    the frames of that sensor that the transport delivered and that start
    with the subscribed topic, in the order of delivery. *)
Theorem mt_no_frame_lost_inside_loops (tr : list event) (i : nat) :
  i < length sensor_ports ->
  in_loops i (run tr initial) = true ->
  downstream i (run tr initial)
    ++ filter (matches i) (held (c_pc (collector (run tr initial))))
    ++ default [] (w_chain <$> workers (run tr initial) !! i)
  = accepted i tr.
Proof.
  intros Hi Hl. pose proof (mt_chain_exact_run tr i Hi Hl) as H.
  unfold chain in H. exact H.
Qed.

Lemma mt_no_frame_lost_inside_loops_witness :
  let tr := [EvPublish 0 "camara a" true; EvWorker 0 None; EvWorker 0 None;
             EvWorker 0 None; EvWorker 0 None; EvPublish 0 "camara b" true;
             EvCollector 0 None; EvCollector 0 None; EvCollector 0 None;
             EvPublish 0 "gps c" true; EvPublish 0 "camara d" false] in
  in_loops 0 (run tr initial) = true /\
  downstream 0 (run tr initial)
    ++ filter (matches 0) (held (c_pc (collector (run tr initial))))
    ++ default [] (w_chain <$> workers (run tr initial) !! 0)
  = ["camara a"; "camara b"].
Proof.
  intros tr. split; [reflexivity|].
  apply (mt_no_frame_lost_inside_loops tr 0); [simpl; lia|reflexivity].
Defined.

(** X20: the counters of the multi-threaded relay.  In every run the
    collector's event_count is the number of frames it has published, and
    each worker's count is at least the number of frames of its topic the
    collector has published or holds plus those waiting in the worker's
    pipe; the two are equal as long as the collector is inside its loop,
    that is, until a send of the collector fails. *)
Theorem mt_counters_account_for_frames (tr : list event) (i : nat) :
  i < length sensor_ports ->
  let s := run tr initial in
  event_count (collector s) = length (tx (pub (collector s))) /\
  length (downstream i s) + length (filter (matches i) (held (c_pc (collector s))))
    + length (pipe_of i s) <= count_of i s /\
  (in_loop (c_pc (collector s)) = true ->
   count_of i s =
     length (downstream i s) + length (filter (matches i) (held (c_pc (collector s))))
       + length (pipe_of i s)).
Proof.
  intros Hi s. destruct (mt_accounted_run i tr Hi) as [Ht Hle Heq].
  fold s in Ht, Hle, Heq. unfold collected in Hle, Heq. rewrite length_app in Hle, Heq.
  split; [exact Ht|]. split; [exact Hle|].
  intros Hc. symmetry. exact (Heq Hc).
Qed.

Lemma mt_counters_account_for_frames_witness :
  let tr := [EvPublish 1 "espira a" true; EvPublish 1 "espira b" true;
             EvWorker 1 None; EvWorker 1 None; EvWorker 1 None; EvWorker 1 None;
             EvWorker 1 None; EvWorker 1 None; EvWorker 1 None; EvWorker 1 None;
             EvCollector 0 None; EvCollector 0 None; EvCollector 0 None;
             EvCollector 0 (Some (ZMQError 11))] in
  count_of 1 (run tr initial) = 2 /\
  length (downstream 1 (run tr initial)) = 0 /\
  length (pipe_of 1 (run tr initial)) = 1 /\
  event_count (collector (run tr initial)) = 0.
Proof.
  intros tr.
  destruct (mt_counters_account_for_frames tr 1 ltac:(simpl; lia)) as (H1 & _ & _).
  split; [reflexivity|]. split; [reflexivity|]. split; [reflexivity|].
  rewrite H1. reflexivity.
Defined.

(** X21: the multi-threaded relay gets every frame it has accepted out:
    from any state reached with the running flag set in which a worker and
    the collector are inside their loops, a finite run of statements of that
    worker and of the collector, none of which raises, ends with the
    worker's queue and pipe empty, worker and collector at their loop tests,
    and everything of that worker's topic that was held, piped or queued
    published downstream, after what was published before and in the
    original order. *)
Theorem mt_queued_frames_get_forwarded (tr0 : list event) (j : nat) :
  let s := run tr0 initial in
  j < length sensor_ports ->
  _running s = true -> in_loops j s = true ->
  exists tr,
    only_threads j tr /\
    let s' := run tr s in
    downstream j s' =
      downstream j s ++ filter (matches j) (held (c_pc (collector s)))
        ++ default [] (w_chain <$> workers s !! j) /\
    default [] (w_chain <$> workers s' !! j) = [] /\
    c_pc (collector s') = AtWhile /\ worker_pc j s' = Some AtWhile.
Proof.
  intros s Hj Hr Hl.
  assert (Hwf : wf s) by apply mt_wf_run, mt_wf_initial.
  destruct (mt_drain j s Hwf Hj Hr Hl) as (tr & Hall & Hid & Hc & Hw).
  exists tr. split; [exact Hall|]. cbv zeta.
  destruct (only_threads_keep j j tr s Hwf Hj Hr Hl Hall) as (_ & _ & Hch).
  unfold idle in Hid. split; [|split; [exact Hid|split; [exact Hc|exact Hw]]].
  unfold chain in Hch. rewrite Hid, Hc in Hch. simpl in Hch.
  rewrite !app_nil_r in Hch. exact Hch.
Qed.

Lemma mt_queued_frames_get_forwarded_witness :
  let s := run [EvPublish 2 "gps a" true; EvPublish 2 "gps b" true;
                EvWorker 2 None; EvCollector 0 None] initial in
  exists tr,
    only_threads 2 tr /\
    downstream 2 (run tr s) = ["gps a"; "gps b"] /\
    default [] (w_chain <$> workers (run tr s) !! 2) = [].
Proof.
  intros s.
  destruct (mt_queued_frames_get_forwarded
              [EvPublish 2 "gps a" true; EvPublish 2 "gps b" true;
               EvWorker 2 None; EvCollector 0 None] 2
              ltac:(simpl; lia) eq_refl eq_refl) as (tr & H1 & H2 & H3 & _).
  exists tr. split; [exact H1|]. split; [exact H2|exact H3].
Defined.

End BrokerThreadedMoreTheorems.

Module RelaysFacts.
Import Zmq Relays.

Lemma std_after_publications ps :
  Broker.at_pc (Broker.run (std_events ps) Broker.initial) = Broker.AtWhile /\
  Broker._running (Broker.run (std_events ps) Broker.initial) = true.
Proof.
  induction ps as [|p ps IH] using rev_ind; [auto|].
  unfold std_events. rewrite fmap_app, BrokerFacts.run_app. fold (std_events ps).
  set (s := Broker.run (std_events ps) Broker.initial) in *.
  simpl. destruct (p.2); exact IH.
Qed.

Lemma mt_after_publications ps i :
  i < length BrokerThreaded.sensor_ports ->
  BrokerThreaded._running (BrokerThreaded.run (mt_events ps) BrokerThreaded.initial)
    = true /\
  BrokerThreadedMore.in_loops i
    (BrokerThreaded.run (mt_events ps) BrokerThreaded.initial) = true.
Proof.
  intros Hi. induction ps as [|p ps IH] using rev_ind.
  - split; [reflexivity|].
    destruct i as [|[|[|i]]]; simpl in Hi; try lia; reflexivity.
  - unfold mt_events. rewrite fmap_app, BrokerThreadedFacts.mt_run_app.
    fold (mt_events ps). destruct IH as [Hr Hl].
    set (s := BrokerThreaded.run (mt_events ps) BrokerThreaded.initial) in *.
    change (BrokerThreaded.run _ s)
      with (BrokerThreaded.step (BrokerThreaded.EvPublish p.1.1 p.1.2 p.2) s).
    destruct (p.2) eqn:Hd; [|split; assumption].
    split; [exact Hr|].
    unfold BrokerThreadedMore.in_loops in *.
    rewrite BrokerThreadedMoreFacts.lookup_workers_publish.
    change (BrokerThreaded.collector (BrokerThreaded.step _ s))
      with (BrokerThreaded.collector s).
    destruct (decide (p.1.1 = i)); [|exact Hl].
    destruct (BrokerThreaded.workers s !! i); exact Hl.
Qed.

(* both relays accept the same publications *)
Lemma accepted_same ps i :
  i < 3 ->
  BrokerThreadedMore.accepted i (mt_events ps) = BrokerMore.accepted i (std_events ps).
Proof.
  intros Hi. induction ps as [|[[j m] d] ps IH]; [reflexivity|].
  change (mt_events ((j, m, d) :: ps))
    with ([BrokerThreaded.EvPublish j m d] ++ mt_events ps).
  change (std_events ((j, m, d) :: ps))
    with ([Broker.EvPublish j m d] ++ std_events ps).
  rewrite BrokerThreadedMoreFacts.mt_accepted_app, BrokerMoreFacts.accepted_app, IH.
  f_equal. destruct d; [|reflexivity].
  assert (Hsame : BrokerThreaded.matches i m <-> Broker.matches i m).
  { unfold BrokerThreaded.matches, Broker.matches.
    destruct i as [|[|[|i]]]; try lia; reflexivity. }
  unfold BrokerThreadedMore.accepted, BrokerMore.accepted. simpl.
  destruct (decide (j = i /\ BrokerThreaded.matches i m)) as [Ha|Ha],
           (decide (j = i /\ Broker.matches i m)) as [Hb|Hb]; try reflexivity;
    exfalso; tauto.
Qed.

Lemma only_threads_quiet j tr : BrokerThreaded.only_threads j tr -> mt_quiet tr.
Proof.
  unfold BrokerThreaded.only_threads, mt_quiet. intros H.
  eapply Forall_impl; [exact H|]. intros e He. exists j. exact He.
Qed.

(* one worker drained, the others and the flag as they were *)
Lemma mt_drain_one j s :
  BrokerThreaded.wf s -> j < length BrokerThreaded.sensor_ports ->
  BrokerThreaded._running s = true ->
  (forall i, i < length BrokerThreaded.sensor_ports ->
             BrokerThreadedMore.in_loops i s = true) ->
  exists tr,
    BrokerThreaded.only_threads j tr /\
    BrokerThreaded.wf (BrokerThreaded.run tr s) /\
    BrokerThreaded._running (BrokerThreaded.run tr s) = true /\
    (forall i, i < length BrokerThreaded.sensor_ports ->
               BrokerThreadedMore.in_loops i (BrokerThreaded.run tr s) = true) /\
    BrokerThreadedMore.idle j (BrokerThreaded.run tr s) /\
    (forall i, i <> j -> BrokerThreadedMore.idle i s ->
               BrokerThreadedMore.idle i (BrokerThreaded.run tr s)) /\
    BrokerThreaded.c_pc (BrokerThreaded.collector (BrokerThreaded.run tr s))
      = BrokerThreaded.AtWhile.
Proof.
  intros Hwf Hj Hr Hl.
  destruct (BrokerThreadedMoreFacts.mt_drain j s Hwf Hj Hr (Hl j Hj))
    as (tr & Hall & Hid & Hc & _).
  exists tr. split; [exact Hall|].
  split; [apply BrokerThreadedFacts.mt_wf_run, Hwf|].
  split; [|split; [|split; [exact Hid|split; [|exact Hc]]]].
  - exact (proj1 (BrokerThreadedMoreFacts.only_threads_keep j j tr s Hwf Hj Hr
                    (Hl j Hj) Hall)).
  - intros i Hi.
    exact (proj1 (proj2 (BrokerThreadedMoreFacts.only_threads_keep i j tr s Hwf Hi Hr
                           (Hl i Hi) Hall))).
  - intros i Hne Hidle.
    exact (BrokerThreadedMoreFacts.idle_keep i j tr s Hne Hidle Hall).
Qed.

End RelaysFacts.

Module RelaysTheorems.
Import Zmq Relays RelaysFacts.

(** X22: the two relays do the same job.  For any sequence of sensor
    publications, delivered or dropped by the transport, each relay, left to
    run without fault or signal, comes to a state where a downstream
    subscriber of each topic has received exactly the delivered frames of
    that sensor that start with the topic, in the order of delivery: the
    single-threaded relay and the multi-threaded relay publish the same
    frames per topic. *)
Theorem relays_publish_the_same (ps : list publication) :
  exists n tr,
    mt_quiet tr /\
    forall i, i < 3 ->
      Broker.downstream i
        (Broker.run (std_events ps ++ BrokerMore.quiet n) Broker.initial)
        = BrokerMore.accepted i (std_events ps) /\
      BrokerThreaded.downstream i
        (BrokerThreaded.run (mt_events ps ++ tr) BrokerThreaded.initial)
        = BrokerMore.accepted i (std_events ps).
Proof.
  (* the single-threaded relay *)
  destruct (std_after_publications ps) as [Hpc Hrun].
  set (s := Broker.run (std_events ps) Broker.initial) in *.
  assert (Hloop : BrokerMore.looping s = true)
    by (unfold BrokerMore.looping; rewrite Hpc; reflexivity).
  destruct (BrokerMoreFacts.std_drain s
              (BrokerFacts.wf_run _ _ BrokerFacts.wf_initial) Hloop Hrun)
    as (n & _ & _ & Hstd).
  (* the multi-threaded relay: one worker after the other *)
  set (t0 := BrokerThreaded.run (mt_events ps) BrokerThreaded.initial).
  assert (Hwf0 : BrokerThreaded.wf t0)
    by apply BrokerThreadedFacts.mt_wf_run, BrokerThreadedFacts.mt_wf_initial.
  assert (Hr0 : BrokerThreaded._running t0 = true)
    by exact (proj1 (mt_after_publications ps 0 ltac:(simpl; lia))).
  assert (Hl0 : forall i, i < length BrokerThreaded.sensor_ports ->
                          BrokerThreadedMore.in_loops i t0 = true)
    by (intros i Hi; exact (proj2 (mt_after_publications ps i Hi))).
  destruct (mt_drain_one 0 t0 Hwf0 ltac:(simpl; lia) Hr0 Hl0)
    as (tr0 & Ha0 & Hwf1 & Hr1 & Hl1 & Hi0 & _ & _).
  set (t1 := BrokerThreaded.run tr0 t0) in *.
  destruct (mt_drain_one 1 t1 Hwf1 ltac:(simpl; lia) Hr1 Hl1)
    as (tr1 & Ha1 & Hwf2 & Hr2 & Hl2 & Hi1 & Hk1 & _).
  set (t2 := BrokerThreaded.run tr1 t1) in *.
  destruct (mt_drain_one 2 t2 Hwf2 ltac:(simpl; lia) Hr2 Hl2)
    as (tr2 & Ha2 & _ & _ & Hl3 & Hi2 & Hk2 & Hc3).
  set (t3 := BrokerThreaded.run tr2 t2) in *.
  assert (Hrun3 : BrokerThreaded.run (mt_events ps ++ tr0 ++ tr1 ++ tr2)
                    BrokerThreaded.initial = t3).
  { rewrite !BrokerThreadedFacts.mt_run_app. reflexivity. }
  exists n, (tr0 ++ tr1 ++ tr2). split.
  { repeat (apply Forall_app; split); eapply only_threads_quiet; eassumption. }
  intros i Hi. split.
  - rewrite BrokerFacts.run_app. fold s.
    rewrite (proj1 (Hstd i Hi)).
    apply BrokerMoreFacts.chain_exact_run; [exact Hi|exact Hloop].
  - rewrite Hrun3.
    assert (Hidle : BrokerThreadedMore.idle i t3).
    { destruct i as [|[|[|i]]]; try lia.
      - apply Hk2; [lia|]. apply Hk1; [lia|]. exact Hi0.
      - apply Hk2; [lia|]. exact Hi1.
      - exact Hi2. }
    pose proof (BrokerThreadedMoreFacts.mt_chain_exact_run
                  (mt_events ps ++ tr0 ++ tr1 ++ tr2) i Hi) as Hch.
    rewrite Hrun3 in Hch. specialize (Hch (Hl3 i Hi)).
    rewrite !BrokerThreadedMoreFacts.mt_accepted_app in Hch.
    rewrite (BrokerThreadedMoreFacts.mt_accepted_threads i 0 tr0 Ha0),
            (BrokerThreadedMoreFacts.mt_accepted_threads i 1 tr1 Ha1),
            (BrokerThreadedMoreFacts.mt_accepted_threads i 2 tr2 Ha2),
            !app_nil_r, (accepted_same ps i Hi) in Hch.
    unfold BrokerThreaded.chain in Hch. unfold BrokerThreadedMore.idle in Hidle.
    rewrite Hidle, Hc3 in Hch. simpl in Hch. rewrite !app_nil_r in Hch. exact Hch.
Qed.

End RelaysTheorems.
